(** * Custom-fields query and compatibility subsystem of claude-task-master

    A shallow embedding of the JavaScript modules
    - [scripts/modules/utils/customFieldsValidator.js]
    - [scripts/modules/utils/backwardCompatibility.js]
    - [scripts/modules/utils/subtaskValidator.js]
    - [scripts/modules/utils/queryTranslator.js] (both copies kept in the tree)
    - [scripts/modules/utils/fuzzyTaskSearch.js]
    and the properties the specification states about them. *)

From Stdlib Require Import List String Ascii ZArith Bool Lia QArith.
From Stdlib Require Import SpecFloat.
Import ListNotations.

Set Warnings "-register-all".

Local Open Scope string_scope.
Local Open Scope Z_scope.

(** ** JavaScript values and the few primitives the modules rely on *)

Module JS.

(** A value as it comes out of [JSON.parse].  A string is the sequence of its
    code units, taken in the range 0..255.  The numbers a task file carries
    are integer identifiers, hence [Z].  An object is the list of its own
    properties in enumeration order; keys are pairwise distinct. *)
Inductive value : Type :=
| VUndefined
| VNull
| VBool (b : bool)
| VNum (n : Z)
| VStr (s : string)
| VArr (l : list value)
| VObj (o : list (string * value)).

Definition props := list (string * value).

(** Every exception the modelled code can raise is a [TypeError]. *)
Inductive error : Type := TypeError.

Inductive result (A : Type) : Type :=
| Ok (a : A)
| Throw (e : error).
Arguments Ok {A} a.
Arguments Throw {A} e.

Definition bind {A B} (r : result A) (k : A -> result B) : result B :=
  match r with
  | Ok a => k a
  | Throw e => Throw e
  end.

Notation "x <- c ;; k" := (bind c (fun x => k))
  (at level 61, c at next level, right associativity).

(** [Array.prototype.map] with a callback that may throw: elements are
    visited from left to right and the first exception aborts the loop. *)
Fixpoint mapM {A B} (f : A -> result B) (l : list A) : result (list B) :=
  match l with
  | [] => Ok []
  | x :: r => y <- f x ;; ys <- mapM f r ;; Ok (y :: ys)
  end.

(** [Array.prototype.filter] with a callback that may throw. *)
Fixpoint filterM {A} (f : A -> result bool) (l : list A) : result (list A) :=
  match l with
  | [] => Ok []
  | x :: r => b <- f x ;; ys <- filterM f r ;; Ok (if b then x :: ys else ys)
  end.

(** [Array.prototype.forEach] with a callback that updates a local
    accumulator and may throw. *)
Fixpoint foldM {A B} (f : A -> B -> result A) (acc : A) (l : list B)
  : result A :=
  match l with
  | [] => Ok acc
  | x :: r => acc' <- f acc x ;; foldM f acc' r
  end.

(** [ToBoolean]. *)
Definition truthy (v : value) : bool :=
  match v with
  | VUndefined | VNull => false
  | VBool b => b
  | VNum n => negb (n =? 0)
  | VStr s => negb (s =? "")%string
  | VArr _ | VObj _ => true
  end.

Definition nullish (v : value) : bool :=
  match v with
  | VUndefined | VNull => true
  | _ => false
  end.

Definition isArray (v : value) : bool :=
  match v with
  | VArr _ => true
  | _ => false
  end.

(** Strict equality [===].  Two operands read from different places of a
    parsed document are never the same object, so objects and arrays compare
    unequal. *)
Definition strict_eq (a b : value) : bool :=
  match a, b with
  | VUndefined, VUndefined => true
  | VNull, VNull => true
  | VBool x, VBool y => Bool.eqb x y
  | VNum x, VNum y => x =? y
  | VStr x, VStr y => (x =? y)%string
  | _, _ => false
  end.

(** *** Strings *)

Definition digit_char (d : Z) : ascii := ascii_of_nat (48 + Z.to_nat d).

Fixpoint digits_fuel (fuel : nat) (n : Z) (acc : string) : string :=
  match fuel with
  | O => acc
  | S fuel' =>
      let acc' := String (digit_char (n mod 10)) acc in
      if n <? 10 then acc' else digits_fuel fuel' (n / 10) acc'
  end.

(** Decimal digits of a non-negative integer. *)
Definition decimal (n : Z) : string :=
  digits_fuel (S (Z.to_nat (Z.log2 n))) n "".

Definition string_of_Z (n : Z) : string :=
  if n <? 0 then "-" ++ decimal (- n) else decimal n.

(** [String.prototype.includes] on two strings. *)
Fixpoint includes (s sub : string) : bool :=
  prefix sub s ||
  match s with
  | EmptyString => false
  | String _ r => includes r sub
  end.

(** [s.split(',')]: the empty string splits into one empty part. *)
Fixpoint split_comma_aux (s cur : string) : list string :=
  match s with
  | EmptyString => [cur]
  | String c r =>
      if (c =? ",")%char then cur :: split_comma_aux r ""
      else split_comma_aux r (cur ++ String c "")
  end.

Definition split_comma (s : string) : list string := split_comma_aux s "".

(** White space and line terminators of ECMAScript below code unit 256. *)
Definition is_space (c : ascii) : bool :=
  let n := nat_of_ascii c in
  ((9 <=? n) && (n <=? 13) || (n =? 32) || (n =? 160))%nat.

Fixpoint trimStart (s : string) : string :=
  match s with
  | EmptyString => EmptyString
  | String c r => if is_space c then trimStart r else s
  end.

Fixpoint trimEnd (s : string) : string :=
  match s with
  | EmptyString => EmptyString
  | String c r =>
      match trimEnd r with
      | EmptyString => if is_space c then EmptyString else String c EmptyString
      | r' => String c r'
      end
  end.

Definition trim (s : string) : string := trimEnd (trimStart s).

(** Lower-casing of one code unit below 256: A..Z and the accented capitals
    U+00C0..U+00DE, the multiplication sign U+00D7 excepted. *)
Definition lower_char (c : ascii) : ascii :=
  let n := nat_of_ascii c in
  if ((65 <=? n) && (n <=? 90) ||
      (192 <=? n) && (n <=? 222) && negb (n =? 215))%nat
  then ascii_of_nat (n + 32) else c.

Fixpoint toLowerCase (s : string) : string :=
  match s with
  | EmptyString => EmptyString
  | String c r => String (lower_char c) (toLowerCase r)
  end.

(** [Array.prototype.includes] restricted to an array of strings. *)
Definition str_mem (x : string) (l : list string) : bool :=
  existsb (String.eqb x) l.

(** *** Properties *)

Fixpoint lookup (k : string) (o : props) : option value :=
  match o with
  | [] => None
  | (k', v) :: r => if (k =? k')%string then Some v else lookup k r
  end.

(** Assignment of one property, as the object literal [{...o, k: v}] does
    after the spread: a present key keeps its place, a new key goes last. *)
Fixpoint assign (k : string) (v : value) (o : props) : props :=
  match o with
  | [] => [(k, v)]
  | (k', v') :: r =>
      if (k =? k')%string then (k', v) :: r else (k', v') :: assign k v r
  end.

(** The canonical array index a property name denotes, if any. *)
Fixpoint parse_digits (s : string) (acc : Z) : option Z :=
  match s with
  | EmptyString => Some acc
  | String c r =>
      let n := Z.of_nat (nat_of_ascii c) in
      if (48 <=? n) && (n <=? 57) then parse_digits r (10 * acc + (n - 48))
      else None
  end.

Definition array_index (k : string) : option nat :=
  match k with
  | EmptyString => None
  | _ =>
      match parse_digits k 0 with
      | Some n => if (decimal n =? k)%string then Some (Z.to_nat n) else None
      | None => None
      end
  end.

Fixpoint chars (s : string) : list value :=
  match s with
  | EmptyString => []
  | String c r => VStr (String c "") :: chars r
  end.

Definition nth_or_undefined (l : list value) (i : nat) : value :=
  nth i l VUndefined.

(** Property read [v[k]] for the own properties of [v]; reading from
    [null] or [undefined] throws.  Members inherited from the built-in
    prototypes are not data and are not represented. *)
Definition get (v : value) (k : string) : result value :=
  match v with
  | VUndefined | VNull => Throw TypeError
  | VBool _ | VNum _ => Ok VUndefined
  | VStr s =>
      if (k =? "length")%string then Ok (VNum (Z.of_nat (String.length s)))
      else match array_index k with
           | Some i => Ok (nth_or_undefined (chars s) i)
           | None => Ok VUndefined
           end
  | VArr l =>
      if (k =? "length")%string then Ok (VNum (Z.of_nat (List.length l)))
      else match array_index k with
           | Some i => Ok (nth_or_undefined l i)
           | None => Ok VUndefined
           end
  | VObj o =>
      match lookup k o with
      | Some x => Ok x
      | None => Ok VUndefined
      end
  end.

Fixpoint indexed (i : nat) (l : list value) : props :=
  match l with
  | [] => []
  | x :: r => (decimal (Z.of_nat i), x) :: indexed (S i) r
  end.

(** Own enumerable properties copied by the spread [{...v}]. *)
Definition spread (v : value) : props :=
  match v with
  | VObj o => o
  | VArr l => indexed 0 l
  | VStr s => indexed 0 (chars s)
  | _ => []
  end.

(** [ToString], for the values it prints without a call into the value: a
    number is printed with all its digits, as JavaScript prints an integer
    below 2^53 in absolute value, and an object as ["[object Object]"], as
    JavaScript prints an object that has no [toString] property of its own
    (with one, which in a parsed document is not a function, the conversion
    throws).  The properties that rely on a printed value state this range:
    see [printable] and [primitiveIds]. *)
Fixpoint toString (v : value) : string :=
  match v with
  | VUndefined => "undefined"
  | VNull => "null"
  | VBool true => "true"
  | VBool false => "false"
  | VNum n => string_of_Z n
  | VStr s => s
  | VArr l =>
      (fix join (l : list value) : string :=
         match l with
         | [] => ""
         | x :: r =>
             let e := if nullish x then "" else toString x in
             match r with
             | [] => e
             | _ => e ++ "," ++ join r
             end
         end) l
  | VObj _ => "[object Object]"
  end.

(** The method call [recv.includes(arg)]. *)
Definition call_includes (recv arg : value) : result bool :=
  match recv with
  | VStr s => Ok (includes s (toString arg))
  | VArr l => Ok (existsb (strict_eq arg) l)
  | _ => Throw TypeError
  end.

(** The method call [recv.toLowerCase()]. *)
Definition call_toLowerCase (recv : value) : result string :=
  match recv with
  | VStr s => Ok (toLowerCase s)
  | _ => Throw TypeError
  end.

(** The method call [recv.toString()] on a value that is not [null] or
    [undefined]. *)
Definition call_toString (recv : value) : result string :=
  if nullish recv then Throw TypeError else Ok (toString recv).

(** The method call [recv.map(f)]: only arrays have the method. *)
Definition call_map (recv : value) (f : value -> result value)
  : result value :=
  match recv with
  | VArr l => ys <- mapM f l ;; Ok (VArr ys)
  | _ => Throw TypeError
  end.

(** *** Numbers of the arithmetic kind: IEEE 754 binary64 *)

Definition prec : Z := 53.
Definition emax : Z := 1024.

Definition number := spec_float.

(** The double nearest to an integer. *)
Definition number_of_Z (n : Z) : number := binary_normalize prec emax n 0 false.

Definition num_sub : number -> number -> number := SFsub prec emax.
Definition num_div : number -> number -> number := SFdiv prec emax.
Definition num_mul : number -> number -> number := SFmul prec emax.

Fixpoint zeros (n : nat) : string :=
  match n with
  | O => ""
  | S n' => String "0" (zeros n')
  end.

(** The digits of [n] with a point before the last [f] of them. *)
Definition fixed_digits (f : nat) (n : Z) : string :=
  let d := decimal n in
  let d := zeros (S f - String.length d) ++ d in
  match f with
  | O => d
  | _ =>
      let k := (String.length d - f)%nat in
      substring 0 k d ++ "." ++ substring k f d
  end.

(** [Number.prototype.toFixed(f)] for 0 <= f <= 100.  The integer [n] chosen
    is the one for which [n / 10^f] is nearest to the exact value of the
    double, the larger one when two are as near.  A value of at least 10^21
    is handed to [Number::toString], which is not modelled: the result is
    [None] there. *)
Definition toFixed (x : number) (f : nat) : option string :=
  match x with
  | S754_nan => Some "NaN"
  | S754_infinity false => Some "Infinity"
  | S754_infinity true => Some "-Infinity"
  | S754_zero _ => Some (fixed_digits f 0)
  | S754_finite s m e =>
      let p := 10 ^ Z.of_nat f in
      let big :=
        if 0 <=? e then 10 ^ 21 <=? Z.pos m * 2 ^ e
        else 10 ^ 21 * 2 ^ (- e) <=? Z.pos m in
      if big then None
      else
        let n :=
          if 0 <=? e then Z.pos m * 2 ^ e * p
          else (2 * Z.pos m * p + 2 ^ (- e)) / 2 ^ (- e + 1) in
        Some ((if s then "-" else "") ++ fixed_digits f n)
  end.

(** [typeof v === 'object'] *)
Definition typeof_object (v : value) : bool :=
  match v with
  | VNull | VArr _ | VObj _ => true
  | _ => false
  end.

(** The names of the properties of [Object.prototype]: what [obj[name]]
    finds for a plain object that has no property [name] of its own. *)
Definition Object_prototype_names : list string :=
  ["constructor"; "hasOwnProperty"; "isPrototypeOf"; "propertyIsEnumerable";
   "toLocaleString"; "toString"; "valueOf"; "__proto__";
   "__defineGetter__"; "__defineSetter__"; "__lookupGetter__";
   "__lookupSetter__"].

(** [strs.join(sep)] for an array of strings. *)
Fixpoint join (sep : string) (l : list string) : string :=
  match l with
  | [] => ""
  | [x] => x
  | x :: r => x ++ sep ++ join sep r
  end.

End JS.

Import JS.

(** ** customFieldsValidator.js *)

Module CustomFieldsValidator.

(** [{ ...item, customFields: item.customFields || {} }] *)
Definition ensureCustomFields (item : value) : result value :=
  cf <- get item "customFields" ;;
  Ok (VObj (assign "customFields" (if truthy cf then cf else VObj [])
                   (spread item))).

(** The callback of [tasks.map] in [ensureCustomFieldsOnTasks]. *)
Definition ensureCustomFieldsOnTask (task : value) : result value :=
  item <- ensureCustomFields task ;;
  st <- get task "subtasks" ;;
  subtasks <- (if truthy st then call_map st ensureCustomFields
               else Ok (VArr [])) ;;
  Ok (VObj (assign "subtasks" subtasks (spread item))).

Definition ensureCustomFieldsOnTasks (tasks : value) : result value :=
  call_map tasks ensureCustomFieldsOnTask.

End CustomFieldsValidator.

(** ** backwardCompatibility.js *)

Module BackwardCompatibility.

Definition ensureTasksBackwardCompatibility (tasks : value) : result value :=
  CustomFieldsValidator.ensureCustomFieldsOnTasks tasks.

(** [ensureTagDataBackwardCompatibility(tagData)] *)
Definition ensureTagDataBackwardCompatibility (tagData : value)
  : result value :=
  if negb (truthy tagData) then Ok tagData
  else
    tasks <- get tagData "tasks" ;;
    if negb (truthy tasks) then Ok tagData
    else
      tasks' <- ensureTasksBackwardCompatibility tasks ;;
      Ok (VObj (assign "tasks" tasks' (spread tagData))).

(** [migrateLegacyFormatWithCustomFields(legacyData)]; [created] and
    [updated] are the two readings of the clock, [new Date().toISOString()],
    which are taken only when the legacy data has no metadata. *)
Definition migrateLegacyFormatWithCustomFields (created updated : string)
  (legacyData : value) : result value :=
  tasks <- get legacyData "tasks" ;;
  tasksWithCustomFields <- ensureTasksBackwardCompatibility tasks ;;
  metadata <- get legacyData "metadata" ;;
  Ok (VObj
        [("master",
          VObj [("tasks", tasksWithCustomFields);
                ("metadata",
                 if truthy metadata then metadata
                 else VObj [("created", VStr created);
                            ("updated", VStr updated);
                            ("description",
                             VStr "Tasks for master context")])])]).

(** The body of the [for (const tagName in data)] loop of
    [ensureDataBackwardCompatibility]. *)
Definition processTag (processedData : props) (entry : string * value)
  : result props :=
  let '(tagName, v) := entry in
  isTag <- (if typeof_object v then
              tasks <- get v "tasks" ;; Ok (truthy tasks)
            else Ok false) ;;
  if isTag then
    v' <- ensureTagDataBackwardCompatibility v ;;
    Ok (assign tagName v' processedData)
  else Ok (assign tagName v processedData).

(** [ensureDataBackwardCompatibility(data, isLegacyFormat)] *)
Definition ensureDataBackwardCompatibility (created updated : string)
  (data : value) (isLegacyFormat : bool) : result value :=
  if negb (truthy data) then Ok data
  else if isLegacyFormat then
    migrateLegacyFormatWithCustomFields created updated data
  else
    processedData <- foldM processTag [] (spread data) ;;
    Ok (VObj processedData).

(** [hasTaggedStructure(data)] *)
Definition hasTaggedStructure (data : value) : bool :=
  if negb (truthy data) || negb (typeof_object data) then false
  else
    existsb (fun entry : string * value =>
               let v := snd entry in
               truthy v && typeof_object v &&
               match get v "tasks" with
               | Ok tasks => isArray tasks
               | Throw _ => false
               end)
            (spread data).

(** [isLegacyFormat(data)]: [data && Array.isArray(data.tasks) &&
    !data._rawTaggedData && !hasTaggedStructure(data)], which is [data]
    itself when [data] is falsy. *)
Definition isLegacyFormat (data : value) : result value :=
  if negb (truthy data) then Ok data
  else
    tasks <- get data "tasks" ;;
    if negb (isArray tasks) then Ok (VBool false)
    else
      raw <- get data "_rawTaggedData" ;;
      if truthy raw then Ok (VBool false)
      else Ok (VBool (negb (hasTaggedStructure data))).

(** [createBackwardCompatibleResult(tagData, resolvedTag,
    originalTaggedData)] *)
Definition createBackwardCompatibleResult
  (tagData resolvedTag originalTaggedData : value) : result value :=
  compatibleTagData <- ensureTagDataBackwardCompatibility tagData ;;
  Ok (VObj (assign "_rawTaggedData" originalTaggedData
           (assign "tag" resolvedTag (spread compatibleTagData)))).

(** [createMasterFallbackResult(masterData, originalTaggedData)] *)
Definition createMasterFallbackResult (masterData originalTaggedData : value)
  : result value :=
  createBackwardCompatibleResult masterData (VStr "master") originalTaggedData.

End BackwardCompatibility.

(** ** subtaskValidator.js *)

Module SubtaskValidator.

(** The pass counts its migrations in a local variable and writes trace
    lines to the console; both are threaded through the two nested [map]
    callbacks. *)
Record state : Type := mkState {
  migrationsPerformed : Z;
  console : list string
}.

Definition M (A : Type) : Type := state -> result (A * state).

Definition ret {A} (a : A) : M A := fun s => Ok (a, s).

Definition bindM {A B} (m : M A) (k : A -> M B) : M B :=
  fun s =>
    match m s with
    | Ok (a, s') => k a s'
    | Throw e => Throw e
    end.

Definition lift {A} (r : result A) : M A :=
  fun s =>
    match r with
    | Ok a => Ok (a, s)
    | Throw e => Throw e
    end.

Definition count_migration : M unit :=
  fun s => Ok (tt, mkState (migrationsPerformed s + 1) (console s)).

Definition console_log (line : string) : M unit :=
  fun s => Ok (tt, mkState (migrationsPerformed s) (console s ++ [line])%list).

Notation "x <~ c ;; k" := (bindM c (fun x => k))
  (at level 61, c at next level, right associativity).
Notation "c ;;; k" := (bindM c (fun _ => k))
  (at level 61, right associativity).

Fixpoint mapMS {A B} (f : A -> M B) (l : list A) : M (list B) :=
  match l with
  | [] => ret []
  | x :: r => y <~ f x ;; ys <~ mapMS f r ;; ret (y :: ys)
  end.

Section EnsureSubtaskParentIds.

(** [process.env.TASKMASTER_DEBUG === 'true'] *)
Variable debug : bool.
Variable logMigrations : bool.

(** The callback of [task.subtasks.map]. *)
Definition validateSubtask (task subtask : value) : M value :=
  pid <~ lift (get subtask "parentTaskId") ;;
  tid <~ lift (get task "id") ;;
  if negb (truthy pid) || negb (strict_eq pid tid) then
    count_migration ;;;
    (if logMigrations && debug then
       sid <~ lift (get subtask "id") ;;
       console_log ("[DEBUG] Auto-assigned parentTaskId " ++ toString tid ++
                    " to subtask " ++ toString tid ++ "." ++ toString sid)
     else ret tt) ;;;
    ret (VObj (assign "parentTaskId" tid (spread subtask)))
  else ret subtask.

(** The callback of [tasks.map].  The guard [!task.subtasks ||
    !Array.isArray(task.subtasks) || task.subtasks.length === 0] lets through
    a non-empty array only. *)
Definition validateTask (task : value) : M value :=
  st <~ lift (get task "subtasks") ;;
  match st with
  | VArr (s :: r) =>
      subtasks <~ mapMS (validateSubtask task) (s :: r) ;;
      ret (VObj (assign "subtasks" (VArr subtasks) (spread task)))
  | _ => ret task
  end.

(** The body of [ensureSubtaskParentIds]: a value that is not an array is
    returned as it is. *)
Definition ensureSubtaskParentIds_run (tasks : value) : M value :=
  match tasks with
  | VArr l =>
      validatedTasks <~ mapMS validateTask l ;;
      (fun s =>
         if (0 <? migrationsPerformed s) && logMigrations && debug then
           console_log
             ("[DEBUG] Subtask validation: Auto-assigned parentTaskId to " ++
              string_of_Z (migrationsPerformed s) ++ " subtasks") s
         else Ok (tt, s)) ;;;
      ret (VArr validatedTasks)
  | _ => ret tasks
  end.

(** The value returned and the lines written to the console. *)
Definition ensureSubtaskParentIds (tasks : value)
  : result (value * list string) :=
  match ensureSubtaskParentIds_run tasks (mkState 0 []) with
  | Ok (v, s) => Ok (v, console s)
  | Throw e => Throw e
  end.

End EnsureSubtaskParentIds.

(** [arr.push(x)] on a local array. *)
Definition push {A} (l : list A) (x : A) : list A := (l ++ [x])%list.

Record validation : Type := mkValidation {
  v_tasks : value;
  v_issues : list string;
  isValid : bool
}.

(** The callback of the inner [forEach] of [validateSubtaskStructure]; the
    accumulator holds the issues so far and the set of subtask ids seen
    under the current parent. *)
Definition checkSubtask (task : value) (acc : list string * list value)
  (subtaskIndex : nat) (subtask : value) : result (list string * list value) :=
  let '(issues, subtaskIds) := acc in
  sid <- get subtask "id" ;;
  tid <- get task "id" ;;
  let issues :=
    if negb (truthy sid) then
      push issues ("Task " ++ toString tid ++ ": Subtask at index " ++
                   decimal (Z.of_nat subtaskIndex) ++ " missing id")
    else issues in
  pid <- get subtask "parentTaskId" ;;
  let issues :=
    if negb (truthy pid) then
      push issues ("Task " ++ toString tid ++ ": Subtask " ++ toString sid ++
                   " missing parentTaskId")
    else if negb (strict_eq pid tid) then
      push issues ("Task " ++ toString tid ++ ": Subtask " ++ toString sid ++
                   " has incorrect parentTaskId (" ++ toString pid ++ ")")
    else issues in
  let '(issues, subtaskIds) :=
    if truthy sid then
      if existsb (strict_eq sid) subtaskIds then
        (push issues ("Task " ++ toString tid ++ ": Duplicate subtask ID " ++
                      toString sid), subtaskIds)
      else (issues, push subtaskIds sid)
    else (issues, subtaskIds) in
  title <- get subtask "title" ;;
  let issues :=
    if negb (truthy title) then
      push issues ("Task " ++ toString tid ++ ": Subtask " ++ toString sid ++
                   " missing title")
    else issues in
  Ok (issues, subtaskIds).

Fixpoint checkSubtasks (task : value) (acc : list string * list value)
  (i : nat) (l : list value) : result (list string * list value) :=
  match l with
  | [] => Ok acc
  | s :: r => acc' <- checkSubtask task acc i s ;; checkSubtasks task acc' (S i) r
  end.

(** The callback of the outer [forEach]: a task whose [subtasks] is falsy
    or not an array is skipped. *)
Definition checkTask (issues : list string) (task : value)
  : result (list string) :=
  st <- get task "subtasks" ;;
  match st with
  | VArr l => acc <- checkSubtasks task (issues, []) 0 l ;; Ok (fst acc)
  | _ => Ok issues
  end.

Fixpoint checkTasks (issues : list string) (l : list value)
  : result (list string) :=
  match l with
  | [] => Ok issues
  | t :: r => issues' <- checkTask issues t ;; checkTasks issues' r
  end.

(** [validateSubtaskStructure(tasks, { fixIssues, logMigrations })]; the
    second component is what the call wrote to the console.  After a fix the
    [parentTaskId] of a subtask is the very value of the task's [id]; the scan
    compares them with [strict_eq], which is exact for ids that are numbers or
    strings. *)
Definition validateSubtaskStructure (debug : bool) (tasks : value)
  (fixIssues logMigrations : bool) : result (validation * list string) :=
  match tasks with
  | VArr _ =>
      fixed <-
        (if fixIssues then ensureSubtaskParentIds debug logMigrations tasks
         else Ok (tasks, [])) ;;
      let '(validatedTasks, out) := fixed in
      match validatedTasks with
      | VArr l =>
          issues <- checkTasks [] l ;;
          Ok (mkValidation validatedTasks issues
                (Nat.eqb (List.length issues) 0), out)
      | _ => Throw TypeError
      end
  | _ => Ok (mkValidation tasks ["Tasks must be an array"] false, [])
  end.

(** The callback of the inner [forEach] of [findOrphanedSubtasks]. *)
Definition orphanCheck (taskIds : list value) (task : value)
  (orphanedSubtasks : list value) (subtask : value) : result (list value) :=
  pid <- get subtask "parentTaskId" ;;
  if truthy pid && negb (existsb (strict_eq pid) taskIds) then
    tid <- get task "id" ;;
    Ok (push orphanedSubtasks
          (VObj (assign "context"
                   (VStr ("Found in task " ++ toString tid ++
                          " but references non-existent parent " ++
                          toString pid))
                (assign "invalidParentId" pid
                (assign "actualParentId" tid (spread subtask))))))
  else Ok orphanedSubtasks.

(** The callback of the outer [forEach] of [findOrphanedSubtasks]. *)
Definition orphanTask (taskIds : list value) (orphanedSubtasks : list value)
  (task : value) : result (list value) :=
  st <- get task "subtasks" ;;
  match st with
  | VArr l => foldM (orphanCheck taskIds task) orphanedSubtasks l
  | _ => Ok orphanedSubtasks
  end.

(** [findOrphanedSubtasks]; [taskIds] is the [Set] of the task ids. *)
Definition findOrphanedSubtasks (tasks : value) : result (list value) :=
  match tasks with
  | VArr l =>
      taskIds <- mapM (fun task => get task "id") l ;;
      foldM (orphanTask taskIds) [] l
  | _ => Ok []
  end.

Record counters : Type := mkCounters {
  c_totalSubtasks : Z;
  c_tasksWithSubtasks : Z;
  c_subtasksWithIssues : Z
}.

(** The callback of the inner [forEach] of [createSubtaskIntegrityReport]. *)
Definition countIssue (task : value) (n : Z) (subtask : value) : result Z :=
  pid <- get subtask "parentTaskId" ;;
  tid <- get task "id" ;;
  Ok (if negb (truthy pid) || negb (strict_eq pid tid) then n + 1 else n).

(** The callback of the outer [forEach]: only a non-empty [subtasks] array
    is counted. *)
Definition countTask (c : counters) (task : value) : result counters :=
  st <- get task "subtasks" ;;
  match st with
  | VArr (s :: r) =>
      n <- foldM (countIssue task) (c_subtasksWithIssues c) (s :: r) ;;
      Ok (mkCounters (c_totalSubtasks c + Z.of_nat (List.length (s :: r)))
                     (c_tasksWithSubtasks c + 1) n)
  | _ => Ok c
  end.

Record summary : Type := mkSummary {
  totalTasks : Z;
  tasksWithSubtasks : Z;
  totalSubtasks : Z;
  subtasksWithIssues : Z;
  orphanedSubtasksCount : Z;
  integrityScore : option string
}.

Record report : Type := mkReport {
  r_summary : summary;
  r_issues : list string;
  orphanedSubtasks : list value;
  isHealthy : bool
}.

(** [totalSubtasks > 0 ? ((totalSubtasks - subtasksWithIssues) /
    totalSubtasks * 100).toFixed(1) + '%' : '100%'].  [None] stands for the
    rendering of a value of at least 10^21, see [toFixed]. *)
Definition score (total issues : Z) : option string :=
  if 0 <? total then
    option_map (fun s => s ++ "%")
      (toFixed (num_mul (num_div (num_sub (number_of_Z total)
                                          (number_of_Z issues))
                                 (number_of_Z total))
                        (number_of_Z 100)) 1)
  else Some "100%".

(** [createSubtaskIntegrityReport]; [tasks.forEach] throws when [tasks] is
    not an array. *)
Definition createSubtaskIntegrityReport (debug : bool) (tasks : value)
  : result report :=
  validated <- validateSubtaskStructure debug tasks false false ;;
  let validation := fst validated in
  orphaned <- findOrphanedSubtasks tasks ;;
  match tasks with
  | VArr l =>
      c <- foldM countTask (mkCounters 0 0 0) l ;;
      Ok (mkReport
            (mkSummary (Z.of_nat (List.length l)) (c_tasksWithSubtasks c)
               (c_totalSubtasks c) (c_subtasksWithIssues c)
               (Z.of_nat (List.length orphaned))
               (score (c_totalSubtasks c) (c_subtasksWithIssues c)))
            (v_issues validation) orphaned
            (isValid validation && Nat.eqb (List.length orphaned) 0))
  | _ => Throw TypeError
  end.

End SubtaskValidator.

(** ** queryTranslator.js, the copy under [scripts/modules/utils] *)

Module QueryTranslator.

Definition CORE_FIELDS : list string :=
  ["id"; "title"; "description"; "details"; "testStrategy";
   "status"; "priority"; "dependencies"; "subtasks"; "customFields";
   "file"; "projectRoot"; "tag"; "withSubtasks"; "complexityReport"].

Record filters : Type := mkFilters {
  coreFields : props;
  customFields : props
}.

(** [Object.entries(v)] *)
Definition entries (v : value) : result props :=
  if nullish v then Throw TypeError else Ok (spread v).

(** The callback of [Object.entries(params).forEach].  The assignment
    [translated.customFields[key] = value] with the key [__proto__] runs the
    setter of [Object.prototype]: it stores no property, so no filter. *)
Definition route (translated : filters) (kv : string * value) : filters :=
  let '(key, value) := kv in
  if str_mem key CORE_FIELDS then
    mkFilters (assign key value (coreFields translated))
              (customFields translated)
  else if (key =? "__proto__")%string then translated
  else
    mkFilters (coreFields translated)
              (assign key value (customFields translated)).

Definition translateQueryParameters (params : value) : result filters :=
  es <- entries params ;;
  Ok (fold_left route es (mkFilters [] [])).

(** [value.split(',').map(s => s.trim())]; only a string has [split]. *)
Definition splitTrim (value : value) : result (list string) :=
  match value with
  | VStr s => Ok (map trim (split_comma s))
  | _ => Throw TypeError
  end.

(** [list.includes(x)] for a list of strings and any [x]. *)
Definition includes_value (l : list string) (x : value) : bool :=
  match x with
  | VStr s => str_mem s l
  | _ => false
  end.

(** [task[field] === value || (task[field] && task[field].toString().includes(value))] *)
Definition genericMatch (field : string) (value task : JS.value)
  : result bool :=
  tf <- get task field ;;
  if strict_eq tf value then Ok true
  else if truthy tf then
    s <- call_toString tf ;; Ok (includes s (toString value))
  else Ok false.

(** The callback of [results.filter] for one core field. *)
Definition coreMatch (field : string) (value task : JS.value) : result bool :=
  comma <- (if (field =? "status")%string then call_includes value (VStr ",")
            else Ok false) ;;
  if comma then
    statuses <- splitTrim value ;;
    tf <- get task field ;;
    Ok (includes_value statuses tf)
  else genericMatch field value task.

(** The callback of [results.filter] for one custom field. *)
Definition customMatch (field : string) (value task : JS.value)
  : result bool :=
  cf <- get task "customFields" ;;
  if negb (truthy cf) then Ok false
  else
    x <- get cf field ;;
    if negb (truthy x) then Ok false
    else
      comma <- call_includes value (VStr ",") ;;
      if comma then
        values <- splitTrim value ;;
        Ok (includes_value values x)
      else if strict_eq x value then Ok true
      else call_includes x value.

(** [[...tasks]] *)
Definition spread_iterable (v : value) : result (list value) :=
  match v with
  | VArr l => Ok l
  | VStr s => Ok (chars s)
  | _ => Throw TypeError
  end.

(** One round of [results = results.filter(...)] per entry, in order. *)
Fixpoint applyFilters (m : string -> value -> value -> result bool)
  (es : props) (results : list value) : result (list value) :=
  match es with
  | [] => Ok results
  | (field, value) :: r =>
      results' <- filterM (m field value) results ;;
      applyFilters m r results'
  end.

Definition filterTasks (tasks : value) (f : filters) : result (list value) :=
  results <- spread_iterable tasks ;;
  results <- applyFilters coreMatch (coreFields f) results ;;
  applyFilters customMatch (customFields f) results.

Definition queryTasks (tasks params : value) : result (list value) :=
  f <- translateQueryParameters params ;;
  filterTasks tasks f.

(** *** Field names: validation and suggestions *)

Definition RESERVED_FIELD_NAMES : list string :=
  ["id"; "title"; "description"; "details"; "testStrategy";
   "status"; "priority"; "dependencies"; "subtasks"; "customFields"].

Definition is_letter (c : ascii) : bool :=
  let n := nat_of_ascii c in
  ((65 <=? n) && (n <=? 90) || (97 <=? n) && (n <=? 122))%nat.

Definition is_digit (c : ascii) : bool :=
  let n := nat_of_ascii c in ((48 <=? n) && (n <=? 57))%nat.

(** [[a-zA-Z_-]] *)
Definition is_name_start (c : ascii) : bool :=
  is_letter c || (c =? "_")%char || (c =? "-")%char.

(** [[a-zA-Z0-9_-]] *)
Definition is_name_char (c : ascii) : bool :=
  is_name_start c || is_digit c.

Fixpoint all_chars (p : ascii -> bool) (s : string) : bool :=
  match s with
  | EmptyString => true
  | String c r => p c && all_chars p r
  end.

(** [/^[a-zA-Z_-][a-zA-Z0-9_-]*$/.test(fieldName)] *)
Definition fieldNameRegex_test (fieldName : string) : bool :=
  match fieldName with
  | EmptyString => false
  | String c r => is_name_start c && all_chars is_name_char r
  end.

(** The object [validateFieldName] returns: [{ valid: true }] or
    [{ valid: false, reason, suggestion }]. *)
Inductive nameCheck : Type :=
| Valid
| Invalid (reason suggestion : string).

Definition formatSuggestion : string :=
  "Field names must start with a letter, underscore, or hyphen, and contain only letters, numbers, underscores, and hyphens".

(** [validateFieldName(fieldName)], for a property name. *)
Definition validateFieldName (fieldName : string) : nameCheck :=
  if str_mem fieldName RESERVED_FIELD_NAMES then
    Invalid "reserved"
      ("Use a different name, '" ++ fieldName ++ "' is a reserved field")
  else if negb (fieldNameRegex_test fieldName) then
    Invalid "format" formatSuggestion
  else Valid.

(** [matrix[0][j] = j] for [j] from 0 to [a.length]. *)
Definition firstRow (a : string) : list nat := seq 0 (S (String.length a)).

(** The inner loop over [j] for one [i]: [prev] holds
    [matrix[i-1][j-1], matrix[i-1][j], ...] and [left] is [matrix[i][j-1]];
    the result is [matrix[i][j], matrix[i][j+1], ...]. *)
Fixpoint fillRow (bc : ascii) (a : string) (prev : list nat) (left : nat)
  : list nat :=
  match a, prev with
  | String ac a', diag :: ((up :: _) as prev') =>
      let cur :=
        if (bc =? ac)%char then diag
        else Nat.min (diag + 1) (Nat.min (left + 1) (up + 1)) in
      cur :: fillRow bc a' prev' cur
  | _, _ => []
  end.

(** Row [i]: [matrix[i] = [i]], then the inner loop. *)
Definition nextRow (bc : ascii) (a : string) (prev : list nat) (i : nat)
  : list nat :=
  i :: fillRow bc a prev i.

(** The outer loop over [i]; [b] is what is left of the second string. *)
Fixpoint lastRow (b a : string) (prev : list nat) (i : nat) : list nat :=
  match b with
  | EmptyString => prev
  | String bc b' => lastRow b' a (nextRow bc a prev i) (S i)
  end.

(** [levenshteinDistance(a, b)]: [matrix[b.length][a.length]]. *)
Definition levenshteinDistance (a b : string) : nat :=
  last (lastRow b a (firstRow a) 1) 0%nat.

(** [arr.find(p)] followed by the test [if (match)]: the first element that
    satisfies [p], unless it is the empty string. *)
Definition findTruthy (p : string -> bool) (l : list string) : option string :=
  match find p l with
  | Some s => if (s =? "")%string then None else Some s
  | None => None
  end.

(** [arr.sort((a, b) => a.distance - b.distance)], which is stable: the
    elements are inserted from the last to the first, each one in front of
    the elements that are not nearer than it. *)
Fixpoint insertByDistance (x : string * nat) (l : list (string * nat))
  : list (string * nat) :=
  match l with
  | [] => [x]
  | y :: r =>
      if (snd x <=? snd y)%nat then x :: y :: r
      else y :: insertByDistance x r
  end.

Definition sortByDistance (l : list (string * nat)) : list (string * nat) :=
  fold_right insertByDistance [] l.

(** [suggestFieldName(input, availableFields)]; [None] is [null]. *)
Definition suggestFieldName (input : string) (availableFields : list string)
  : option string :=
  let lowercaseInput := toLowerCase input in
  match findTruthy (fun f => (toLowerCase f =? lowercaseInput)%string)
                   availableFields with
  | Some exactMatch => Some exactMatch
  | None =>
  match findTruthy (fun f => prefix lowercaseInput (toLowerCase f))
                   availableFields with
  | Some prefixMatch => Some prefixMatch
  | None =>
  match findTruthy (fun f => includes (toLowerCase f) lowercaseInput)
                   availableFields with
  | Some containsMatch => Some containsMatch
  | None =>
      match sortByDistance
              (filter (fun fd => (snd fd <=? 2)%nat)
                 (map (fun f => (f, levenshteinDistance lowercaseInput
                                      (toLowerCase f)))
                      availableFields)) with
      | closeMatch :: _ => Some (fst closeMatch)
      | [] => None
      end
  end end end.

Record queryValidation : Type := mkQueryValidation {
  q_valid : bool;
  q_errors : list string;
  q_warnings : list string;
  q_suggestions : list string
}.

(** The callback of [Object.keys(customFields).forEach] in
    [validateQueryParameters]; the accumulator holds [errors], [warnings] and
    [suggestions]. *)
Definition checkFieldName (availableCustomFields : list string)
  (acc : list string * list string * list string) (fieldName : string)
  : list string * list string * list string :=
  let '(errors, warnings, suggestions) := acc in
  let push := @SubtaskValidator.push string in
  match validateFieldName fieldName with
  | Invalid reason suggestion =>
      if (reason =? "reserved")%string then
        (push errors ("Field '" ++ fieldName ++
                      "' is reserved and cannot be used as a custom field"),
         warnings, suggestions)
      else
        (push errors ("Invalid field name format: '" ++ fieldName ++ "'. " ++
                      suggestion),
         warnings, suggestions)
  | Valid =>
      if negb (str_mem fieldName availableCustomFields) then
        let notFound :=
          (errors,
           push warnings ("Custom field '" ++ fieldName ++
                          "' not found in any tasks"),
           suggestions) in
        match suggestFieldName fieldName availableCustomFields with
        | Some suggestion =>
            (* [if (suggestion)]: the empty string is no suggestion *)
            if (suggestion =? "")%string then notFound
            else
              (errors,
               push warnings ("Custom field '" ++ fieldName ++ "' not found"),
               push suggestions ("Did you mean '" ++ suggestion ++ "'?"))
        | None => notFound
        end
      else acc
  end.

(** [validateQueryParameters(params, availableCustomFields)] *)
Definition validateQueryParameters (params : value)
  (availableCustomFields : list string) : result queryValidation :=
  f <- translateQueryParameters params ;;
  let '(errors, warnings, suggestions) :=
    fold_left (checkFieldName availableCustomFields)
              (map fst (customFields f)) ([], [], []) in
  Ok (mkQueryValidation (Nat.eqb (List.length errors) 0)
                        errors warnings suggestions).

End QueryTranslator.

(** ** queryTranslator.js, the second copy (its status filter lower-cases) *)

Module QueryTranslatorCI.

Import QueryTranslator.

(** [value.split(',').map(s => s.trim().toLowerCase())] *)
Definition splitTrimLower (value : value) : result (list string) :=
  match value with
  | VStr s => Ok (map (fun p => toLowerCase (trim p)) (split_comma s))
  | _ => Throw TypeError
  end.

(** [value.split(',').map(v => v.trim())] *)
Definition splitTrim (value : value) : result (list string) :=
  match value with
  | VStr s => Ok (map trim (split_comma s))
  | _ => Throw TypeError
  end.

(** The callback of [results.filter] for one core field: the two [status]
    branches first, then
    [task[field] === value ||
     (task[field] && task[field].toString().includes(value))]. *)
Definition coreMatch (field : string) (value task : JS.value) : result bool :=
  if (field =? "status")%string then
    comma <- call_includes value (VStr ",") ;;
    if comma then
      statuses <- splitTrimLower value ;;
      tf <- get task field ;;
      st <- call_toLowerCase tf ;;
      Ok (str_mem st statuses)
    else
      tf <- get task field ;;
      st <- call_toLowerCase tf ;;
      v <- call_toLowerCase value ;;
      Ok (st =? v)%string
  else
    tf <- get task field ;;
    if strict_eq tf value then Ok true
    else if truthy tf then
      s <- call_toString tf ;; Ok (includes s (toString value))
    else Ok false.

(** The callback of [results.filter] for one custom field. *)
Definition customMatch (field : string) (value task : JS.value)
  : result bool :=
  cf <- get task "customFields" ;;
  if negb (truthy cf) then Ok false
  else
    x <- get cf field ;;
    if negb (truthy x) then Ok false
    else
      comma <- call_includes value (VStr ",") ;;
      if comma then
        values <- splitTrim value ;;
        Ok (includes_value values x)
      else if strict_eq x value then Ok true
      else call_includes x value.

Definition filterTasks (tasks : value) (f : filters) : result (list value) :=
  results <- spread_iterable tasks ;;
  results <- applyFilters coreMatch (coreFields f) results ;;
  applyFilters customMatch (customFields f) results.

Definition queryTasks (tasks params : value) : result (list value) :=
  f <- translateQueryParameters params ;;
  filterTasks tasks f.

End QueryTranslatorCI.

(** ** fuzzyTaskSearch.js: the generated search keys *)

Module FuzzyTaskSearch.

Local Open Scope Q_scope.

(** The weights are the decimal literals of the source. *)
Definition FIELD_WEIGHTS : list (string * Q) :=
  [("title", 2 # 1); ("description", 3 # 2); ("details", 1 # 1);
   ("dependencyTitles", 1 # 2);
   ("epic", 9 # 5); ("component", 3 # 2); ("taskType", 8 # 5);
   ("assignee", 6 # 5); ("sprint", 7 # 5);
   ("default", 1 # 1)].

Fixpoint weight_lookup (k : string) (t : list (string * Q)) : option Q :=
  match t with
  | [] => None
  | (k', w) :: r => if (k =? k')%string then Some w else weight_lookup k r
  end.

(** What [getWeightForField] returns: a number of the table, or the member
    of [Object.prototype] of the given name, which is a function or, for
    [__proto__], the prototype itself. *)
Inductive weightValue : Type :=
| WNumber (w : Q)
| WInherited (member : string).

(** [FIELD_WEIGHTS[fieldName] || FIELD_WEIGHTS.default].  The table is a
    plain object: the lookup finds its own entries, none of which is zero,
    and then the members of [Object.prototype], all of which are truthy; the
    default is for the names that are neither. *)
Definition getWeightForField (fieldName : string) : weightValue :=
  match weight_lookup fieldName FIELD_WEIGHTS with
  | Some w => WNumber w
  | None =>
      if str_mem fieldName Object_prototype_names then WInherited fieldName
      else WNumber (1 # 1)
  end.

(** [fieldNames.add(field)] on a [Set], which keeps insertion order. *)
Definition add (fieldNames : list string) (field : string) : list string :=
  if str_mem field fieldNames then fieldNames else (fieldNames ++ [field])%list.

(** [if (item.customFields) Object.keys(item.customFields).forEach(add)] *)
Definition addFieldsOf (fieldNames : list string) (item : value)
  : result (list string) :=
  cf <- get item "customFields" ;;
  Ok (if truthy cf then fold_left add (map fst (spread cf)) fieldNames
      else fieldNames).

(** The callback of [tasks.forEach] in [getCustomFieldNames]. *)
Definition addFieldsOfTask (fieldNames : list string) (task : value)
  : result (list string) :=
  fieldNames <- addFieldsOf fieldNames task ;;
  st <- get task "subtasks" ;;
  if truthy st then
    match st with
    | VArr l => foldM addFieldsOf fieldNames l
    | _ => Throw TypeError
    end
  else Ok fieldNames.

Definition getCustomFieldNames (tasks : value) : result (list string) :=
  match tasks with
  | VArr l => foldM addFieldsOfTask [] l
  | _ => Throw TypeError
  end.

Record key : Type := mkKey {
  name : string;
  weight : weightValue
}.

Definition coreFields : list string :=
  ["title"; "description"; "details"; "dependencyTitles"].

Definition generateSearchKeys (tasks : value) : result (list key) :=
  customFields <- getCustomFieldNames tasks ;;
  Ok (map (fun field => mkKey field (getWeightForField field)) coreFields ++
      map (fun field => mkKey ("customFields." ++ field)
                              (getWeightForField field)) customFields)%list.

(** [\w] *)
Definition is_word_char (c : ascii) : bool :=
  let n := nat_of_ascii c in
  ((65 <=? n) && (n <=? 90) || (97 <=? n) && (n <=? 122) ||
   (48 <=? n) && (n <=? 57) || (n =? 95))%nat.

(** [s.replace(/[^\w\s-]/g, ' ')] *)
Fixpoint replacePunctuation (s : string) : string :=
  match s with
  | EmptyString => EmptyString
  | String c r =>
      String (if is_word_char c || is_space c || (c =? "-")%char then c
              else " "%char)
             (replacePunctuation r)
  end.

(** [s.split(/\s+/)]: [cur] is the part being read, [inSpace] tells that the
    previous code unit was white space. *)
Fixpoint splitSpaces_aux (s cur : string) (inSpace : bool) : list string :=
  match s with
  | EmptyString => [cur]
  | String c r =>
      if is_space c then
        if inSpace then splitSpaces_aux r "" true
        else cur :: splitSpaces_aux r "" true
      else splitSpaces_aux r (cur ++ String c "") false
  end.

Definition splitSpaces (s : string) : list string :=
  splitSpaces_aux s "" false.

(** [_extractPromptWords(prompt)] *)
Definition extractPromptWords (prompt : string) : list string :=
  filter (fun word => (3 <? String.length word)%nat)
         (splitSpaces (replacePunctuation (toLowerCase prompt))).

End FuzzyTaskSearch.

(** ** customFieldsValidator.js: field names and their discovery *)

Module CustomFieldsNames.

(** The reserved names of this module: those of the query translator and
    [parentTaskId]. *)
Definition RESERVED_FIELD_NAMES : list string :=
  ["id"; "title"; "description"; "details"; "testStrategy";
   "status"; "priority"; "dependencies"; "subtasks"; "customFields";
   "parentTaskId"].

(** [FIELD_NAME_REGEX.test(fieldName)], the same expression as in the query
    translator. *)
Definition FIELD_NAME_REGEX_test (fieldName : string) : bool :=
  QueryTranslator.fieldNameRegex_test fieldName.

Record namesValidation : Type := mkNamesValidation {
  n_isValid : bool;
  reservedErrors : list string;
  formatErrors : list string;
  errorMessage : string
}.

(** The callback of [fieldNames.forEach] in [validateCustomFieldNames]. *)
Definition checkName (acc : list string * list string) (fieldName : string)
  : list string * list string :=
  let '(reserved, format) := acc in
  let reserved :=
    if str_mem fieldName RESERVED_FIELD_NAMES
    then SubtaskValidator.push reserved fieldName else reserved in
  let format :=
    if negb (FIELD_NAME_REGEX_test fieldName)
    then SubtaskValidator.push format fieldName else format in
  (reserved, format).

(** [validateCustomFieldNames(customFields)] *)
Definition validateCustomFieldNames (customFields : value)
  : result namesValidation :=
  es <- QueryTranslator.entries customFields ;;
  let '(reserved, format) := fold_left checkName (map fst es) ([], []) in
  let isValid :=
    Nat.eqb (List.length reserved) 0 && Nat.eqb (List.length format) 0 in
  let reservedMessage :=
    "Invalid custom field names (reserved): " ++ join ", " reserved in
  let formatMessage :=
    "Invalid custom field name format: " ++ join ", " format ++
    ". Field names must start with a letter, underscore, or hyphen, and contain only letters, numbers, underscores, and hyphens." in
  let errors :=
    ((if (0 <? List.length reserved)%nat then [reservedMessage] else []) ++
     (if (0 <? List.length format)%nat then [formatMessage] else []))%list in
  Ok (mkNamesValidation isValid reserved format
        (if isValid then "" else join "; " errors)).

(** [hasCustomFields(obj)], as a condition. *)
Definition hasCustomFields (obj : value) : bool :=
  truthy obj && typeof_object obj &&
  match get obj "customFields" with
  | Ok cf => typeof_object cf
  | Throw _ => false
  end.

(** [if (hasCustomFields(item))
      Object.keys(item.customFields).forEach(field => fieldNames.add(field))] *)
Definition addFieldsOf (fieldNames : list string) (item : value)
  : result (list string) :=
  if hasCustomFields item then
    cf <- get item "customFields" ;;
    es <- QueryTranslator.entries cf ;;
    Ok (fold_left FuzzyTaskSearch.add (map fst es) fieldNames)
  else Ok fieldNames.

(** The callback of [tasks.forEach] in [extractCustomFieldNames]. *)
Definition addFieldsOfTask (fieldNames : list string) (task : value)
  : result (list string) :=
  fieldNames <- addFieldsOf fieldNames task ;;
  st <- get task "subtasks" ;;
  if truthy st then
    match st with
    | VArr l => foldM addFieldsOf fieldNames l
    | _ => Throw TypeError
    end
  else Ok fieldNames.

(** [extractCustomFieldNames(tasks)] *)
Definition extractCustomFieldNames (tasks : value) : result (list string) :=
  match tasks with
  | VArr l => foldM addFieldsOfTask [] l
  | _ => Throw TypeError
  end.

(** [fieldCounts.get(field)] on the [Map] of usage counts, which keeps its
    entries in insertion order. *)
Fixpoint getCount (field : string) (fieldCounts : list (string * Z))
  : option Z :=
  match fieldCounts with
  | [] => None
  | (k, n) :: r => if (field =? k)%string then Some n else getCount field r
  end.

(** [fieldCounts.set(field, n)]: a present key keeps its place, a new key
    goes last. *)
Fixpoint setCount (field : string) (n : Z) (fieldCounts : list (string * Z))
  : list (string * Z) :=
  match fieldCounts with
  | [] => [(field, n)]
  | (k, m) :: r =>
      if (field =? k)%string then (k, n) :: r
      else (k, m) :: setCount field n r
  end.

(** [fieldCounts.set(field, (fieldCounts.get(field) || 0) + 1)] *)
Definition bump (fieldCounts : list (string * Z)) (field : string)
  : list (string * Z) :=
  let old :=
    match getCount field fieldCounts with
    | Some n => if n =? 0 then 0 else n
    | None => 0
    end in
  setCount field (old + 1) fieldCounts.

(** [if (hasCustomFields(item) && Object.keys(item.customFields).length > 0)
      { n++; Object.keys(item.customFields).forEach(bump) }] *)
Definition countFieldsOf (acc : list (string * Z) * Z) (item : value)
  : result (list (string * Z) * Z) :=
  let '(fieldCounts, n) := acc in
  if hasCustomFields item then
    cf <- get item "customFields" ;;
    es <- QueryTranslator.entries cf ;;
    if (0 <? List.length es)%nat
    then Ok (fold_left bump (map fst es) fieldCounts, n + 1)
    else Ok acc
  else Ok acc.

(** The state of [createCustomFieldsSummary]: the usage counts and the two
    counters. *)
Record usage : Type := mkUsage {
  u_fieldCounts : list (string * Z);
  u_tasksWithCustomFields : Z;
  u_subtasksWithCustomFields : Z
}.

(** The callback of [tasks.forEach] in [createCustomFieldsSummary]. *)
Definition summarizeTask (u : usage) (task : value) : result usage :=
  r <- countFieldsOf (u_fieldCounts u, u_tasksWithCustomFields u) task ;;
  let '(fieldCounts, tasksWith) := r in
  st <- get task "subtasks" ;;
  if truthy st then
    match st with
    | VArr l =>
        r <- foldM countFieldsOf
               (fieldCounts, u_subtasksWithCustomFields u) l ;;
        Ok (mkUsage (fst r) tasksWith (snd r))
    | _ => Throw TypeError
    end
  else Ok (mkUsage fieldCounts tasksWith (u_subtasksWithCustomFields u)).

(** [entries.reduce((a, b) => a[1] > b[1] ? a : b)[0]], or [null] without
    entries. *)
Definition mostUsed (fieldCounts : list (string * Z)) : option string :=
  match fieldCounts with
  | [] => None
  | e :: r =>
      Some (fst (fold_left (fun a b => if snd b <? snd a then a else b) r e))
  end.

(** The object [createCustomFieldsSummary] returns.  [fieldUsageCounts]
    holds the entries the object of that name is built from. *)
Record fieldsSummary : Type := mkFieldsSummary {
  s_totalTasks : Z;
  s_tasksWithCustomFields : Z;
  s_subtasksWithCustomFields : Z;
  uniqueFieldNames : list string;
  fieldUsageCounts : list (string * Z);
  mostUsedField : option string
}.

(** [createCustomFieldsSummary(tasks)] *)
Definition createCustomFieldsSummary (tasks : value) : result fieldsSummary :=
  match tasks with
  | VArr l =>
      u <- foldM summarizeTask (mkUsage [] 0 0) l ;;
      Ok (mkFieldsSummary (Z.of_nat (List.length l))
            (u_tasksWithCustomFields u) (u_subtasksWithCustomFields u)
            (map fst (u_fieldCounts u)) (u_fieldCounts u)
            (mostUsed (u_fieldCounts u)))
  | _ => Throw TypeError
  end.

End CustomFieldsNames.

(** ** Inputs used as examples, taken from the test suites *)

Module Examples.

Definition num (n : Z) : value := VNum n.
Definition str (s : string) : value := VStr s.

(** [[{id:1,title:"T1",subtasks:[{id:1,title:"S1"},
      {id:2,title:"S2",parentTaskId:999}]}]] *)
Definition legacySub1 : value :=
  VObj [("id", num 1); ("title", str "S1")].
Definition legacySub2 : value :=
  VObj [("id", num 2); ("title", str "S2"); ("parentTaskId", num 999)].
Definition legacyTask : value :=
  VObj [("id", num 1); ("title", str "T1");
        ("subtasks", VArr [legacySub1; legacySub2])].
Definition legacyTasks : value := VArr [legacyTask].

(** Tasks with an empty, a [null] and an absent [subtasks]. *)
Definition taskEmptySubtasks : value :=
  VObj [("id", num 1); ("title", str "Task with empty subtasks");
        ("subtasks", VArr [])].
Definition taskNullSubtasks : value :=
  VObj [("id", num 2); ("title", str "Task with null subtasks");
        ("subtasks", VNull)].
Definition taskNoSubtasks : value :=
  VObj [("id", num 3); ("title", str "Task without subtasks property")].
Definition edgeCaseTaskList : list value :=
  [taskEmptySubtasks; taskNullSubtasks; taskNoSubtasks].
Definition edgeCaseTasks : value := VArr edgeCaseTaskList.

(** A task whose [subtasks] array holds a [null] entry. *)
Definition malformedTasks : value :=
  VArr [VObj [("id", num 1); ("title", str "Task with malformed subtasks");
              ("subtasks", VArr [VNull])]].

(** The three tasks of the integrity-report test: four subtasks, two of
    them with a missing or wrong [parentTaskId]. *)
Definition reportTaskList : list value :=
       [VObj [("id", num 1); ("title", str "Task without subtasks")];
        VObj [("id", num 2); ("title", str "Task with good subtasks");
              ("subtasks",
               VArr [VObj [("id", num 1); ("title", str "Good Subtask 1");
                           ("parentTaskId", num 2)];
                     VObj [("id", num 2); ("title", str "Good Subtask 2");
                           ("parentTaskId", num 2)]])];
        VObj [("id", num 3); ("title", str "Task with problematic subtasks");
              ("subtasks",
               VArr [VObj [("id", num 1); ("title", str "Missing parentTaskId")];
                     VObj [("id", num 2); ("title", str "Wrong parentTaskId");
                           ("parentTaskId", num 999)]])]].
Definition reportTasks : value := VArr reportTaskList.

(** Status values in mixed case. *)
Definition taskPending : value :=
  VObj [("id", num 1); ("title", str "Task 1"); ("status", str "Pending")].
Definition taskInProgress : value :=
  VObj [("id", num 2); ("title", str "Task 2"); ("status", str "in-progress")].
Definition statusTasks : value := VArr [taskPending; taskInProgress].

(** A task that has no status. *)
Definition taskNoStatus : value :=
  VObj [("id", num 3); ("title", str "Task 3")].

(** Epic values: two exact ones and one that only contains EPIC-1234. *)
Definition taskEpic1234 : value :=
  VObj [("id", num 1); ("customFields", VObj [("epic", str "EPIC-1234")])].
Definition taskEpic5678 : value :=
  VObj [("id", num 2); ("customFields", VObj [("epic", str "EPIC-5678")])].
Definition taskEpic12345 : value :=
  VObj [("id", num 3); ("customFields", VObj [("epic", str "EPIC-12345")])].
Definition taskNoEpic : value :=
  VObj [("id", num 4); ("customFields", VObj [])].
Definition epicTaskList : list value :=
  [taskEpic1234; taskNoEpic; taskEpic5678; taskEpic12345].
Definition epicSubstringTasks : value := VArr [taskEpic12345].

(** Tasks whose epic, when there is one, is one of the two exact values. *)
Definition epicExactTaskList : list value :=
  [taskEpic1234; taskNoEpic; taskEpic5678].

(** A task whose epic is a number. *)
Definition taskEpicNumber : value :=
  VObj [("id", num 5); ("customFields", VObj [("epic", num 5)])].

Definition epicBoth : value := VObj [("epic", str "EPIC-1234,EPIC-5678")].
Definition epicFirst : value := VObj [("epic", str "EPIC-1234")].
Definition epicSecond : value := VObj [("epic", str "EPIC-5678")].

(** Two tasks without custom fields, and one task with the fifty fields
    [field0 .. field49]. *)
Definition tasksWithoutCustom : list value :=
  [VObj [("id", num 1); ("title", str "Task 1");
         ("description", str "Desc 1"); ("details", str "Details 1")];
   VObj [("id", num 2); ("title", str "Task 2");
         ("description", str "Desc 2"); ("details", str "Details 2")]].

Definition fiftyFields : props :=
  map (fun i => ("field" ++ decimal (Z.of_nat i),
                 str ("value" ++ decimal (Z.of_nat i)))) (seq 0 50).

Definition complexTask : props :=
  [("id", num 1); ("title", str "Complex task");
   ("description", str "Task with many custom fields");
   ("details", str "Testing performance"); ("customFields", VObj [])].

End Examples.

(** ** Shapes of task collections the properties speak about *)

Module Shape.

Definition is_object (v : value) : bool :=
  match v with
  | VObj _ => true
  | _ => false
  end.

(** [v.k], [undefined] included when the read throws. *)
Definition field (k : string) (v : value) : value :=
  match get v k with
  | Ok x => x
  | Throw _ => VUndefined
  end.

(** A well-formed task: an object whose [subtasks] is absent, falsy or an
    array of objects. *)
Definition wellFormedTask (t : value) : bool :=
  is_object t &&
  match field "subtasks" t with
  | VArr ss => forallb is_object ss
  | st => negb (truthy st)
  end.

Definition wellFormed (tasks : value) : bool :=
  match tasks with
  | VArr ts => forallb wellFormedTask ts
  | _ => false
  end.

(** A plain-object task whose [subtasks], when an array, holds plain
    objects. *)
Definition plainTask (t : value) : bool :=
  is_object t &&
  match field "subtasks" t with
  | VArr ss => forallb is_object ss
  | _ => true
  end.

(** An item that already carries a truthy [customFields]. *)
Definition normalized (item : value) : Prop :=
  exists o cf,
    item = VObj o /\ lookup "customFields" o = Some cf /\ truthy cf = true.

(** A task in the shape the normalizer produces. *)
Definition normalizedTask (t : value) : Prop :=
  exists o cf subs,
    t = VObj o /\ lookup "customFields" o = Some cf /\ truthy cf = true /\
    lookup "subtasks" o = Some (VArr subs) /\ Forall normalized subs.

(** The subtask [s'] is [s] up to its [parentTaskId]. *)
Definition sameSubtask (s s' : value) : Prop :=
  forall k, k <> "parentTaskId" -> get s' k = get s k.

(** The task [t'] is [t] up to its [subtasks]: when that is an array, [t']
    has the subtasks of [t] in the same order, each up to its [parentTaskId];
    otherwise [t'] is [t]. *)
Definition sameTask (t t' : value) : Prop :=
  (forall k, k <> "subtasks" -> get t' k = get t k) /\
  match field "subtasks" t with
  | VArr ss =>
      exists ss', get t' "subtasks" = Ok (VArr ss') /\
                  Forall2 sameSubtask ss ss'
  | _ => t' = t
  end.

(** A value compared by content: anything but an object or an array. *)
Definition is_primitive (v : value) : bool :=
  match v with
  | VArr _ | VObj _ => false
  | _ => true
  end.

(** Every subtask found under a task of [ts] names that task as parent: its
    [parentTaskId] is the value of the task's [id]. *)
Definition converged (ts : list value) : Prop :=
  forall t ss s,
    In t ts -> get t "subtasks" = Ok (VArr ss) -> In s ss ->
    get s "parentTaskId" = get t "id".

(** What the inner callback of the parent-id pass returns for an object: the same subtask, with
    [parentTaskId] equal to the id of the task. *)
Definition fixedSub (tid : value) (s s' : value) : Prop :=
  get s' "parentTaskId" = Ok tid /\ sameSubtask s s'.

(** What the outer callback of the parent-id pass returns for a plain-object task. *)
Definition fixedTask (t t' : value) : Prop :=
  (forall k, k <> "subtasks" -> get t' k = get t k) /\
  match field "subtasks" t with
  | VArr ss =>
      exists ss', get t' "subtasks" = Ok (VArr ss') /\
                  Forall2 (fixedSub (field "id" t)) ss ss'
  | _ => t' = t
  end.

(** The subtasks the integrity report counts under a task. *)
Definition subtasksOf (t : value) : list value :=
  match field "subtasks" t with
  | VArr ss => ss
  | _ => []
  end.

(** The subtask has a missing or incorrect [parentTaskId] under [t]. *)
Definition hasIssue (t s : value) : bool :=
  negb (truthy (field "parentTaskId" s)) ||
  negb (strict_eq (field "parentTaskId" s) (field "id" t)).

Definition totalOf (ts : list value) : Z :=
  Z.of_nat (List.length (flat_map subtasksOf ts)).

Definition issuesOf (ts : list value) : Z :=
  Z.of_nat (List.length
              (flat_map (fun t => filter (hasIssue t) (subtasksOf t)) ts)).

(** The property [subtasks] is wholly absent from the task. *)
Definition subtasksAbsent (t : value) : bool :=
  match t with
  | VObj o => match lookup "subtasks" o with None => true | Some _ => false end
  | _ => false
  end.

(** The property [subtasks] is present and [null]. *)
Definition subtasksNull (t : value) : bool :=
  match t with
  | VObj o =>
      match lookup "subtasks" o with Some VNull => true | _ => false end
  | _ => false
  end.

(** An item that contributes no custom field name. *)
Definition noCustomFields (item : value) : bool :=
  is_object item &&
  match field "customFields" item with
  | VObj [] => true
  | cf => negb (truthy cf)
  end.

Definition noCustomTask (t : value) : bool :=
  noCustomFields t &&
  match field "subtasks" t with
  | VArr ss => forallb noCustomFields ss
  | st => negb (truthy st)
  end.

Fixpoint nodupb (l : list string) : bool :=
  match l with
  | [] => true
  | x :: r => negb (str_mem x r) && nodupb r
  end.

(** The task carries the string [v] as its own [customFields.k]. *)
Definition customIs (k v : string) (t : value) : bool :=
  match field k (field "customFields" t) with
  | VStr x => (x =? v)%string
  | _ => false
  end.

(** The value under [customFields.k] is falsy, or a string that contains
    [v] only when it is [v]. *)
Definition containsOnlyAsWhole (k v : string) (t : value) : bool :=
  match field k (field "customFields" t) with
  | VStr x => negb (includes x v) || (x =? v)%string
  | x => negb (truthy x)
  end.

(** The task's status, compared with the filter value as the second copy
    of the query translator does. *)
Definition statusMatches (v : string) (t : value) : bool :=
  match field "status" t with
  | VStr st =>
      if includes v "," then
        str_mem (toLowerCase st)
                (map (fun p => toLowerCase (trim p)) (split_comma v))
      else (toLowerCase st =? toLowerCase v)%string
  | _ => false
  end.

Definition hasStringStatus (t : value) : bool :=
  match field "status" t with
  | VStr _ => true
  | _ => false
  end.

(** A filter value without an [includes] method. *)
Definition lacksIncludes (v : value) : bool :=
  match v with
  | VStr _ | VArr _ => false
  | _ => true
  end.

(** [l] is [l'] with some elements left out, the others in their order. *)
Inductive subseq {A} : list A -> list A -> Prop :=
| subseq_nil : subseq [] []
| subseq_skip x l l' : subseq l l' -> subseq l (x :: l')
| subseq_keep x l l' : subseq l l' -> subseq (x :: l) (x :: l').

(** A filter entry whose value is a string. *)
Definition stringFilter (e : string * string) : string * value :=
  (fst e, VStr (snd e)).

(** What the core-field callback of the first copy of the translator
    computes for a string value, on the field as read. *)
Definition corePred (k v : string) (t : value) : bool :=
  let tf := field k t in
  if (k =? "status")%string && includes v "," then
    QueryTranslator.includes_value (map trim (split_comma v)) tf
  else strict_eq tf (VStr v) || (truthy tf && includes (toString tf) v).

(** What the custom-field callback computes for a string value on a
    string-valued custom field. *)
Definition customPred (k v : string) (t : value) : bool :=
  match field k (field "customFields" t) with
  | VStr x =>
      negb (x =? "")%string &&
      (if includes v "," then str_mem x (map trim (split_comma v))
       else (x =? v)%string || includes x v)
  | _ => false
  end.

(** The value under [customFields.k] is a string or falsy. *)
Definition customTyped (k : string) (t : value) : bool :=
  match field k (field "customFields" t) with
  | VStr _ => true
  | x => negb (truthy x)
  end.

(** The task's [id] is a truthy number or string. *)
Definition hasProperId (t : value) : bool :=
  is_primitive (field "id" t) && truthy (field "id" t).

(** The edit distance between two sequences of code units, by recursion on
    their first elements: a substitution, an insertion or a deletion costs
    one. *)
Fixpoint editDistance (rb : list ascii) : list ascii -> nat :=
  fix inner (ra : list ascii) : nat :=
    match rb, ra with
    | [], _ => List.length ra
    | _, [] => List.length rb
    | x :: rb', y :: ra' =>
        if (x =? y)%char then editDistance rb' ra'
        else Nat.min (editDistance rb' ra' + 1)
                     (Nat.min (inner ra' + 1) (editDistance rb' ra + 1))
    end.

(** The row of the matrix that belongs to the reversed prefix [rb] of the
    second string: the distances from [rb] to the reversed prefixes of the
    first string that extend [ra] by the code units of [a]. *)
Fixpoint rowOf (rb ra : list ascii) (a : string) : list nat :=
  editDistance rb ra ::
  match a with
  | EmptyString => []
  | String c a' => rowOf rb (c :: ra) a'
  end.

(** The subtask is an object that carries [tid] as its own [parentTaskId]. *)
Definition hasParent (tid s : value) : Prop :=
  exists so, s = VObj so /\ lookup "parentTaskId" so = Some tid.

(** The task is an object whose [subtasks], when a non-empty array, holds
    objects that carry the task's [id] as [parentTaskId]. *)
Definition settled (t : value) : Prop :=
  exists o, t = VObj o /\
    match field "subtasks" t with
    | VArr ss => Forall (hasParent (field "id" t)) ss
    | _ => True
    end.

(** An item whose [customFields] the two discovery functions treat alike:
    neither [null] nor a non-empty string. *)
Definition plainCustomFields (item : value) : bool :=
  is_object item &&
  match field "customFields" item with
  | VNull => false
  | VStr s => (s =? "")%string
  | _ => true
  end.

Definition plainCustomTask (t : value) : bool :=
  plainCustomFields t &&
  match field "subtasks" t with
  | VArr ss => forallb plainCustomFields ss
  | st => negb (truthy st)
  end.

(** The keys of [o] are pairwise distinct. *)
Definition distinctKeys (o : props) : bool := nodupb (map fst o).

(** The code units a prompt word is made of: [a-z], [0-9], [_] and [-]. *)
Definition is_prompt_char (c : ascii) : bool :=
  let n := nat_of_ascii c in
  ((97 <=? n) && (n <=? 122) || (48 <=? n) && (n <=? 57) ||
   (n =? 95) || (n =? 45))%nat.

(** The entry's key is one of the translator's core fields. *)
Definition isCore (e : string * value) : bool :=
  str_mem (fst e) QueryTranslator.CORE_FIELDS.

(** The custom-field names of a parameter object, in order: the keys that
    are no core field. *)
Definition customKeys (es : props) : list string :=
  filter (fun k => negb (str_mem k QueryTranslator.CORE_FIELDS)) (map fst es).

(** The error the query validation reports for an ill-formed field name. *)
Definition formatError (k : string) : string :=
  "Invalid field name format: '" ++ k ++ "'. " ++
  QueryTranslator.formatSuggestion.

(** The subtask names a parent that is none of [ids]. *)
Definition isOrphan (ids : list value) (s : value) : bool :=
  truthy (field "parentTaskId" s) &&
  negb (existsb (strict_eq (field "parentTaskId" s)) ids).

(** The number of subtasks of [ts] whose parent is not the id of a task of
    [all]. *)
Definition orphansOf (all ts : list value) : Z :=
  Z.of_nat (List.length
              (flat_map (fun t => filter (isOrphan (map (field "id") all))
                                         (subtasksOf t)) ts)).

(** The custom field names an item contributes to the search keys. *)
Definition customKeysOf (item : value) : list string :=
  if truthy (field "customFields" item)
  then map fst (spread (field "customFields" item)) else [].

(** The tasks of a list, each followed by its subtasks. *)
Definition itemsOf (ts : list value) : list value :=
  flat_map (fun t => t :: subtasksOf t) ts.

(** [r] is [item] with [customFields] made an object: a truthy
    [customFields] is kept, any other becomes [{}]; every other property
    reads as before. *)
Definition keptItem (item r : value) : Prop :=
  (forall k, k <> "customFields" -> get r k = get item k) /\
  get r "customFields"
  = Ok (if truthy (field "customFields" item)
        then field "customFields" item else VObj []).

(** The same for a task, whose subtasks are kept one by one. *)
Definition keptTask (t r : value) : Prop :=
  (forall k, k <> "customFields" -> k <> "subtasks" -> get r k = get t k) /\
  get r "customFields"
  = Ok (if truthy (field "customFields" t)
        then field "customFields" t else VObj []) /\
  exists ss', get r "subtasks" = Ok (VArr ss') /\
              Forall2 keptItem (subtasksOf t) ss'.

(** No core filter is on [status]. *)
Definition noStatusFilter (f : QueryTranslator.filters) : bool :=
  forallb (fun e : string * value => negb (fst e =? "status")%string)
          (QueryTranslator.coreFields f).

(** Usage counts with pairwise distinct names and positive counts. *)
Definition countsOk (fc : list (string * Z)) : Prop :=
  NoDup (map fst fc) /\ Forall (fun e => 1 <= snd e) fc.

(** Counts and counters that fit together: no name is counted exactly when
    no task and no subtask has been counted. *)
Definition usageOk (fc : list (string * Z)) (tasksWith subtasksWith : Z)
  : Prop :=
  countsOk fc /\ 0 <= tasksWith /\ 0 <= subtasksWith /\
  (fc = [] <-> tasksWith + subtasksWith = 0).

(** The keys of [o] are pairwise distinct and none is [__proto__], whose
    assignment [obj[key] = value] sets the prototype instead of a property. *)
Definition ordinaryKeys (o : props) : bool :=
  distinctKeys o && negb (str_mem "__proto__" (map fst o)).

(** The names every object inherits from [Object.prototype]. *)
Definition inheritedNames : list string := Object_prototype_names.

(** A name that a plain object can only have as a property of its own. *)
Definition ownName (k : string) : bool := negb (str_mem k inheritedNames).

(** A task that is a plain object whose [customFields] is a plain object or
    falsy. *)
Definition plainFilterTask (t : value) : bool :=
  is_object t &&
  (is_object (field "customFields" t) ||
   negb (truthy (field "customFields" t))).

(** The [id] of the task and the [id] of each of its subtasks are primitive
    values, which a template literal prints without a call into the value. *)
Definition primitiveIds (t : value) : bool :=
  is_primitive (field "id" t) &&
  forallb (fun s => is_primitive (field "id" s)) (subtasksOf t).

(** The same, and the [parentTaskId] of each subtask as well: the values the
    issue lines and the orphan contexts print. *)
Definition primitiveRefs (t : value) : bool :=
  primitiveIds t &&
  forallb (fun s => is_primitive (field "parentTaskId" s)) (subtasksOf t).

(** A value that [toString] prints as JavaScript does: an integer below 2^53
    in absolute value, an object without a [toString] of its own, an array
    of such values, or any other primitive. *)
Fixpoint printable (v : value) : bool :=
  match v with
  | VNum n => Z.abs n <? 2 ^ 53
  | VArr l => forallb printable l
  | VObj o => match lookup "toString" o with None => true | Some _ => false end
  | _ => true
  end.

(** The value under [customFields.k] is falsy, a string or an array: the
    values on which the single-value path of the custom filter can call
    [includes]. *)
Definition canInclude (k : string) (t : value) : bool :=
  match field k (field "customFields" t) with
  | VStr _ | VArr _ => true
  | x => negb (truthy x)
  end.

End Shape.

Import Shape.

(** ** The statements of the specification that the code does not meet,
    written out so that they can be tested on an input *)

Module AsStated.

(** "A task whose subtasks property is wholly absent is passed through with
    subtasks still absent", for the tasks of one list. *)
Definition absentSubtasksStayAbsent (ts : list value) : Prop :=
  forall rs,
    CustomFieldsValidator.ensureCustomFieldsOnTasks (VArr ts) = Ok (VArr rs) ->
    Forall2 (fun t r => subtasksAbsent t = true -> subtasksAbsent r = true)
            ts rs.

(** "filter(tasks, translate({epic:"EPIC-1234,EPIC-5678"})) returns exactly
    the union of the two single-value filters", for one task list. *)
Definition commaIsUnion (tasks : value) : Prop :=
  exists l l1 l2,
    QueryTranslator.queryTasks tasks Examples.epicBoth = Ok l /\
    QueryTranslator.queryTasks tasks Examples.epicFirst = Ok l1 /\
    QueryTranslator.queryTasks tasks Examples.epicSecond = Ok l2 /\
    forall t, In t l <-> In t l1 \/ In t l2.

(** "A task set containing no custom fields yields exactly 3 keys". *)
Definition threeKeysWithoutCustomFields (ts : list value) : Prop :=
  forallb noCustomTask ts = true ->
  exists ks,
    FuzzyTaskSearch.generateSearchKeys (VArr ts) = Ok ks /\
    List.length ks = 3%nat.

End AsStated.

(** * Properties *)

(** ** Auxiliary facts on the primitives *)

Section Primitives.

Lemma bind_Ok {A B} (r : result A) (k : A -> result B) (b : B) :
  bind r k = Ok b -> exists a, r = Ok a /\ k a = Ok b.
Proof.
  destruct r as [a|e]; simpl; intros H; [eauto | discriminate].
Qed.

Lemma error_unique (e : error) : e = TypeError.
Proof. now destruct e. Qed.

Lemma lookup_assign_same k v o : lookup k (assign k v o) = Some v.
Proof.
  induction o as [|[k' v'] o IH]; simpl.
  - now rewrite String.eqb_refl.
  - destruct (k =? k')%string eqn:E; simpl; rewrite E; auto.
Qed.

Lemma lookup_assign_other k k' v o :
  k' <> k -> lookup k' (assign k v o) = lookup k' o.
Proof.
  intros N. induction o as [|[k0 v0] o IH]; simpl.
  - destruct (k' =? k)%string eqn:E; auto.
    apply String.eqb_eq in E. contradiction.
  - destruct (k =? k0)%string eqn:E; simpl.
    + apply String.eqb_eq in E. subst k0.
      destruct (k' =? k)%string eqn:E'; auto.
      apply String.eqb_eq in E'. contradiction.
    + now rewrite IH.
Qed.

Lemma assign_lookup_id k v o : lookup k o = Some v -> assign k v o = o.
Proof.
  induction o as [|[k' v'] o IH]; simpl; [discriminate|].
  destruct (k =? k')%string eqn:E.
  - now intros [= ->].
  - intros H. now rewrite IH.
Qed.

Lemma assign_assign_id k v o : assign k v (assign k v o) = assign k v o.
Proof. apply assign_lookup_id, lookup_assign_same. Qed.

Lemma get_assign_same k v o : get (VObj (assign k v o)) k = Ok v.
Proof. simpl. now rewrite lookup_assign_same. Qed.

Lemma get_assign_other k k' v o :
  k' <> k -> get (VObj (assign k v o)) k' = get (VObj o) k'.
Proof. intros N. simpl. now rewrite lookup_assign_other. Qed.

Lemma get_object_Ok o k : exists x, get (VObj o) k = Ok x.
Proof. simpl. destruct (lookup k o); eauto. Qed.

Lemma get_not_nullish v k : nullish v = false -> exists x, get v k = Ok x.
Proof.
  destruct v; simpl; try discriminate; intros _; eauto.
  - destruct (k =? "length")%string; eauto. destruct (array_index k); eauto.
  - destruct (k =? "length")%string; eauto. destruct (array_index k); eauto.
  - destruct (lookup k o); eauto.
Qed.

Lemma is_object_inv v : is_object v = true -> exists o, v = VObj o.
Proof. destruct v; simpl; try discriminate; eauto. Qed.

Lemma mapM_Ok_Forall2 {A B} (f : A -> result B) l l' :
  mapM f l = Ok l' <-> Forall2 (fun x y => f x = Ok y) l l'.
Proof.
  revert l'. induction l as [|x l IH]; intros l'; simpl.
  - split; [intros [= <-]; constructor | intros H; now inversion H].
  - split.
    + intros H. apply bind_Ok in H as (y & Hy & H).
      apply bind_Ok in H as (ys & Hys & H). injection H as <-.
      constructor; [assumption | now apply IH].
    + intros H. inversion H as [|? y ? ys Hy Hys]; subst.
      rewrite Hy. simpl. apply IH in Hys. now rewrite Hys.
Qed.

Lemma mapM_total {A B} (f : A -> result B) l :
  Forall (fun x => exists y, f x = Ok y) l -> exists l', mapM f l = Ok l'.
Proof.
  induction 1 as [|x l (y & Hy) _ (l' & Hl')]; simpl; eauto.
  rewrite Hy, Hl'. simpl. eauto.
Qed.

Lemma mapM_fixed (f : value -> result value) l :
  Forall (fun x => f x = Ok x) l -> mapM f l = Ok l.
Proof.
  induction 1 as [|x l Hx _ IH]; simpl; auto. now rewrite Hx, IH.
Qed.

Lemma filterM_filter {A} (f : A -> result bool) (p : A -> bool) l :
  Forall (fun x => f x = Ok (p x)) l -> filterM f l = Ok (filter p l).
Proof.
  induction 1 as [|x l Hx _ IH]; simpl; auto. rewrite Hx, IH. simpl.
  now destruct (p x).
Qed.

Lemma filterM_Throw {A} (f : A -> result bool) l x :
  In x l -> f x = Throw TypeError -> filterM f l = Throw TypeError.
Proof.
  induction l as [|y l IH]; simpl; [contradiction|].
  intros [->|Hin] Hx.
  - now rewrite Hx.
  - destruct (f y) as [b|e]; simpl; [|now rewrite (error_unique e)].
    now rewrite (IH Hin Hx).
Qed.

Lemma filterM_In {A} (f : A -> result bool) l r x :
  filterM f l = Ok r -> In x l -> f x = Ok true -> In x r.
Proof.
  revert r. induction l as [|y l IH]; simpl; intros r H Hin Hx;
    [contradiction|].
  apply bind_Ok in H as (b & Hb & H). apply bind_Ok in H as (ys & Hys & H).
  injection H as <-. destruct Hin as [->|Hin].
  - rewrite Hx in Hb. injection Hb as <-. now left.
  - specialize (IH _ Hys Hin Hx). destruct b; [now right | assumption].
Qed.

Lemma forallb_Forall {A} (p : A -> bool) l :
  forallb p l = true -> Forall (fun x => p x = true) l.
Proof. intros H. apply Forall_forall. now apply forallb_forall. Qed.

End Primitives.

(** Turn a goal [Forall Q l] into [Q x] for an [x] that passes the boolean
    test stated by [H]. *)
Ltac forall_of H :=
  apply forallb_Forall in H; eapply Forall_impl; [|exact H].

(** ** customFieldsValidator.js and backwardCompatibility.js *)

Section CustomFieldsNormalization.

Import CustomFieldsValidator BackwardCompatibility.

Lemma ensureCustomFields_normalizes item r :
  ensureCustomFields item = Ok r -> normalized r.
Proof.
  unfold ensureCustomFields. intros H. apply bind_Ok in H as (cf & _ & H).
  injection H as <-. eexists _, _. split; [reflexivity|].
  split; [apply lookup_assign_same|]. now destruct (truthy cf) eqn:E.
Qed.

Lemma ensureCustomFields_fixed item :
  normalized item -> ensureCustomFields item = Ok item.
Proof.
  intros (o & cf & -> & Hcf & Ht). unfold ensureCustomFields. simpl.
  rewrite Hcf. simpl. rewrite Ht. now rewrite (assign_lookup_id _ _ _ Hcf).
Qed.

Lemma ensureCustomFields_total item :
  nullish item = false -> exists r, ensureCustomFields item = Ok r.
Proof.
  intros H. unfold ensureCustomFields.
  destruct (get_not_nullish item "customFields" H) as (cf & ->). simpl. eauto.
Qed.

Lemma ensureCustomFieldsOnTask_normalizes t r :
  ensureCustomFieldsOnTask t = Ok r -> normalizedTask r.
Proof.
  unfold ensureCustomFieldsOnTask. intros H.
  apply bind_Ok in H as (item & Hitem & H).
  apply bind_Ok in H as (st & _ & H).
  apply bind_Ok in H as (subtasks & Hsub & H). injection H as <-.
  destruct (ensureCustomFields_normalizes _ _ Hitem) as (o & cf & -> & Hcf & Ht).
  assert (exists subs, subtasks = VArr subs /\ Forall normalized subs)
    as (subs & -> & Hsubs).
  { destruct (truthy st).
    - destruct st; simpl in Hsub; try discriminate.
      apply bind_Ok in Hsub as (ys & Hys & Hsub). injection Hsub as <-.
      exists ys. split; [reflexivity|].
      apply mapM_Ok_Forall2 in Hys. clear -Hys.
      induction Hys; constructor; eauto using ensureCustomFields_normalizes.
    - injection Hsub as <-. exists []. split; [reflexivity | constructor]. }
  exists (assign "subtasks" (VArr subs) o), cf, subs.
  split; [reflexivity|]. split.
  - rewrite lookup_assign_other by discriminate. exact Hcf.
  - split; [exact Ht|]. split; [apply lookup_assign_same | exact Hsubs].
Qed.

Lemma ensureCustomFieldsOnTask_fixed t :
  normalizedTask t -> ensureCustomFieldsOnTask t = Ok t.
Proof.
  intros (o & cf & subs & -> & Hcf & Ht & Hst & Hsubs).
  unfold ensureCustomFieldsOnTask.
  rewrite ensureCustomFields_fixed by (eexists _, _; eauto).
  simpl. rewrite Hst. simpl.
  rewrite mapM_fixed.
  - simpl. now rewrite (assign_lookup_id _ _ _ Hst).
  - eapply Forall_impl; [|exact Hsubs]. apply ensureCustomFields_fixed.
Qed.

Lemma ensureCustomFieldsOnTask_total t :
  wellFormedTask t = true -> exists r, ensureCustomFieldsOnTask t = Ok r.
Proof.
  unfold wellFormedTask. intros H. apply andb_prop in H as (Ho & Hst).
  apply is_object_inv in Ho as (o & ->).
  unfold ensureCustomFieldsOnTask, field in *.
  destruct (ensureCustomFields_total (VObj o) eq_refl) as (item & ->).
  destruct (get_object_Ok o "subtasks") as (st & Est). rewrite Est in *.
  simpl. destruct (truthy st) eqn:Et.
  - destruct st; simpl in Hst, Et; try discriminate;
      try (rewrite Et in Hst; discriminate).
    simpl. destruct (mapM_total ensureCustomFields l) as (l' & ->).
    + forall_of Hst.
      intros a Ha. apply is_object_inv in Ha as (oa & ->).
      now apply ensureCustomFields_total.
    + simpl. eauto.
  - simpl. eauto.
Qed.

Lemma ensureCustomFieldsOnTasks_fixed tasks r :
  ensureCustomFieldsOnTasks tasks = Ok r -> ensureCustomFieldsOnTasks r = Ok r.
Proof.
  unfold ensureCustomFieldsOnTasks. destruct tasks; simpl; try discriminate.
  intros H. apply bind_Ok in H as (ys & Hys & H). injection H as <-.
  simpl. rewrite mapM_fixed; [reflexivity|].
  apply mapM_Ok_Forall2 in Hys. clear -Hys.
  induction Hys; constructor; auto.
  eauto using ensureCustomFieldsOnTask_fixed, ensureCustomFieldsOnTask_normalizes.
Qed.

Lemma ensureCustomFieldsOnTasks_total ts :
  forallb wellFormedTask ts = true ->
  exists rs, ensureCustomFieldsOnTasks (VArr ts) = Ok (VArr rs) /\
             Forall2 (fun t r => ensureCustomFieldsOnTask t = Ok r) ts rs.
Proof.
  intros H. unfold ensureCustomFieldsOnTasks. simpl.
  destruct (mapM_total ensureCustomFieldsOnTask ts) as (rs & Hrs).
  - forall_of H.
    apply ensureCustomFieldsOnTask_total.
  - rewrite Hrs. simpl. exists rs. split; [reflexivity|].
    now apply mapM_Ok_Forall2.
Qed.

(** A falsy [subtasks], absent or [null] in particular, becomes [[]]. *)
Lemma ensureCustomFieldsOnTask_falsy_subtasks t r :
  ensureCustomFieldsOnTask t = Ok r ->
  truthy (field "subtasks" t) = false ->
  get r "subtasks" = Ok (VArr []).
Proof.
  unfold ensureCustomFieldsOnTask, field. intros H Hf.
  apply bind_Ok in H as (item & _ & H).
  apply bind_Ok in H as (st & Hst & H). rewrite Hst in Hf. rewrite Hf in H.
  simpl in H. injection H as <-. apply get_assign_same.
Qed.

Lemma absent_or_null_falsy t :
  subtasksAbsent t || subtasksNull t = true ->
  truthy (field "subtasks" t) = false.
Proof.
  unfold subtasksAbsent, subtasksNull, field.
  destruct t; simpl; try discriminate.
  destruct (lookup "subtasks" o) as [[]|]; simpl; auto; discriminate.
Qed.

End CustomFieldsNormalization.

(** C1, on the code.  On the legacy input of the scenario
    [ensureTasksBackwardCompatibility] adds [customFields: {}] to the task and
    to both subtasks, but it leaves [parentTaskId] as it found it: absent on
    the first subtask and [999] on the second.  [ensureSubtaskParentIds], which
    it does not call, sets both to [1]. *)
Theorem C1_legacy_migration_leaves_parent_ids :
  exists t s0 s1,
    BackwardCompatibility.ensureTasksBackwardCompatibility Examples.legacyTasks
      = Ok (VArr [t]) /\
    get t "subtasks" = Ok (VArr [s0; s1]) /\
    get t "customFields" = Ok (VObj []) /\
    get s0 "customFields" = Ok (VObj []) /\
    get s1 "customFields" = Ok (VObj []) /\
    get s0 "parentTaskId" = Ok VUndefined /\
    get s1 "parentTaskId" = Ok (VNum 999) /\
    exists t' s0' s1' out,
      SubtaskValidator.ensureSubtaskParentIds false false Examples.legacyTasks
        = Ok (VArr [t'], out) /\
      get t' "subtasks" = Ok (VArr [s0'; s1']) /\
      get s0' "parentTaskId" = Ok (VNum 1) /\
      get s1' "parentTaskId" = Ok (VNum 1).
Proof.
  do 3 eexists. repeat (split; [reflexivity|]).
  do 4 eexists. repeat (split; [reflexivity|]). reflexivity.
Qed.

(** C6.  Idempotence: on a well-formed task collection
    [ensureTasksBackwardCompatibility] returns, and applying it to its own
    result returns that result again. *)
Theorem C6_backward_compatibility_idempotent (tasks : value) :
  wellFormed tasks = true ->
  exists r,
    BackwardCompatibility.ensureTasksBackwardCompatibility tasks = Ok r /\
    BackwardCompatibility.ensureTasksBackwardCompatibility r = Ok r.
Proof.
  unfold BackwardCompatibility.ensureTasksBackwardCompatibility.
  destruct tasks as [| | | | |ts|]; simpl; try discriminate. intros H.
  destruct (ensureCustomFieldsOnTasks_total ts H) as (rs & Hrs & _).
  exists (VArr rs). split; [exact Hrs|].
  exact (ensureCustomFieldsOnTasks_fixed _ _ Hrs).
Qed.

Lemma C6_witness :
  exists r,
    BackwardCompatibility.ensureTasksBackwardCompatibility Examples.legacyTasks
      = Ok r /\
    BackwardCompatibility.ensureTasksBackwardCompatibility r = Ok r.
Proof.
  apply (C6_backward_compatibility_idempotent Examples.legacyTasks).
  reflexivity.
Defined.

(** C7, as the code has it.  In [ensureCustomFieldsOnTasks] a task whose
    [subtasks] is absent and a task whose [subtasks] is [null] both come out
    with [subtasks] equal to [[]]; the order of the tasks is kept. *)
Theorem C7_absent_and_null_subtasks_become_empty (ts : list value) :
  forallb wellFormedTask ts = true ->
  exists rs,
    CustomFieldsValidator.ensureCustomFieldsOnTasks (VArr ts) = Ok (VArr rs) /\
    Forall2 (fun t r =>
               subtasksAbsent t || subtasksNull t = true ->
               get r "subtasks" = Ok (VArr [])) ts rs.
Proof.
  intros H. destruct (ensureCustomFieldsOnTasks_total ts H) as (rs & Hrs & F).
  exists rs. split; [exact Hrs|].
  eapply Forall2_impl; [|exact F]. intros t r Hr Ha.
  eapply ensureCustomFieldsOnTask_falsy_subtasks;
    [exact Hr | now apply absent_or_null_falsy].
Qed.

Lemma C7_witness :
  exists rs,
    CustomFieldsValidator.ensureCustomFieldsOnTasks Examples.edgeCaseTasks
      = Ok (VArr rs) /\
    Forall2 (fun t r =>
               subtasksAbsent t || subtasksNull t = true ->
               get r "subtasks" = Ok (VArr []))
            Examples.edgeCaseTaskList rs.
Proof.
  apply (C7_absent_and_null_subtasks_become_empty Examples.edgeCaseTaskList).
  reflexivity.
Defined.

(** C7, as the specification words it, fails on the task that has no
    [subtasks] property: the result carries [subtasks: []]. *)
Lemma C7_absent_subtasks_coerced :
  CustomFieldsValidator.ensureCustomFieldsOnTasks
    (VArr [Examples.taskNoSubtasks])
  = Ok (VArr [VObj [("id", VNum 3);
                    ("title", VStr "Task without subtasks property");
                    ("customFields", VObj []); ("subtasks", VArr [])]]) /\
  ~ AsStated.absentSubtasksStayAbsent [Examples.taskNoSubtasks].
Proof.
  split; [reflexivity|]. intros H.
  specialize (H _ eq_refl). inversion H as [|? ? ? ? Habs _]; subst.
  specialize (Habs eq_refl). discriminate Habs.
Qed.

(** ** subtaskValidator.js: the parent-id pass *)

Section ParentIds.

Import SubtaskValidator.

Variables debug logMigrations : bool.

Lemma strict_eq_true a b : strict_eq a b = true -> a = b.
Proof.
  destruct a, b; simpl; try discriminate; intros H; try reflexivity.
  - now apply Bool.eqb_prop in H as ->.
  - now apply Z.eqb_eq in H as ->.
  - now apply String.eqb_eq in H as ->.
Qed.

Lemma validateSubtask_object o so st :
  exists s' st',
    validateSubtask debug logMigrations (VObj o) (VObj so) st = Ok (s', st') /\
    fixedSub (field "id" (VObj o)) (VObj so) s'.
Proof.
  unfold validateSubtask, bindM, lift, field.
  destruct (get_object_Ok so "parentTaskId") as (pid & Hpid). rewrite Hpid.
  destruct (get_object_Ok o "id") as (tid & ->).
  destruct (negb (truthy pid) || negb (strict_eq pid tid)) eqn:E.
  - unfold count_migration, console_log, ret.
    destruct (get_object_Ok so "id") as (sid & Hsid).
    destruct (logMigrations && debug); rewrite ?Hsid;
      (do 2 eexists; split; [reflexivity|]; split;
       [apply get_assign_same
       | intros k Hk; simpl spread; now apply get_assign_other]).
  - unfold ret. do 2 eexists. split; [reflexivity|].
    apply orb_false_elim in E as (_ & E). apply negb_false_iff in E.
    apply strict_eq_true in E. subst tid. split; [exact Hpid|].
    intros k _. reflexivity.
Qed.

Lemma mapMS_total {A B} (f : A -> M B) (R : A -> B -> Prop) l :
  Forall (fun x => forall st, exists y st', f x st = Ok (y, st') /\ R x y) l ->
  forall st, exists l' st', mapMS f l st = Ok (l', st') /\ Forall2 R l l'.
Proof.
  induction 1 as [|x l Hx _ IH]; intros st; simpl.
  - unfold ret. eauto.
  - unfold bindM. destruct (Hx st) as (y & st1 & -> & Hy).
    destruct (IH st1) as (l' & st2 & -> & Hl'). unfold ret. eauto.
Qed.

Lemma mapMS_Throw {A B} (f : A -> M B) l x :
  In x l -> (forall st, f x st = Throw TypeError) ->
  forall st, mapMS f l st = Throw TypeError.
Proof.
  induction l as [|y l IH]; simpl; [contradiction|].
  intros [->|Hin] Hx st; unfold bindM.
  - now rewrite Hx.
  - destruct (f y st) as [[b st1]|e]; [|now rewrite (error_unique e)].
    now rewrite (IH Hin Hx).
Qed.

Lemma validateTask_plain t st :
  plainTask t = true ->
  exists t' st',
    validateTask debug logMigrations t st = Ok (t', st') /\ fixedTask t t'.
Proof.
  unfold plainTask. intros H. apply andb_prop in H as (Ho & Hss).
  apply is_object_inv in Ho as (o & ->).
  unfold validateTask, bindM, lift, fixedTask, field in *.
  destruct (get_object_Ok o "subtasks") as (sv & Hsv). rewrite Hsv in *.
  destruct sv as [| | | | |ss|];
    try (unfold ret; do 2 eexists; split; [reflexivity|]; split;
         [intros; reflexivity | reflexivity]).
  destruct ss as [|s r].
  - unfold ret. do 2 eexists. split; [reflexivity|]. split; [reflexivity|].
    exists []. split; [exact Hsv | constructor].
  - destruct (mapMS_total (validateSubtask debug logMigrations (VObj o))
                (fixedSub (field "id" (VObj o))) (s :: r)) with (st := st)
      as (ss' & st' & Hm & F).
    { forall_of Hss.
      intros a Ha st0. apply is_object_inv in Ha as (oa & ->).
      apply validateSubtask_object. }
    rewrite Hm. unfold ret. do 2 eexists. split; [reflexivity|]. split.
    + intros k Hk. simpl spread. now apply get_assign_other.
    + exists ss'. split; [apply get_assign_same | exact F].
Qed.

Lemma fixedTask_sameTask t t' : fixedTask t t' -> sameTask t t'.
Proof.
  unfold fixedTask, sameTask. intros (Hk & Hs). split; [exact Hk|].
  destruct (field "subtasks" t); auto.
  destruct Hs as (ss' & Hss' & F). exists ss'. split; [exact Hss'|].
  eapply Forall2_impl; [|exact F]. intros a b Hab. apply Hab.
Qed.

Lemma fixedTask_converged ts ts' :
  Forall (fun t => is_object t = true) ts ->
  Forall2 fixedTask ts ts' -> converged ts'.
Proof.
  intros Ho F t' ss' s' Hin Hss' Hs'.
  apply (Forall2_flip) in F.
  assert (exists t, In t ts /\ fixedTask t t') as (t & Ht & Hk & Hsub).
  { clear -F Hin. induction F as [|a b l l' Hab _ IH]; [contradiction|].
    destruct Hin as [->|Hin]; [exists b; split; [now left | exact Hab]|].
    destruct (IH Hin) as (t & Ht & Hf). exists t. split; [now right|exact Hf]. }
  rewrite Forall_forall in Ho. apply Ho in Ht.
  apply is_object_inv in Ht as (o & ->).
  rewrite (Hk "id") by discriminate.
  unfold field in Hsub.
  destruct (get_object_Ok o "id") as (tid & Htid). rewrite Htid in *.
  destruct (get_object_Ok o "subtasks") as (sv & Hsv). rewrite Hsv in *.
  destruct sv as [| | | | |ss|]; try (subst t'; congruence).
  destruct Hsub as (ss'' & Hss'' & F2). rewrite Hss' in Hss''.
  injection Hss'' as <-.
  clear -F2 Hs'. induction F2 as [|a b l l' Hab _ IH]; [contradiction|].
  destruct Hs' as [->|Hs']; [apply Hab | now apply IH].
Qed.

Lemma ensureSubtaskParentIds_plain ts :
  forallb plainTask ts = true ->
  exists ts' out,
    ensureSubtaskParentIds debug logMigrations (VArr ts) = Ok (VArr ts', out) /\
    Forall2 fixedTask ts ts'.
Proof.
  intros H. unfold ensureSubtaskParentIds, ensureSubtaskParentIds_run, bindM.
  destruct (mapMS_total (validateTask debug logMigrations) fixedTask ts)
    with (st := mkState 0 []) as (ts' & st' & -> & F).
  { forall_of H.
    intros t Ht st0. now apply validateTask_plain. }
  unfold ret, console_log.
  destruct ((0 <? migrationsPerformed st') && logMigrations && debug);
    do 2 eexists; (split; [reflexivity | exact F]).
Qed.

(** For an id that is a number or a string, the same value read twice is
    [===] to itself. *)
Lemma converged_strict_eq ts t ss s i :
  converged ts -> In t ts -> get t "subtasks" = Ok (VArr ss) -> In s ss ->
  get t "id" = Ok i -> is_primitive i = true ->
  exists p, get s "parentTaskId" = Ok p /\ strict_eq p i = true.
Proof.
  intros C Ht Hss Hs Hi Hp. exists i. split.
  - rewrite (C t ss s Ht Hss Hs). exact Hi.
  - destruct i; simpl in *; try discriminate; auto using Bool.eqb_reflx,
      Z.eqb_refl, String.eqb_refl.
Qed.

(** A [null] or [undefined] entry of a [subtasks] array aborts the pass. *)
Lemma ensureSubtaskParentIds_nullish_subtask ts t ss s :
  In t ts -> get t "subtasks" = Ok (VArr ss) -> In s ss ->
  nullish s = true ->
  ensureSubtaskParentIds debug logMigrations (VArr ts) = Throw TypeError.
Proof.
  intros Ht Hss Hs Hn.
  unfold ensureSubtaskParentIds, ensureSubtaskParentIds_run, bindM.
  rewrite (mapMS_Throw (validateTask debug logMigrations) ts t Ht);
    [reflexivity|].
  intros st. unfold validateTask, bindM, lift. rewrite Hss.
  destruct ss as [|s0 r]; [contradiction|].
  rewrite (mapMS_Throw _ (s0 :: r) s Hs); [reflexivity|].
  intros st0. unfold validateSubtask, bindM, lift.
  destruct s; try discriminate; reflexivity.
Qed.

End ParentIds.

(** C3, on the code.  A [null] entry in a [subtasks] array makes
    [ensureSubtaskParentIds] throw when it reads [subtask.parentTaskId]; the
    pass does not complete.  An entry that is a string is replaced by an
    object holding its characters and a [parentTaskId]. *)
Theorem C3_null_subtask_entry_throws (debug logMigrations : bool) :
  SubtaskValidator.ensureSubtaskParentIds debug logMigrations
    Examples.malformedTasks = Throw TypeError /\
  exists out,
    SubtaskValidator.ensureSubtaskParentIds debug logMigrations
      (VArr [VObj [("id", VNum 1); ("subtasks", VArr [VStr "no"])]])
    = Ok (VArr [VObj [("id", VNum 1);
                      ("subtasks",
                       VArr [VObj [("0", VStr "n"); ("1", VStr "o");
                                   ("parentTaskId", VNum 1)]])]], out).
Proof.
  split.
  - eapply ensureSubtaskParentIds_nullish_subtask with
      (s := VNull) (ss := [VNull]); [now left | reflexivity | now left |
                                     reflexivity].
  - destruct debug, logMigrations; eexists; reflexivity.
Qed.

(** C5.  Parent-id convergence: on an array of plain-object tasks whose
    [subtasks] arrays hold plain objects, [ensureSubtaskParentIds] returns an
    array in which every subtask found under a task has that task's [id] as
    [parentTaskId]; the tasks, and the subtasks of each task, come out in their
    input order, each unchanged apart from [subtasks] and [parentTaskId].
    When the pass writes its trace lines, with [logMigrations] and
    [TASKMASTER_DEBUG] both on, it prints the ids, which are then to be
    primitive values. *)
Theorem C5_parent_id_convergence (debug logMigrations : bool)
  (ts : list value) :
  forallb plainTask ts = true ->
  negb (debug && logMigrations) || forallb primitiveIds ts = true ->
  exists ts' out,
    SubtaskValidator.ensureSubtaskParentIds debug logMigrations (VArr ts)
      = Ok (VArr ts', out) /\
    converged ts' /\
    Forall2 sameTask ts ts'.
Proof.
  intros H _.
  destruct (ensureSubtaskParentIds_plain debug logMigrations ts H)
    as (ts' & out & Hr & F).
  exists ts', out. split; [exact Hr|]. split.
  - eapply fixedTask_converged; [|exact F].
    forall_of H.
    intros t Ht. unfold plainTask in Ht. now apply andb_prop in Ht as (Ho & _).
  - eapply Forall2_impl; [|exact F]. apply fixedTask_sameTask.
Qed.

Lemma C5_witness :
  exists ts' out,
    SubtaskValidator.ensureSubtaskParentIds true true Examples.legacyTasks
      = Ok (VArr ts', out) /\
    converged ts' /\
    Forall2 sameTask [Examples.legacyTask] ts'.
Proof.
  apply (C5_parent_id_convergence true true [Examples.legacyTask]);
    reflexivity.
Defined.

(** ** Binary64 arithmetic of the integrity score *)

Section Binary64.

Lemma digits2_pos_iter_xO p k :
  digits2_pos (Pos.iter xO p k) = (digits2_pos p + k)%positive.
Proof.
  induction k as [|k IH] using Pos.peano_ind.
  - simpl. now rewrite Pos.add_1_r.
  - rewrite Pos.iter_succ. simpl. rewrite IH. lia.
Qed.

Lemma digits2_pos_bound p :
  Z.pos p < 2 ^ 53 -> Z.pos (digits2_pos p) <= 53.
Proof.
  intros H.
  assert (G : forall q, 2 ^ (Z.pos (digits2_pos q) - 1) <= Z.pos q).
  { induction q as [q IH|q IH|]; simpl digits2_pos.
    - rewrite Pos2Z.inj_succ.
      replace (Z.succ (Z.pos (digits2_pos q)) - 1)
        with (Z.succ (Z.pos (digits2_pos q) - 1)) by lia.
      rewrite Z.pow_succ_r by lia. lia.
    - rewrite Pos2Z.inj_succ.
      replace (Z.succ (Z.pos (digits2_pos q)) - 1)
        with (Z.succ (Z.pos (digits2_pos q) - 1)) by lia.
      rewrite Z.pow_succ_r by lia. lia.
    - simpl. lia. }
  specialize (G p).
  destruct (Z_le_gt_dec (Z.pos (digits2_pos p)) 53) as [L|L]; [exact L|].
  exfalso.
  assert (2 ^ 53 <= 2 ^ (Z.pos (digits2_pos p) - 1))
    by (apply Z.pow_le_mono_r; lia).
  lia.
Qed.

(** A mantissa of exactly 53 bits with a small exponent is left alone by the
    rounding. *)
Lemma binary_round_aux_exact s m e :
  Z.pos (digits2_pos m) = 53 -> -1074 <= e <= 971 ->
  binary_round_aux prec emax s (Z.pos m) e loc_Exact = S754_finite s m e.
Proof.
  intros Hd He. unfold binary_round_aux.
  assert (Hs : shr_fexp prec emax (Z.pos m) e loc_Exact
               = (Build_shr_record (Z.pos m) false false, e)).
  { unfold shr_fexp, fexp, emin, prec, emax. simpl Zdigits2. rewrite Hd.
    replace (Z.max (53 + e - 53) (3 - 1024 - 53) - e) with 0 by lia.
    reflexivity. }
  rewrite Hs. simpl. rewrite Hs. simpl.
  destruct (Z.leb_spec e 971); [reflexivity | lia].
Qed.

(** Below 2^53 every positive integer is a finite double. *)
Lemma number_of_Z_finite (n : Z) :
  0 < n < 2 ^ 53 -> exists m e, number_of_Z n = S754_finite false m e.
Proof.
  intros [Hp Hb]. destruct n as [|p|p]; try lia.
  unfold number_of_Z, binary_normalize, binary_round.
  pose proof (digits2_pos_bound p Hb) as Hd.
  unfold shl_align, fexp, emin, prec, emax.
  replace (Z.max (Z.pos (digits2_pos p) + 0 - 53) (3 - 1024 - 53) - 0)
    with (Z.pos (digits2_pos p) - 53) by lia.
  replace (Z.max (Z.pos (digits2_pos p) + 0 - 53) (3 - 1024 - 53))
    with (Z.pos (digits2_pos p) - 53) by lia.
  destruct (Z.pos (digits2_pos p) - 53) as [|q|q] eqn:E; try lia.
  - exists p, 0. apply (binary_round_aux_exact false p 0); lia.
  - exists (Pos.iter xO p q), (Z.neg q).
    apply (binary_round_aux_exact false); [|lia].
    rewrite digits2_pos_iter_xO. lia.
Qed.

(** A finite double divided by itself is 1. *)
Lemma num_div_self s m e :
  num_div (S754_finite s m e) (S754_finite s m e)
  = S754_finite false 4503599627370496 (-52).
Proof.
  unfold num_div, SFdiv, SFdiv_core_binary.
  rewrite Z.sub_diag, Z.sub_diag.
  change (Z.min (fexp prec emax 0) 0) with (-53).
  change (0 - -53) with 53.
  rewrite Z.shiftl_mul_pow2 by lia.
  assert (H : Z.div_eucl (Z.pos m * 2 ^ 53) (Z.pos m) = (2 ^ 53, 0)).
  { transitivity ((Z.pos m * 2 ^ 53) / Z.pos m, (Z.pos m * 2 ^ 53) mod Z.pos m).
    - unfold Z.div, Z.modulo.
      now destruct (Z.div_eucl (Z.pos m * 2 ^ 53) (Z.pos m)).
    - rewrite (Z.mul_comm (Z.pos m)), Z.div_mul, Z.mod_mul by lia.
      reflexivity. }
  rewrite H.
  assert (L : new_location (Z.pos m) 0 = loc_Exact).
  { unfold new_location, new_location_even, new_location_odd.
    now destruct (Z.even (Z.pos m)). }
  rewrite L. now destruct s.
Qed.

Lemma num_sub_zero s m e :
  num_sub (S754_finite s m e) (number_of_Z 0) = S754_finite s m e.
Proof. reflexivity. Qed.

End Binary64.

(** ** subtaskValidator.js: the integrity report *)

Section IntegrityReport.

Import SubtaskValidator.

Lemma foldM_total {A B} (f : A -> B -> result A) l :
  Forall (fun x => forall a, exists a', f a x = Ok a') l ->
  forall acc, exists r, foldM f acc l = Ok r.
Proof.
  induction 1 as [|x l Hx _ IH]; intros acc; simpl; eauto.
  destruct (Hx acc) as (a' & ->). simpl. apply IH.
Qed.

Lemma checkSubtask_total o acc i so :
  exists r, checkSubtask (VObj o) acc i (VObj so) = Ok r.
Proof.
  unfold checkSubtask. destruct acc as [issues ids].
  destruct (get_object_Ok so "id") as (sid & ->).
  destruct (get_object_Ok o "id") as (tid & ->).
  destruct (get_object_Ok so "parentTaskId") as (pid & ->).
  destruct (get_object_Ok so "title") as (title & ->).
  simpl. destruct (truthy sid); [destruct (existsb _ ids)|]; simpl; eauto.
Qed.

Lemma checkSubtasks_total o l :
  Forall (fun s => is_object s = true) l ->
  forall acc i, exists r, checkSubtasks (VObj o) acc i l = Ok r.
Proof.
  induction 1 as [|s l Hs _ IH]; intros acc i; simpl; eauto.
  apply is_object_inv in Hs as (so & ->).
  destruct (checkSubtask_total o acc i so) as (r & ->). simpl. apply IH.
Qed.

Lemma checkTask_total issues t :
  plainTask t = true -> exists r, checkTask issues t = Ok r.
Proof.
  unfold plainTask, checkTask, field. intros H.
  apply andb_prop in H as (Ho & Hss). apply is_object_inv in Ho as (o & ->).
  destruct (get_object_Ok o "subtasks") as (sv & Hsv). rewrite Hsv in *.
  simpl. destruct sv; eauto.
  destruct (checkSubtasks_total o l (forallb_Forall _ _ Hss) (issues, []) 0%nat)
    as (r & ->).
  simpl. eauto.
Qed.

Lemma checkTasks_total ts :
  forallb plainTask ts = true ->
  forall issues, exists r, checkTasks issues ts = Ok r.
Proof.
  induction ts as [|t ts IH]; simpl; intros H issues; eauto.
  apply andb_prop in H as (Ht & Hts).
  destruct (checkTask_total issues t Ht) as (r & ->). simpl. now apply IH.
Qed.

Lemma validateSubtaskStructure_total debug ts :
  forallb plainTask ts = true ->
  exists v, validateSubtaskStructure debug (VArr ts) false false = Ok v.
Proof.
  intros H. unfold validateSubtaskStructure. simpl.
  destruct (checkTasks_total ts H []) as (r & ->). simpl. eauto.
Qed.

Lemma findOrphanedSubtasks_total ts :
  forallb plainTask ts = true ->
  exists r, findOrphanedSubtasks (VArr ts) = Ok r.
Proof.
  intros H. unfold findOrphanedSubtasks.
  apply forallb_Forall in H.
  destruct (mapM_total (fun task => get task "id") ts) as (ids & ->).
  { eapply Forall_impl; [|exact H]. intros t Ht.
    apply andb_prop in Ht as (Ho & _). apply is_object_inv in Ho as (o & ->).
    apply get_object_Ok. }
  simpl. apply foldM_total.
  eapply Forall_impl; [|exact H]. intros t Ht acc.
  apply andb_prop in Ht as (Ho & Hss). apply is_object_inv in Ho as (o & ->).
  unfold orphanTask, field in *.
  destruct (get_object_Ok o "subtasks") as (sv & Hsv). rewrite Hsv in *.
  simpl. destruct sv; eauto.
  apply foldM_total. forall_of Hss. intros s Hs a.
  apply is_object_inv in Hs as (so & ->). unfold orphanCheck.
  destruct (get_object_Ok so "parentTaskId") as (pid & ->). simpl bind.
  destruct (truthy pid && negb (existsb (strict_eq pid) ids)); eauto.
  destruct (lookup "id" o); simpl; eauto.
Qed.

Lemma countIssues_spec o l :
  Forall (fun s => is_object s = true) l ->
  forall n,
    foldM (countIssue (VObj o)) n l
    = Ok (n + Z.of_nat (List.length (filter (hasIssue (VObj o)) l))).
Proof.
  induction 1 as [|s l Hs _ IH]; intros n; simpl.
  - now rewrite Z.add_0_r.
  - apply is_object_inv in Hs as (so & ->).
    unfold countIssue at 1. unfold hasIssue at 1. unfold field.
    destruct (get_object_Ok so "parentTaskId") as (pid & ->).
    destruct (get_object_Ok o "id") as (tid & ->). simpl.
    rewrite IH.
    destruct (negb (truthy pid) || negb (strict_eq pid tid));
      cbn [Datatypes.length]; f_equal; lia.
Qed.

Lemma countTask_spec c t :
  plainTask t = true ->
  exists c',
    countTask c t = Ok c' /\
    c_totalSubtasks c' =
      c_totalSubtasks c + Z.of_nat (List.length (subtasksOf t)) /\
    c_subtasksWithIssues c' =
      c_subtasksWithIssues c +
      Z.of_nat (List.length (filter (hasIssue t) (subtasksOf t))).
Proof.
  unfold plainTask, countTask, subtasksOf, field. intros H.
  apply andb_prop in H as (Ho & Hss). apply is_object_inv in Ho as (o & ->).
  destruct (get_object_Ok o "subtasks") as (sv & Hsv). rewrite Hsv in *.
  cbn [bind].
  destruct sv as [| | | | |ss|];
    try (exists c; simpl; repeat split; lia).
  destruct ss as [|s r]; [exists c; simpl; repeat split; lia|].
  rewrite (countIssues_spec o (s :: r) (forallb_Forall _ _ Hss)).
  cbn [bind]. eexists. split; [reflexivity|]. split; reflexivity.
Qed.

Lemma countTasks_spec ts :
  forallb plainTask ts = true ->
  forall c,
  exists c',
    foldM countTask c ts = Ok c' /\
    c_totalSubtasks c' = c_totalSubtasks c + totalOf ts /\
    c_subtasksWithIssues c' = c_subtasksWithIssues c + issuesOf ts.
Proof.
  unfold totalOf, issuesOf.
  induction ts as [|t ts IH]; simpl; intros H c.
  - exists c. repeat split; lia.
  - apply andb_prop in H as (Ht & Hts).
    destruct (countTask_spec c t Ht) as (c1 & -> & T1 & I1). simpl.
    destruct (IH Hts c1) as (c' & -> & T & I). exists c'.
    split; [reflexivity|]. rewrite !length_app, !Nat2Z.inj_add. lia.
Qed.

Lemma score_zero issues : score 0 issues = Some "100%".
Proof. reflexivity. Qed.

Lemma score_half : score 4 2 = Some "50.0%".
Proof. vm_compute. reflexivity. Qed.

Lemma score_healthy total :
  0 < total < 2 ^ 53 -> score total 0 = Some "100.0%".
Proof.
  intros H. unfold score.
  destruct (Z.ltb_spec 0 total) as [_|L]; [|lia].
  destruct (number_of_Z_finite total H) as (m & e & ->).
  rewrite num_sub_zero, num_div_self. vm_compute. reflexivity.
Qed.

End IntegrityReport.

(** C8.  Integrity score: on a collection of plain-object tasks whose ids
    and parent ids, which the issue lines print, are primitive values,
    [createSubtaskIntegrityReport] returns a report whose score is ["100%"]
    when there is no subtask, ["100.0%"] when there are subtasks and none has
    a missing or incorrect [parentTaskId], ["50.0%"] for four subtasks two of
    which have an issue, and in every case with subtasks the binary64 value
    [(total - issues) / total * 100] printed by [toFixed(1)] and followed by
    ["%"]. *)
Theorem C8_integrity_score (debug : bool) (ts : list value) :
  forallb plainTask ts = true ->
  forallb primitiveRefs ts = true ->
  exists r,
    SubtaskValidator.createSubtaskIntegrityReport debug (VArr ts) = Ok r /\
    let s := SubtaskValidator.r_summary r in
    let total := SubtaskValidator.totalSubtasks s in
    let issues := SubtaskValidator.subtasksWithIssues s in
    total = totalOf ts /\ issues = issuesOf ts /\
    (total = 0 -> SubtaskValidator.integrityScore s = Some "100%") /\
    (0 < total < 2 ^ 53 -> issues = 0 ->
     SubtaskValidator.integrityScore s = Some "100.0%") /\
    (total = 4 -> issues = 2 ->
     SubtaskValidator.integrityScore s = Some "50.0%") /\
    (0 < total ->
     SubtaskValidator.integrityScore s =
       option_map (fun d => d ++ "%")
         (toFixed (num_mul (num_div (num_sub (number_of_Z total)
                                             (number_of_Z issues))
                                    (number_of_Z total))
                           (number_of_Z 100)) 1)).
Proof.
  intros H _. unfold SubtaskValidator.createSubtaskIntegrityReport.
  destruct (validateSubtaskStructure_total debug ts H) as (v & ->).
  destruct (findOrphanedSubtasks_total ts H) as (orph & ->).
  destruct (countTasks_spec ts H (SubtaskValidator.mkCounters 0 0 0))
    as (c & Hc & T & I).
  simpl bind. rewrite Hc. simpl bind. eexists. split; [reflexivity|].
  simpl. simpl in T, I. repeat split.
  - exact T.
  - exact I.
  - intros ->. apply score_zero.
  - intros Hb ->. now apply score_healthy.
  - intros -> ->. apply score_half.
  - intros Hp. unfold SubtaskValidator.score.
    destruct (Z.ltb_spec 0 (SubtaskValidator.c_totalSubtasks c));
      [reflexivity | lia].
Qed.

Lemma C8_witness :
  exists r,
    SubtaskValidator.createSubtaskIntegrityReport false Examples.reportTasks
      = Ok r /\
    let s := SubtaskValidator.r_summary r in
    let total := SubtaskValidator.totalSubtasks s in
    let issues := SubtaskValidator.subtasksWithIssues s in
    total = 4 /\ issues = 2 /\
    (total = 0 -> SubtaskValidator.integrityScore s = Some "100%") /\
    (0 < total < 2 ^ 53 -> issues = 0 ->
     SubtaskValidator.integrityScore s = Some "100.0%") /\
    (total = 4 -> issues = 2 ->
     SubtaskValidator.integrityScore s = Some "50.0%") /\
    (0 < total ->
     SubtaskValidator.integrityScore s =
       option_map (fun d => d ++ "%")
         (toFixed (num_mul (num_div (num_sub (number_of_Z total)
                                             (number_of_Z issues))
                                    (number_of_Z total))
                           (number_of_Z 100)) 1)).
Proof.
  apply (C8_integrity_score false Examples.reportTaskList); reflexivity.
Defined.

(** ** queryTranslator.js *)

Section QueryFilters.

Import QueryTranslator.

Lemma applyFilters_one m k v l :
  applyFilters m [(k, v)] l = filterM (m k v) l.
Proof. simpl. now destruct (filterM (m k v) l). Qed.

(** A filter made of one custom field. *)
Lemma filterTasks_one_custom ts k v :
  filterTasks (VArr ts) (mkFilters [] [(k, v)]) = filterM (customMatch k v) ts.
Proof. unfold filterTasks. simpl bind. apply applyFilters_one. Qed.

(** A filter made of one core field. *)
Lemma filterTasks_one_core ts k v :
  filterTasks (VArr ts) (mkFilters [(k, v)] []) = filterM (coreMatch k v) ts.
Proof.
  unfold filterTasks. cbn [bind spread_iterable coreFields customFields].
  rewrite applyFilters_one. now destruct (filterM (coreMatch k v) ts).
Qed.

Lemma filterTasksCI_one_core ts k v :
  QueryTranslatorCI.filterTasks (VArr ts) (mkFilters [(k, v)] [])
  = filterM (QueryTranslatorCI.coreMatch k v) ts.
Proof.
  unfold QueryTranslatorCI.filterTasks.
  cbn [bind spread_iterable coreFields customFields].
  rewrite applyFilters_one.
  now destruct (filterM (QueryTranslatorCI.coreMatch k v) ts).
Qed.

Lemma call_includes_lacking v arg :
  lacksIncludes v = true -> call_includes v arg = Throw TypeError.
Proof. destruct v; simpl; try discriminate; reflexivity. Qed.

(** A task that carries a truthy value under [customFields.k]. *)
Lemma truthy_custom_value k t :
  truthy (field k (field "customFields" t)) = true ->
  exists cf x,
    get t "customFields" = Ok cf /\ truthy cf = true /\
    get cf k = Ok x /\ truthy x = true.
Proof.
  unfold field. intros H.
  destruct (get t "customFields") as [cf|e] eqn:Ecf; [|discriminate].
  destruct (get cf k) as [x|e] eqn:Ex; [|discriminate].
  exists cf, x. repeat split; auto.
  destruct cf; simpl in Ex; try discriminate; try reflexivity;
    try (injection Ex as <-; discriminate).
  destruct s; [|reflexivity]. simpl in Ex.
  destruct (k =? "length")%string; [injection Ex as <-; discriminate|].
  destruct (array_index k) as [i|]; injection Ex as <-;
    [destruct i|]; discriminate.
Qed.

Lemma customMatch_lacking k v t :
  lacksIncludes v = true ->
  truthy (field k (field "customFields" t)) = true ->
  customMatch k v t = Throw TypeError.
Proof.
  intros Hv Ht.
  destruct (truthy_custom_value k t Ht) as (cf & x & Hcf & Tcf & Hx & Tx).
  unfold customMatch. rewrite Hcf. cbn [bind]. rewrite Tcf. cbn [negb].
  rewrite Hx. cbn [bind]. rewrite Tx. cbn [negb].
  now rewrite call_includes_lacking.
Qed.

Lemma coreMatch_status_lacking v t :
  lacksIncludes v = true -> coreMatch "status" v t = Throw TypeError.
Proof.
  intros Hv. unfold coreMatch. cbn [String.eqb Ascii.eqb Bool.eqb].
  now rewrite call_includes_lacking.
Qed.

(** The value a task carries under [customFields.epic], read as the filter
    callback reads it. *)
Lemma customMatch_comma t :
  nullish t = false ->
  customMatch "epic" (VStr "EPIC-1234,EPIC-5678") t
  = Ok (customIs "epic" "EPIC-1234" t || customIs "epic" "EPIC-5678" t).
Proof.
  intros Hn. unfold customMatch, customIs, field.
  destruct (get_not_nullish t "customFields" Hn) as (cf & ->). cbn [bind].
  destruct (truthy cf) eqn:Tcf; cbn [negb].
  - assert (nullish cf = false) as Hcf by (destruct cf; auto; discriminate).
    destruct (get_not_nullish cf "epic" Hcf) as (x & ->). cbn [bind].
    destruct (truthy x) eqn:Tx; cbn [negb].
    + destruct x; try reflexivity. cbn. now rewrite !orb_false_r.
    + destruct x; try reflexivity; try discriminate.
      destruct s; [reflexivity | discriminate].
  - destruct cf; try discriminate; reflexivity.
Qed.

Lemma customMatch_exact v t :
  includes v "," = false -> (v =? "")%string = false ->
  customIs "epic" v t = true ->
  customMatch "epic" (VStr v) t = Ok true.
Proof.
  intros Hc Hv H. unfold customIs in H.
  destruct (field "epic" (field "customFields" t)) as [| | | |s| |] eqn:E;
    try discriminate.
  apply String.eqb_eq in H. subst s.
  assert (T : truthy (field "epic" (field "customFields" t)) = true)
    by (rewrite E; simpl; now rewrite Hv).
  destruct (truthy_custom_value "epic" t T) as (cf & x & Hcf & Tcf & Hx & Tx).
  unfold field in E. rewrite Hcf, Hx in E. subst x.
  unfold customMatch. rewrite Hcf. cbn [bind]. rewrite Tcf. cbn [negb].
  rewrite Hx. cbn [bind]. rewrite Tx. cbn [negb call_includes toString bind].
  rewrite Hc. cbn [strict_eq]. now rewrite String.eqb_refl.
Qed.

Lemma customMatch_single v t :
  includes v "," = false -> (v =? "")%string = false ->
  nullish t = false ->
  containsOnlyAsWhole "epic" v t = true ->
  customMatch "epic" (VStr v) t = Ok (customIs "epic" v t).
Proof.
  intros Hc Hv Hn. unfold customMatch, customIs, containsOnlyAsWhole, field.
  destruct (get_not_nullish t "customFields" Hn) as (cf & ->). cbn [bind].
  destruct (truthy cf) eqn:Tcf; cbn [negb].
  - assert (nullish cf = false) as Hcf by (destruct cf; auto; discriminate).
    destruct (get_not_nullish cf "epic" Hcf) as (x & ->). cbn [bind].
    intros Hx. destruct x as [| | | |x| |]; simpl in Hx |- *;
      try discriminate; try reflexivity;
      try (apply negb_true_iff in Hx; rewrite Hx; reflexivity).
    destruct (x =? "")%string eqn:Ex; cbn [negb].
    + apply String.eqb_eq in Ex. subst x.
      now rewrite String.eqb_sym, Hv.
    + rewrite Hc. cbn [bind]. destruct (x =? v)%string; [reflexivity|].
      rewrite orb_false_r in Hx. apply negb_true_iff in Hx.
      cbn [call_includes toString]. now rewrite Hx.
  - intros _. destruct cf; try discriminate; reflexivity.
Qed.

(** The single-value path returns on a value that is falsy, a string or an
    array, and throws on any other. *)
Lemma customMatch_can_include k v t :
  nullish t = false -> canInclude k t = true ->
  exists b, customMatch k (VStr v) t = Ok b.
Proof.
  intros Hn. unfold customMatch, canInclude.
  destruct (get_not_nullish t "customFields" Hn) as (cf & Hcf).
  unfold field at 2. rewrite Hcf. cbn [bind].
  destruct (truthy cf) eqn:Tcf; cbn [negb]; [|eauto].
  assert (nullish cf = false) as Hc by (destruct cf; auto; discriminate).
  destruct (get_not_nullish cf k Hc) as (x & Hx).
  unfold field. rewrite Hx. cbn [bind]. intros Hx'.
  destruct (truthy x) eqn:Tx; cbn [negb]; [|eauto].
  cbn [call_includes toString bind].
  destruct (includes v ","); cbn [splitTrim bind]; [eauto|].
  destruct (strict_eq x (VStr v)); [eauto|].
  destruct x; cbn [call_includes]; eauto; cbn [truthy] in Tx, Hx';
    try discriminate; rewrite Tx in Hx'; discriminate.
Qed.

Lemma customMatch_cannot_include k v t :
  includes v "," = false -> canInclude k t = false ->
  customMatch k (VStr v) t = Throw TypeError.
Proof.
  intros Hv. unfold customMatch, canInclude, field.
  destruct (get t "customFields") as [cf|e] eqn:Hcf;
    [|now rewrite (error_unique e)].
  cbn [bind].
  destruct (get cf k) as [x|e] eqn:Hx; [|discriminate].
  intros Hc.
  assert (Tx : truthy x = true)
    by (destruct x; try discriminate; now apply negb_false_iff in Hc).
  assert (Tcf : truthy cf = true).
  { destruct cf; try reflexivity; cbn [get] in Hx; try discriminate;
      try (injection Hx as <-; discriminate).
    - cbn [truthy]. destruct (s =? "")%string eqn:Es; [|reflexivity].
      apply String.eqb_eq in Es. subst s.
      destruct (k =? "length")%string;
        [injection Hx as <-; discriminate|].
      destruct (array_index k) as [i|];
        [|injection Hx as <-; discriminate].
      injection Hx as <-. destruct i; discriminate. }
  rewrite Tcf. cbn [negb bind]. rewrite Tx.
  cbn [negb call_includes toString bind]. rewrite Hv.
  destruct (strict_eq x (VStr v)) eqn:E.
  - destruct x; try discriminate.
  - destruct x; try discriminate; reflexivity.
Qed.

Lemma filterM_returns {A} (f : A -> result bool) l :
  Forall (fun x => exists b, f x = Ok b) l -> exists r, filterM f l = Ok r.
Proof.
  induction 1 as [|x l (b & Hb) _ (r & Hr)]; cbn [filterM]; [eauto|].
  rewrite Hb, Hr. cbn [bind]. eauto.
Qed.

End QueryFilters.

Section StatusFilter.

Import QueryTranslator.

Lemma coreMatchCI_status v t :
  hasStringStatus t = true ->
  QueryTranslatorCI.coreMatch "status" (VStr v) t = Ok (statusMatches v t).
Proof.
  unfold hasStringStatus, statusMatches, field, QueryTranslatorCI.coreMatch.
  destruct (get t "status") as [[| | | |st| |]|e]; try discriminate.
  intros _. cbn [String.eqb Ascii.eqb Bool.eqb call_includes toString bind].
  destruct (includes v ","); reflexivity.
Qed.

(** The second copy of the translator filters on status without regard to
    case: with a comma the lower-cased status is looked up among the trimmed,
    lower-cased parts, without a comma the two lower-cased strings are
    compared. *)
Lemma status_filter_second_copy ts v :
  forallb hasStringStatus ts = true ->
  QueryTranslatorCI.filterTasks (VArr ts) (mkFilters [("status", VStr v)] [])
  = Ok (filter (statusMatches v) ts).
Proof.
  intros H. rewrite filterTasksCI_one_core. apply filterM_filter.
  forall_of H.
  intros t Ht. now apply coreMatchCI_status.
Qed.

(** The second copy calls [toLowerCase] on the status of every task it
    visits, so a task without a string status makes it throw. *)
Lemma status_filter_second_copy_needs_status v :
  QueryTranslatorCI.filterTasks (VArr [Examples.taskNoStatus])
    (mkFilters [("status", VStr v)] []) = Throw TypeError.
Proof.
  rewrite filterTasksCI_one_core.
  apply (filterM_Throw _ _ Examples.taskNoStatus); [now left|].
  unfold QueryTranslatorCI.coreMatch.
  cbn [String.eqb Ascii.eqb Bool.eqb call_includes toString bind].
  destruct (includes v ","); reflexivity.
Qed.

End StatusFilter.

(** C2, on the code.  The copy of [filterTasks] under [scripts/modules/utils]
    compares the status as it is written: the filter ["pending"] does not
    return a task whose status is ["Pending"], the filter ["progress"] returns
    the task whose status is ["in-progress"], and the parts of a comma list
    are matched case-sensitively.  The second copy lower-cases both sides and
    returns what the specification says on the same inputs. *)
Theorem C2_status_filter_case_sensitive :
  let only v := QueryTranslator.mkFilters [("status", VStr v)] [] in
  QueryTranslator.filterTasks Examples.statusTasks (only "pending") = Ok [] /\
  QueryTranslator.filterTasks Examples.statusTasks (only "progress")
    = Ok [Examples.taskInProgress] /\
  QueryTranslator.filterTasks Examples.statusTasks (only "PENDING, In-Progress")
    = Ok [] /\
  QueryTranslatorCI.filterTasks Examples.statusTasks (only "pending")
    = Ok [Examples.taskPending] /\
  QueryTranslatorCI.filterTasks Examples.statusTasks (only "progress") = Ok [] /\
  QueryTranslatorCI.filterTasks Examples.statusTasks
    (only "PENDING, In-Progress")
    = Ok [Examples.taskPending; Examples.taskInProgress].
Proof. repeat split; reflexivity. Qed.

(** C4, as the code has it.  On a task list without [null] entries the filter
    [{epic:"EPIC-1234,EPIC-5678"}] returns, in input order, exactly the tasks
    whose [customFields.epic] is the string ["EPIC-1234"] or the string
    ["EPIC-5678"].  The two single-value filters return exactly when the epic
    of every task is falsy, a string or an array, and throw otherwise; when
    they return, every task of the comma result is returned by one of them.
    When no task carries an epic that merely contains one of the two values,
    each single-value filter returns the tasks whose epic is its value, and
    the comma filter returns their union in input order. *)
Theorem C4_comma_filter_exact_values (ts : list value) :
  forallb (fun t => negb (nullish t)) ts = true ->
  let first := customIs "epic" "EPIC-1234" in
  let second := customIs "epic" "EPIC-5678" in
  QueryTranslator.queryTasks (VArr ts) Examples.epicBoth
    = Ok (filter (fun t => first t || second t) ts) /\
  (forallb (canInclude "epic") ts = true ->
   exists l1 l2,
     QueryTranslator.queryTasks (VArr ts) Examples.epicFirst = Ok l1 /\
     QueryTranslator.queryTasks (VArr ts) Examples.epicSecond = Ok l2 /\
     forall t, In t (filter (fun t => first t || second t) ts) ->
               In t l1 \/ In t l2) /\
  (forallb (canInclude "epic") ts = false ->
   QueryTranslator.queryTasks (VArr ts) Examples.epicFirst = Throw TypeError /\
   QueryTranslator.queryTasks (VArr ts) Examples.epicSecond
     = Throw TypeError) /\
  (forallb (containsOnlyAsWhole "epic" "EPIC-1234") ts = true ->
   forallb (containsOnlyAsWhole "epic" "EPIC-5678") ts = true ->
   QueryTranslator.queryTasks (VArr ts) Examples.epicFirst
     = Ok (filter first ts) /\
   QueryTranslator.queryTasks (VArr ts) Examples.epicSecond
     = Ok (filter second ts)).
Proof.
  intros H first second.
  change (QueryTranslator.queryTasks (VArr ts) Examples.epicBoth)
    with (QueryTranslator.filterTasks (VArr ts)
            (QueryTranslator.mkFilters []
               [("epic", VStr "EPIC-1234,EPIC-5678")])).
  change (QueryTranslator.queryTasks (VArr ts) Examples.epicFirst)
    with (QueryTranslator.filterTasks (VArr ts)
            (QueryTranslator.mkFilters [] [("epic", VStr "EPIC-1234")])).
  change (QueryTranslator.queryTasks (VArr ts) Examples.epicSecond)
    with (QueryTranslator.filterTasks (VArr ts)
            (QueryTranslator.mkFilters [] [("epic", VStr "EPIC-5678")])).
  rewrite !filterTasks_one_custom.
  assert (Hn : Forall (fun t => nullish t = false) ts).
  { forall_of H. intros t Ht. now apply negb_true_iff in Ht. }
  split; [|split; [|split]].
  - apply filterM_filter. eapply Forall_impl; [|exact Hn].
    intros t Ht. now apply customMatch_comma.
  - intros Hc.
    destruct (filterM_returns (QueryTranslator.customMatch "epic"
                                 (VStr "EPIC-1234")) ts) as (l1 & H1).
    { rewrite Forall_forall in Hn. rewrite forallb_forall in Hc.
      apply Forall_forall. intros t Ht.
      apply customMatch_can_include; auto. }
    destruct (filterM_returns (QueryTranslator.customMatch "epic"
                                 (VStr "EPIC-5678")) ts) as (l2 & H2).
    { rewrite Forall_forall in Hn. rewrite forallb_forall in Hc.
      apply Forall_forall. intros t Ht.
      apply customMatch_can_include; auto. }
    exists l1, l2. split; [exact H1|]. split; [exact H2|].
    intros t Ht. apply filter_In in Ht as (Hin & He).
    apply orb_true_iff in He as [He|He].
    + left. eapply filterM_In; [exact H1 | exact Hin|].
      now apply customMatch_exact.
    + right. eapply filterM_In; [exact H2 | exact Hin|].
      now apply customMatch_exact.
  - intros Hc.
    assert (exists t, In t ts /\ canInclude "epic" t = false)
      as (t & Ht & Hf).
    { clear -Hc. induction ts as [|t ts IH]; [discriminate|].
      cbn [forallb] in Hc. apply andb_false_iff in Hc as [Hc|Hc].
      - exists t. split; [now left | exact Hc].
      - destruct (IH Hc) as (x & Hx & Hf). exists x.
        split; [now right | exact Hf]. }
    split; apply (filterM_Throw _ _ t Ht);
      now apply customMatch_cannot_include.
  - intros C1 C2. rewrite Forall_forall in Hn.
    rewrite forallb_forall in C1, C2.
    split; apply filterM_filter; apply Forall_forall; intros t Ht;
      apply customMatch_single; auto.
Qed.

Lemma C4_witness :
  (QueryTranslator.queryTasks (VArr Examples.epicExactTaskList)
     Examples.epicBoth
     = Ok [Examples.taskEpic1234; Examples.taskEpic5678] /\
   QueryTranslator.queryTasks (VArr Examples.epicExactTaskList)
     Examples.epicFirst = Ok [Examples.taskEpic1234] /\
   QueryTranslator.queryTasks (VArr Examples.epicExactTaskList)
     Examples.epicSecond = Ok [Examples.taskEpic5678] /\
   exists l1 l2,
     QueryTranslator.queryTasks (VArr Examples.epicExactTaskList)
       Examples.epicFirst = Ok l1 /\
     QueryTranslator.queryTasks (VArr Examples.epicExactTaskList)
       Examples.epicSecond = Ok l2 /\
     forall t, In t [Examples.taskEpic1234; Examples.taskEpic5678] ->
               In t l1 \/ In t l2) /\
  (QueryTranslator.queryTasks
     (VArr [Examples.taskEpic1234; Examples.taskEpicNumber]) Examples.epicBoth
     = Ok [Examples.taskEpic1234] /\
   QueryTranslator.queryTasks
     (VArr [Examples.taskEpic1234; Examples.taskEpicNumber]) Examples.epicFirst
     = Throw TypeError /\
   QueryTranslator.queryTasks
     (VArr [Examples.taskEpic1234; Examples.taskEpicNumber])
     Examples.epicSecond = Throw TypeError).
Proof.
  split.
  - destruct (C4_comma_filter_exact_values Examples.epicExactTaskList eq_refl)
      as (Hboth & Hsome & _ & Hexact).
    destruct (Hexact eq_refl eq_refl) as (H1 & H2).
    split; [exact Hboth|]. split; [exact H1|]. split; [exact H2|].
    exact (Hsome eq_refl).
  - destruct (C4_comma_filter_exact_values
                [Examples.taskEpic1234; Examples.taskEpicNumber] eq_refl)
      as (Hboth & _ & Hthrow & _).
    split; [exact Hboth | exact (Hthrow eq_refl)].
Defined.

(** C4, as the specification words it, fails on a task whose epic is
    ["EPIC-12345"]: the single-value filter ["EPIC-1234"] returns it, by
    substring, and the comma filter does not. *)
Lemma C4_comma_is_not_union :
  QueryTranslator.queryTasks Examples.epicSubstringTasks Examples.epicBoth
    = Ok [] /\
  QueryTranslator.queryTasks Examples.epicSubstringTasks Examples.epicFirst
    = Ok [Examples.taskEpic12345] /\
  QueryTranslator.queryTasks Examples.epicSubstringTasks Examples.epicSecond
    = Ok [] /\
  ~ AsStated.commaIsUnion Examples.epicSubstringTasks.
Proof.
  repeat (split; [reflexivity|]).
  intros (l & l1 & l2 & H & H1 & _ & Hiff).
  vm_compute in H. vm_compute in H1.
  injection H as <-. injection H1 as <-.
  destruct (proj2 (Hiff Examples.taskEpic12345)) as [].
  left. now left.
Qed.

(** C10.  [translateQueryParameters] hands a filter value over as it is, and
    [filterTasks] then throws a [TypeError] when the value has no [includes]
    method ([null], [undefined], a boolean, a number, a plain object): for a
    [status] filter on any non-empty task list, and for a custom-field filter
    on any task list one of whose tasks carries a truthy value for that
    field.  The one name that is not handed over is [__proto__]: its
    assignment stores no filter, and the query returns every task. *)
Theorem C10_filter_throws_on_non_string_value (v : value) :
  lacksIncludes v = true ->
  (QueryTranslator.translateQueryParameters (VObj [("status", v)])
     = Ok (QueryTranslator.mkFilters [("status", v)] []) /\
   forall t ts,
     QueryTranslator.queryTasks (VArr (t :: ts)) (VObj [("status", v)])
       = Throw TypeError) /\
  (forall k,
     str_mem k QueryTranslator.CORE_FIELDS = false ->
     k <> "__proto__" ->
     QueryTranslator.translateQueryParameters (VObj [(k, v)])
       = Ok (QueryTranslator.mkFilters [] [(k, v)]) /\
     forall t ts,
       In t ts ->
       truthy (field k (field "customFields" t)) = true ->
       QueryTranslator.queryTasks (VArr ts) (VObj [(k, v)])
         = Throw TypeError) /\
  (QueryTranslator.translateQueryParameters (VObj [("__proto__", v)])
     = Ok (QueryTranslator.mkFilters [] []) /\
   forall ts,
     QueryTranslator.queryTasks (VArr ts) (VObj [("__proto__", v)]) = Ok ts).
Proof.
  intros Hv. split; [|split].
  - split; [reflexivity|]. intros t ts.
    change (QueryTranslator.queryTasks (VArr (t :: ts)) (VObj [("status", v)]))
      with (QueryTranslator.filterTasks (VArr (t :: ts))
              (QueryTranslator.mkFilters [("status", v)] [])).
    rewrite filterTasks_one_core.
    apply (filterM_Throw _ _ t); [now left|].
    now apply coreMatch_status_lacking.
  - intros k Hk Hp.
    assert (E : QueryTranslator.translateQueryParameters (VObj [(k, v)])
                = Ok (QueryTranslator.mkFilters [] [(k, v)])).
    { unfold QueryTranslator.translateQueryParameters, QueryTranslator.entries.
      cbn [nullish spread bind fold_left]. unfold QueryTranslator.route.
      rewrite Hk. apply String.eqb_neq in Hp. now rewrite Hp. }
    split; [exact E|]. intros t ts Hin Ht.
    unfold QueryTranslator.queryTasks. rewrite E. cbn [bind].
    rewrite filterTasks_one_custom.
    apply (filterM_Throw _ _ t Hin). now apply customMatch_lacking.
  - split; [reflexivity|]. intros ts. reflexivity.
Qed.

Lemma C10_witness :
  (QueryTranslator.translateQueryParameters (VObj [("status", VNull)])
     = Ok (QueryTranslator.mkFilters [("status", VNull)] []) /\
   forall t ts,
     QueryTranslator.queryTasks (VArr (t :: ts)) (VObj [("status", VNull)])
       = Throw TypeError) /\
  (QueryTranslator.translateQueryParameters (VObj [("epic", VNull)])
     = Ok (QueryTranslator.mkFilters [] [("epic", VNull)]) /\
   QueryTranslator.queryTasks (VArr Examples.epicTaskList)
     (VObj [("epic", VNull)]) = Throw TypeError).
Proof.
  destruct (C10_filter_throws_on_non_string_value VNull eq_refl)
    as (Hs & Hc & _).
  split; [exact Hs|].
  destruct (Hc "epic" eq_refl) as (Ht & Hq); [discriminate|].
  split; [exact Ht|].
  apply (Hq Examples.taskEpic1234); [now left | reflexivity].
Defined.

(** ** fuzzyTaskSearch.js *)

Section SearchKeys.

Import FuzzyTaskSearch.

Lemma foldM_fixed {A B} (f : A -> B -> result A) l acc :
  Forall (fun x => forall a, f a x = Ok a) l -> foldM f acc l = Ok acc.
Proof.
  induction 1 as [|x l Hx _ IH]; simpl; auto. now rewrite Hx.
Qed.

Lemma foldM_app {A B} (f : A -> B -> result A) l1 l2 acc :
  foldM f acc (l1 ++ l2) = (a <- foldM f acc l1 ;; foldM f a l2).
Proof.
  revert acc. induction l1 as [|x l1 IH]; intros acc; simpl; auto.
  destruct (f acc x); simpl; auto.
Qed.

Lemma str_mem_false x l :
  str_mem x l = false -> forall y, In y l -> (x =? y)%string = false.
Proof.
  unfold str_mem. intros H y Hy.
  destruct (x =? y)%string eqn:E; [|reflexivity].
  rewrite <- H. symmetry. apply existsb_exists. eauto.
Qed.

Lemma fold_left_add_fresh ks :
  nodupb ks = true ->
  forall acc,
    (forall k, In k ks -> str_mem k acc = false) ->
    fold_left add ks acc = (acc ++ ks)%list.
Proof.
  induction ks as [|k ks IH]; simpl; intros H acc Hacc.
  - now rewrite app_nil_r.
  - apply andb_prop in H as (Hk & Hks). apply negb_true_iff in Hk.
    unfold add at 2. rewrite (Hacc k (or_introl eq_refl)).
    rewrite IH; [now rewrite <- app_assoc | exact Hks|].
    intros k' Hk'. unfold str_mem. rewrite existsb_app. simpl.
    fold (str_mem k' acc). rewrite (Hacc k' (or_intror Hk')).
    rewrite String.eqb_sym, (str_mem_false k ks Hk k' Hk'). reflexivity.
Qed.

Lemma addFieldsOf_none names item :
  noCustomFields item = true -> addFieldsOf names item = Ok names.
Proof.
  unfold noCustomFields, addFieldsOf, field. intros H.
  apply andb_prop in H as (Ho & Hcf). apply is_object_inv in Ho as (o & ->).
  destruct (get_object_Ok o "customFields") as (cf & E). rewrite E in *.
  cbn [bind]. destruct cf as [| | | | | |[|p q]]; simpl in Hcf |- *;
    try discriminate; try reflexivity.
  - now destruct b.
  - now destruct (n =? 0).
  - apply negb_true_iff in Hcf. now rewrite Hcf.
Qed.

Lemma addFieldsOfTask_none names t :
  noCustomTask t = true -> addFieldsOfTask names t = Ok names.
Proof.
  unfold noCustomTask, addFieldsOfTask. intros H.
  apply andb_prop in H as (Hc & Hs). rewrite (addFieldsOf_none _ _ Hc).
  cbn [bind]. unfold noCustomFields in Hc. apply andb_prop in Hc as (Ho & _).
  apply is_object_inv in Ho as (o & ->). unfold field in Hs.
  destruct (get_object_Ok o "subtasks") as (st & E). rewrite E in *.
  cbn [bind]. destruct (truthy st) eqn:T.
  - destruct st; simpl in T, Hs; try discriminate;
      try (rewrite T in Hs; discriminate).
    apply foldM_fixed. forall_of Hs. intros s Hs' a.
    now apply addFieldsOf_none.
  - reflexivity.
Qed.

(** A task without custom fields to which the fields [fs] are added. *)
Lemma addFieldsOfTask_added names o fs :
  noCustomTask (VObj o) = true ->
  addFieldsOfTask names (VObj (assign "customFields" (VObj fs) o))
  = Ok (fold_left add (map fst fs) names).
Proof.
  unfold noCustomTask, addFieldsOfTask. intros H.
  apply andb_prop in H as (_ & Hs). unfold addFieldsOf.
  rewrite get_assign_same. cbn [bind truthy spread].
  rewrite get_assign_other by discriminate. unfold field in Hs.
  destruct (get_object_Ok o "subtasks") as (st & E). rewrite E in *.
  cbn [bind]. destruct (truthy st) eqn:T.
  - destruct st; simpl in T, Hs; try discriminate;
      try (rewrite T in Hs; discriminate).
    apply foldM_fixed. forall_of Hs. intros s Hs' a.
    now apply addFieldsOf_none.
  - reflexivity.
Qed.

Lemma getCustomFieldNames_none ts :
  forallb noCustomTask ts = true -> getCustomFieldNames (VArr ts) = Ok [].
Proof.
  intros H. unfold getCustomFieldNames. apply foldM_fixed.
  forall_of H.
  intros t Ht a. now apply addFieldsOfTask_none.
Qed.

Lemma getCustomFieldNames_added pre o post fs :
  forallb noCustomTask (pre ++ VObj o :: post) = true ->
  nodupb (map fst fs) = true ->
  getCustomFieldNames
    (VArr (pre ++ VObj (assign "customFields" (VObj fs) o) :: post))
  = Ok (map fst fs).
Proof.
  intros H Hn. rewrite forallb_app in H. apply andb_prop in H as (Hpre & H).
  simpl in H. apply andb_prop in H as (Ho & Hpost).
  unfold getCustomFieldNames. rewrite foldM_app.
  rewrite (foldM_fixed addFieldsOfTask pre []).
  - cbn [bind foldM]. rewrite (addFieldsOfTask_added _ _ _ Ho). cbn [bind].
    rewrite (fold_left_add_fresh _ Hn) by reflexivity. cbn [app].
    apply foldM_fixed. forall_of Hpost. intros t Ht a.
    now apply addFieldsOfTask_none.
  - forall_of Hpre.
    intros t Ht a. now apply addFieldsOfTask_none.
Qed.

End SearchKeys.

(** C9, as the code has it.  On a task set without custom fields
    [generateSearchKeys] yields the four keys [title], [description],
    [details] and [dependencyTitles] with the weights 2.0, 1.5, 1.0 and 0.5;
    after fifty distinct custom fields are added to one task of the set it
    yields 54 keys, the four core keys first and then one key
    ["customFields.<name>"] per field name, in the order of the fields, each
    with the weight [getWeightForField] gives its name. *)
Theorem C9_search_keys (pre post : list value) (o fs : props) :
  forallb noCustomTask (pre ++ VObj o :: post) = true ->
  nodupb (map fst fs) = true ->
  List.length fs = 50%nat ->
  let core :=
    [FuzzyTaskSearch.mkKey "title" (FuzzyTaskSearch.WNumber (2 # 1));
     FuzzyTaskSearch.mkKey "description" (FuzzyTaskSearch.WNumber (3 # 2));
     FuzzyTaskSearch.mkKey "details" (FuzzyTaskSearch.WNumber (1 # 1));
     FuzzyTaskSearch.mkKey "dependencyTitles"
       (FuzzyTaskSearch.WNumber (1 # 2))] in
  FuzzyTaskSearch.generateSearchKeys (VArr (pre ++ VObj o :: post)) = Ok core /\
  exists ks,
    FuzzyTaskSearch.generateSearchKeys
      (VArr (pre ++ VObj (assign "customFields" (VObj fs) o) :: post)) = Ok ks /\
    List.length ks = 54%nat /\
    ks = (core ++
          map (fun f => FuzzyTaskSearch.mkKey
                          ("customFields." ++ f)
                          (FuzzyTaskSearch.getWeightForField f))
              (map fst fs))%list.
Proof.
  intros H Hn Hl core. unfold FuzzyTaskSearch.generateSearchKeys. split.
  - now rewrite (getCustomFieldNames_none _ H).
  - rewrite (getCustomFieldNames_added _ _ _ _ H Hn). cbn [bind].
    eexists. split; [reflexivity|]. split; [|reflexivity].
    rewrite length_app, !length_map, Hl. reflexivity.
Qed.

Lemma C9_witness :
  let core :=
    [FuzzyTaskSearch.mkKey "title" (FuzzyTaskSearch.WNumber (2 # 1));
     FuzzyTaskSearch.mkKey "description" (FuzzyTaskSearch.WNumber (3 # 2));
     FuzzyTaskSearch.mkKey "details" (FuzzyTaskSearch.WNumber (1 # 1));
     FuzzyTaskSearch.mkKey "dependencyTitles"
       (FuzzyTaskSearch.WNumber (1 # 2))] in
  FuzzyTaskSearch.generateSearchKeys
    (VArr (Examples.tasksWithoutCustom ++ [VObj Examples.complexTask]))
    = Ok core /\
  exists ks,
    FuzzyTaskSearch.generateSearchKeys
      (VArr (Examples.tasksWithoutCustom ++
             [VObj (assign "customFields" (VObj Examples.fiftyFields)
                           Examples.complexTask)])) = Ok ks /\
    List.length ks = 54%nat /\
    ks = (core ++
          map (fun f => FuzzyTaskSearch.mkKey
                          ("customFields." ++ f)
                          (FuzzyTaskSearch.getWeightForField f))
              (map fst Examples.fiftyFields))%list.
Proof.
  apply (C9_search_keys Examples.tasksWithoutCustom [] Examples.complexTask
           Examples.fiftyFields); vm_compute; reflexivity.
Defined.

(** C9, as the specification words it, fails on the two tasks of the test
    that have no custom field: the code yields four keys, not three. *)
Lemma C9_four_core_keys :
  FuzzyTaskSearch.generateSearchKeys (VArr Examples.tasksWithoutCustom)
  = Ok [FuzzyTaskSearch.mkKey "title" (FuzzyTaskSearch.WNumber (2 # 1));
        FuzzyTaskSearch.mkKey "description" (FuzzyTaskSearch.WNumber (3 # 2));
        FuzzyTaskSearch.mkKey "details" (FuzzyTaskSearch.WNumber (1 # 1));
        FuzzyTaskSearch.mkKey "dependencyTitles"
       (FuzzyTaskSearch.WNumber (1 # 2))] /\
  ~ AsStated.threeKeysWithoutCustomFields Examples.tasksWithoutCustom.
Proof.
  split; [reflexivity|].
  intros H. destruct (H eq_refl) as (ks & Hk & Hl).
  vm_compute in Hk. injection Hk as <-. discriminate Hl.
Qed.

(** ** queryTranslator.js: the edit distance *)

Section EditDistance.

Import QueryTranslator.

Lemma editDistance_nil_l ra : editDistance [] ra = List.length ra.
Proof. now destruct ra. Qed.

Lemma editDistance_nil_r rb : editDistance rb [] = List.length rb.
Proof. now destruct rb. Qed.

Lemma editDistance_cons x rb y ra :
  editDistance (x :: rb) (y :: ra) =
  if (x =? y)%char then editDistance rb ra
  else Nat.min (editDistance rb ra + 1)
               (Nat.min (editDistance (x :: rb) ra + 1)
                        (editDistance rb (y :: ra) + 1)).
Proof. reflexivity. Qed.

Lemma editDistance_refl l : editDistance l l = 0%nat.
Proof.
  induction l as [|x l IH]; [reflexivity|].
  rewrite editDistance_cons. now rewrite Ascii.eqb_refl.
Qed.

Lemma editDistance_sym x : forall y, editDistance x y = editDistance y x.
Proof.
  induction x as [|a x IHx]; intros y.
  - now rewrite editDistance_nil_l, editDistance_nil_r.
  - induction y as [|b y IHy].
    + now rewrite editDistance_nil_l, editDistance_nil_r.
    + rewrite !editDistance_cons, (Ascii.eqb_sym b a).
      rewrite (IHx y), (IHx (b :: y)), IHy.
      destruct (a =? b)%char; [reflexivity|]. lia.
Qed.

Lemma editDistance_bounds x :
  forall y,
    (List.length x <= List.length y + editDistance x y /\
     List.length y <= List.length x + editDistance x y /\
     editDistance x y <= Nat.max (List.length x) (List.length y))%nat.
Proof.
  induction x as [|a x IHx]; intros y.
  - rewrite editDistance_nil_l. simpl. lia.
  - induction y as [|b y IHy].
    + rewrite editDistance_nil_r. simpl. lia.
    + rewrite editDistance_cons.
      pose proof (IHx y). pose proof (IHx (b :: y)).
      cbn [List.length] in *.
      destruct (a =? b)%char; lia.
Qed.

Lemma editDistance_zero x : forall y, editDistance x y = 0%nat -> x = y.
Proof.
  induction x as [|a x IHx]; intros y H.
  - rewrite editDistance_nil_l in H. now destruct y.
  - destruct y as [|b y].
    + rewrite editDistance_nil_r in H. discriminate.
    + rewrite editDistance_cons in H.
      destruct (a =? b)%char eqn:E; [|lia].
      apply Ascii.eqb_eq in E. subst b. f_equal. now apply IHx.
Qed.

Lemma rowOf_nil ra a :
  rowOf [] ra a = seq (List.length ra) (S (String.length a)).
Proof.
  revert ra. induction a as [|c a IH]; intros ra; simpl.
  - now rewrite editDistance_nil_l.
  - rewrite editDistance_nil_l. f_equal. apply (IH (c :: ra)).
Qed.

Lemma fillRow_rowOf a : forall bc rb ra,
  fillRow bc a (rowOf rb ra a) (editDistance (bc :: rb) ra)
  = tl (rowOf (bc :: rb) ra a).
Proof.
  induction a as [|ac a IH]; intros bc rb ra; [reflexivity|].
  cbn [rowOf tl].
  assert (E : rowOf rb (ac :: ra) a
              = editDistance rb (ac :: ra) :: tl (rowOf rb (ac :: ra) a))
    by now destruct a.
  rewrite E at 1. cbn [fillRow]. rewrite <- E.
  rewrite <- editDistance_cons.
  assert (E' : rowOf (bc :: rb) (ac :: ra) a
               = editDistance (bc :: rb) (ac :: ra)
                 :: tl (rowOf (bc :: rb) (ac :: ra) a))
    by now destruct a.
  rewrite E'. f_equal. apply IH.
Qed.

Lemma nextRow_rowOf a bc rb :
  nextRow bc a (rowOf rb [] a) (S (List.length rb)) = rowOf (bc :: rb) [] a.
Proof.
  unfold nextRow.
  change (S (List.length rb)) with (List.length (bc :: rb)).
  rewrite <- (editDistance_nil_r (bc :: rb)) at 2.
  rewrite fillRow_rowOf. now destruct a.
Qed.

Lemma lastRow_rowOf b : forall a rb,
  lastRow b a (rowOf rb [] a) (S (List.length rb))
  = rowOf (rev (list_ascii_of_string b) ++ rb) [] a.
Proof.
  induction b as [|bc b IH]; intros a rb; [reflexivity|].
  cbn [lastRow list_ascii_of_string rev]. rewrite nextRow_rowOf.
  etransitivity; [exact (IH a (bc :: rb))|]. now rewrite <- app_assoc.
Qed.

Lemma last_rowOf a : forall rb ra,
  last (rowOf rb ra a) 0%nat
  = editDistance rb (rev (list_ascii_of_string a) ++ ra).
Proof.
  induction a as [|c a IH]; intros rb ra; [reflexivity|].
  cbn [rowOf list_ascii_of_string rev]. rewrite <- app_assoc. cbn [app].
  rewrite <- (IH rb (c :: ra)). now destruct a.
Qed.

(** The matrix computes the edit distance of the two reversed strings. *)
Lemma levenshteinDistance_editDistance a b :
  levenshteinDistance a b
  = editDistance (rev (list_ascii_of_string b)) (rev (list_ascii_of_string a)).
Proof.
  unfold levenshteinDistance, firstRow.
  change (seq 0 (S (String.length a)))
    with (seq (@List.length ascii []) (S (String.length a))).
  rewrite <- (rowOf_nil [] a).
  change 1%nat with (S (@List.length ascii [])).
  rewrite (lastRow_rowOf b a []). rewrite last_rowOf.
  now rewrite !app_nil_r.
Qed.

Lemma list_ascii_of_string_inj a b :
  list_ascii_of_string a = list_ascii_of_string b -> a = b.
Proof.
  intros H. rewrite <- (string_of_list_ascii_of_string a),
              <- (string_of_list_ascii_of_string b). now rewrite H.
Qed.

Lemma length_list_ascii_of_string a :
  List.length (list_ascii_of_string a) = String.length a.
Proof. induction a; simpl; auto. Qed.

End EditDistance.

(** X1.  [levenshteinDistance] is zero exactly on equal strings and does not
    depend on the order of its arguments. *)
Theorem X1_levenshtein_identity_symmetry (a b : string) :
  (QueryTranslator.levenshteinDistance a b = 0%nat <-> a = b) /\
  QueryTranslator.levenshteinDistance a b
  = QueryTranslator.levenshteinDistance b a.
Proof.
  rewrite !levenshteinDistance_editDistance. split; [split|].
  - intros H. apply editDistance_zero in H.
    apply list_ascii_of_string_inj.
    rewrite <- (rev_involutive (list_ascii_of_string a)),
            <- (rev_involutive (list_ascii_of_string b)).
    now rewrite H.
  - intros ->. apply editDistance_refl.
  - apply editDistance_sym.
Qed.

(** X2.  [levenshteinDistance] lies between the difference of the two
    lengths and the larger length; against the empty string it is the length
    of the other string. *)
Theorem X2_levenshtein_bounds (a b : string) :
  (String.length a - String.length b
     <= QueryTranslator.levenshteinDistance a b /\
   String.length b - String.length a
     <= QueryTranslator.levenshteinDistance a b /\
   QueryTranslator.levenshteinDistance a b
     <= Nat.max (String.length a) (String.length b) /\
   QueryTranslator.levenshteinDistance a "" = String.length a /\
   QueryTranslator.levenshteinDistance "" b = String.length b)%nat.
Proof.
  rewrite !levenshteinDistance_editDistance.
  pose proof (editDistance_bounds (rev (list_ascii_of_string b))
                (rev (list_ascii_of_string a))) as H.
  rewrite !length_rev, !length_list_ascii_of_string in H.
  cbn [list_ascii_of_string rev].
  rewrite editDistance_nil_l, editDistance_nil_r.
  rewrite !length_rev, !length_list_ascii_of_string. lia.
Qed.

(** ** queryTranslator.js: suggestions *)

Section Suggestions.

Import QueryTranslator.

Lemma findTruthy_Some p l f :
  findTruthy p l = Some f -> In f l /\ p f = true.
Proof.
  unfold findTruthy. destruct (find p l) as [s|] eqn:E; [|discriminate].
  destruct (s =? "")%string; [discriminate|]. intros [= <-].
  now apply find_some in E.
Qed.

Lemma findTruthy_None p l :
  Forall (fun f => f <> "") l ->
  findTruthy p l = None -> forall f, In f l -> p f = false.
Proof.
  unfold findTruthy. intros Hne H f Hf.
  destruct (find p l) as [s|] eqn:E.
  - apply find_some in E as (Hs & _). rewrite Forall_forall in Hne.
    apply Hne in Hs. apply String.eqb_neq in Hs. rewrite Hs in H.
    discriminate.
  - now apply (find_none _ _ E).
Qed.

Lemma includes_prefix s sub : prefix sub s = true -> includes s sub = true.
Proof. intros H. destruct s; cbn [includes]; now rewrite H. Qed.

Lemma prefix_self s : prefix s s = true.
Proof.
  induction s as [|c s IH]; [reflexivity|]. simpl.
  destruct (ascii_dec c c); [exact IH | contradiction].
Qed.

(** The head of the sorted candidates is a candidate none is nearer than,
    and the first of those that are as near. *)
Lemma sortByDistance_head l :
  match sortByDistance l with
  | [] => l = []
  | h :: _ =>
      exists pre post,
        l = (pre ++ h :: post)%list /\
        (forall y, In y pre -> (snd h < snd y)%nat) /\
        (forall y, In y post -> (snd h <= snd y)%nat)
  end.
Proof.
  induction l as [|x l IH]; [reflexivity|]. cbn [sortByDistance fold_right].
  fold (sortByDistance l). destruct (sortByDistance l) as [|h r].
  - subst l. cbn. exists [], []. repeat split; intros y [].
  - destruct IH as (pre & post & -> & Hpre & Hpost). cbn [insertByDistance].
    destruct (Nat.leb_spec (snd x) (snd h)) as [L|L].
    + exists [], (pre ++ h :: post)%list. repeat split; [intros y []|].
      intros y Hy. apply in_app_or in Hy as [Hy|[<-|Hy]].
      * specialize (Hpre y Hy). lia.
      * exact L.
      * specialize (Hpost y Hy). lia.
    + exists (x :: pre), post. repeat split; [|exact Hpost].
      intros y [<-|Hy]; [exact L | now apply Hpre].
Qed.

Lemma suggest_candidates_nil input l :
  filter (fun fd : string * nat => (snd fd <=? 2)%nat)
         (map (fun f => (f, levenshteinDistance input (toLowerCase f))) l) = []
  <-> forall f, In f l ->
                (2 < levenshteinDistance input (toLowerCase f))%nat.
Proof.
  induction l as [|x l IH]; simpl.
  - split; [intros _ f [] | reflexivity].
  - destruct (Nat.leb_spec (levenshteinDistance input (toLowerCase x)) 2)
      as [L|L].
    + split; [discriminate|]. intros H. specialize (H x (or_introl eq_refl)).
      lia.
    + rewrite IH. split.
      * intros H f [<-|Hf]; auto.
      * intros H f Hf. apply H. now right.
Qed.

End Suggestions.

(** X3.  [suggestFieldName] only ever suggests one of the available fields;
    when no available field is the empty string, it returns [null] exactly
    when no field contains the input, case ignored, and none is within edit
    distance 2 of it. *)
Theorem X3_suggestion_is_available (input : string) (available : list string) :
  (forall f, QueryTranslator.suggestFieldName input available = Some f ->
             In f available) /\
  (Forall (fun f => f <> "") available ->
   (QueryTranslator.suggestFieldName input available = None <->
    forall f, In f available ->
      includes (toLowerCase f) (toLowerCase input) = false /\
      (2 < QueryTranslator.levenshteinDistance (toLowerCase input)
                                               (toLowerCase f))%nat)).
Proof.
  unfold QueryTranslator.suggestFieldName.
  set (li := toLowerCase input).
  set (cands := filter _ _).
  destruct (QueryTranslator.findTruthy
              (fun f => (toLowerCase f =? li)%string) available)
    as [e|] eqn:E1.
  { apply findTruthy_Some in E1 as (Hin & He). split.
    - now intros f [= <-].
    - intros _. split; [discriminate|]. intros H.
      destruct (H e Hin) as (Hc & _). apply String.eqb_eq in He.
      rewrite He in Hc. rewrite includes_prefix in Hc; [discriminate|].
      apply prefix_self. }
  destruct (QueryTranslator.findTruthy (fun f => prefix li (toLowerCase f))
              available) as [e|] eqn:E2.
  { apply findTruthy_Some in E2 as (Hin & He). split.
    - now intros f [= <-].
    - intros _. split; [discriminate|]. intros H.
      destruct (H e Hin) as (Hc & _).
      rewrite includes_prefix in Hc; [discriminate | exact He]. }
  destruct (QueryTranslator.findTruthy
              (fun f => includes (toLowerCase f) li) available)
    as [e|] eqn:E3.
  { apply findTruthy_Some in E3 as (Hin & He). split.
    - now intros f [= <-].
    - intros _. split; [discriminate|]. intros H.
      destruct (H e Hin) as (Hc & _). rewrite He in Hc. discriminate. }
  pose proof (sortByDistance_head cands) as Hs.
  destruct (QueryTranslator.sortByDistance cands) as [|h r]; split.
  - discriminate.
  - intros Hne. split; [|reflexivity]. intros _ f Hf. split.
    + exact (findTruthy_None _ _ Hne E3 f Hf).
    + revert f Hf. now apply suggest_candidates_nil.
  - intros f [= <-]. destruct Hs as (pre & post & Hc & _).
    assert (Hh : In h cands) by (rewrite Hc; apply in_elt).
    apply filter_In in Hh as (Hh & _). apply in_map_iff in Hh as (f & <- & Hf).
    exact Hf.
  - intros _. split; [discriminate|]. intros H. exfalso.
    destruct Hs as (pre & post & Hc & _).
    assert (Hn : cands = []) by (apply suggest_candidates_nil; apply H).
    rewrite Hn in Hc. now destruct pre.
Qed.

Lemma X3_witness :
  (QueryTranslator.suggestFieldName "xyz" ["epic"; "component"; "sprint"] = None
   <->
   forall f, In f ["epic"; "component"; "sprint"] ->
     includes (toLowerCase f) (toLowerCase "xyz") = false /\
     (2 < QueryTranslator.levenshteinDistance (toLowerCase "xyz")
                                              (toLowerCase f))%nat).
Proof.
  apply (X3_suggestion_is_available "xyz" ["epic"; "component"; "sprint"]).
  repeat constructor; discriminate.
Defined.

Section NearestField.

Import QueryTranslator.

Lemma findTruthy_all_false p l :
  (forall f, In f l -> p f = false) -> findTruthy p l = None.
Proof.
  intros H. unfold findTruthy. destruct (find p l) as [s|] eqn:E; auto.
  apply find_some in E as (Hs & Hp). rewrite (H s Hs) in Hp. discriminate.
Qed.

Lemma filter_map_split {A B} (g : A -> B) (p : B -> bool) l :
  forall pre h post,
    filter p (map g l) = (pre ++ h :: post)%list ->
    exists l1 x l2,
      l = (l1 ++ x :: l2)%list /\ g x = h /\
      pre = filter p (map g l1) /\ post = filter p (map g l2).
Proof.
  induction l as [|a l IH]; intros pre h post H; simpl in H.
  - now destruct pre.
  - destruct (p (g a)) eqn:E.
    + destruct pre as [|b pre]; simpl in H; injection H as Hh Ht.
      * exists [], a, l. repeat split; auto.
      * destruct (IH _ _ _ Ht) as (l1 & x & l2 & -> & Hx & -> & ->).
        exists (a :: l1), x, l2. simpl. rewrite E. subst b. repeat split; auto.
    + destruct (IH _ _ _ H) as (l1 & x & l2 & -> & Hx & -> & ->).
      exists (a :: l1), x, l2. simpl. rewrite E. repeat split; auto.
Qed.

End NearestField.

(** X4.  When no available field contains the input, case ignored,
    [suggestFieldName] returns the field at the smallest edit distance from
    it, the first one if several are as near, provided that distance is at
    most 2; it returns [null] when every field is farther than 2. *)
Theorem X4_suggestion_nearest (input : string) (available : list string) :
  (forall g, In g available ->
             includes (toLowerCase g) (toLowerCase input) = false) ->
  let dist g :=
    QueryTranslator.levenshteinDistance (toLowerCase input) (toLowerCase g) in
  match QueryTranslator.suggestFieldName input available with
  | Some f =>
      (dist f <= 2)%nat /\
      exists before after,
        available = (before ++ f :: after)%list /\
        (forall g, In g before -> (dist f < dist g)%nat) /\
        (forall g, In g after -> (dist f <= dist g)%nat)
  | None => forall g, In g available -> (2 < dist g)%nat
  end.
Proof.
  intros H dist. unfold QueryTranslator.suggestFieldName.
  rewrite (findTruthy_all_false
             (fun f => (toLowerCase f =? toLowerCase input)%string)).
  2:{ intros f Hf. destruct (toLowerCase f =? toLowerCase input)%string eqn:E;
        [|reflexivity].
      apply String.eqb_eq in E. specialize (H f Hf). rewrite E in H.
      rewrite includes_prefix in H; [discriminate | apply prefix_self]. }
  rewrite (findTruthy_all_false
             (fun f => prefix (toLowerCase input) (toLowerCase f))).
  2:{ intros f Hf.
      destruct (prefix (toLowerCase input) (toLowerCase f)) eqn:E;
        [|reflexivity].
      specialize (H f Hf). rewrite includes_prefix in H;
        [discriminate | exact E]. }
  rewrite (findTruthy_all_false
             (fun f => includes (toLowerCase f) (toLowerCase input)) _ H).
  set (cands := filter _ _).
  pose proof (sortByDistance_head cands) as Hs.
  destruct (QueryTranslator.sortByDistance cands) as [|h r].
  - now apply suggest_candidates_nil.
  - destruct Hs as (pre & post & Hc & Hpre & Hpost).
    destruct (filter_map_split _ _ _ _ _ _ Hc)
      as (l1 & x & l2 & -> & <- & -> & ->).
    cbn [fst snd] in *.
    assert (Hx : (dist x <= 2)%nat).
    { assert (Hin : In (x, dist x) cands) by (rewrite Hc; apply in_elt).
      apply filter_In in Hin as (_ & Hle). now apply Nat.leb_le in Hle. }
    split; [exact Hx|]. exists l1, l2. split; [reflexivity|]. split.
    + intros g Hg. destruct (Nat.leb_spec (dist g) 2) as [L|L]; [|lia].
      apply (Hpre (g, dist g)). apply filter_In. split.
      * apply in_map_iff. now exists g.
      * now apply Nat.leb_le.
    + intros g Hg. destruct (Nat.leb_spec (dist g) 2) as [L|L]; [|lia].
      apply (Hpost (g, dist g)). apply filter_In. split.
      * apply in_map_iff. now exists g.
      * now apply Nat.leb_le.
Qed.

Lemma X4_witness :
  let available := ["sprint"; "epic"; "topic"] in
  let dist g :=
    QueryTranslator.levenshteinDistance (toLowerCase "epci") (toLowerCase g) in
  match QueryTranslator.suggestFieldName "epci" available with
  | Some f =>
      (dist f <= 2)%nat /\
      exists before after,
        available = (before ++ f :: after)%list /\
        (forall g, In g before -> (dist f < dist g)%nat) /\
        (forall g, In g after -> (dist f <= dist g)%nat)
  | None => forall g, In g available -> (2 < dist g)%nat
  end.
Proof.
  apply (X4_suggestion_nearest "epci" ["sprint"; "epic"; "topic"]).
  intros g [<-|[<-|[<-|[]]]]; reflexivity.
Defined.

(** ** queryTranslator.js: classification and validation of parameters *)

Section Classification.

Import QueryTranslator.

Lemma str_mem_In x l : str_mem x l = true <-> In x l.
Proof.
  unfold str_mem. rewrite existsb_exists. split.
  - intros (y & Hy & E). apply String.eqb_eq in E. now subst.
  - intros H. exists x. split; [exact H | apply String.eqb_refl].
Qed.

Lemma str_mem_not_In x l : str_mem x l = false <-> ~ In x l.
Proof.
  rewrite <- str_mem_In. destruct (str_mem x l); split; auto; try discriminate.
  intros H. now contradiction H.
Qed.

Lemma lookup_None_keys k o : ~ In k (map fst o) -> lookup k o = None.
Proof.
  induction o as [|[k' v'] o IH]; simpl; [reflexivity|]. intros H.
  destruct (k =? k')%string eqn:E.
  - apply String.eqb_eq in E. subst. contradiction H. now left.
  - apply IH. intros Hin. apply H. now right.
Qed.

Lemma assign_fresh k v o :
  ~ In k (map fst o) -> assign k v o = (o ++ [(k, v)])%list.
Proof.
  induction o as [|[k' v'] o IH]; simpl; [reflexivity|]. intros H.
  destruct (k =? k')%string eqn:E.
  - apply String.eqb_eq in E. subst. contradiction H. now left.
  - rewrite IH; [reflexivity|]. intros Hin. apply H. now right.
Qed.

Lemma nodupb_cons k l :
  nodupb (k :: l) = true -> ~ In k l /\ nodupb l = true.
Proof.
  simpl. intros H. apply andb_prop in H as (Hk & Hl).
  apply negb_true_iff in Hk. split; [now apply str_mem_not_In | exact Hl].
Qed.

Lemma route_fold es : forall core custom,
  distinctKeys es = true ->
  ~ In "__proto__" (map fst es) ->
  (forall k, In k (map fst es) ->
             ~ In k (map fst core) /\ ~ In k (map fst custom)) ->
  fold_left route es (mkFilters core custom)
  = mkFilters (core ++ filter isCore es)%list
              (custom ++ filter (fun e => negb (isCore e)) es)%list.
Proof.
  unfold distinctKeys.
  induction es as [|[k v] es IH]; intros core custom Hd Hp Hf.
  - simpl. now rewrite !app_nil_r.
  - cbn [map fst] in Hd, Hp. apply nodupb_cons in Hd as (Hk & Hd).
    assert (Hp' : ~ In "__proto__" (map fst es))
      by (intros Hin; apply Hp; now right).
    assert (Ep : (k =? "__proto__")%string = false)
      by (apply String.eqb_neq; intros ->; apply Hp; now left).
    destruct (Hf k (or_introl eq_refl)) as (Hc & Hcu).
    assert (Ek : isCore (k, v) = str_mem k CORE_FIELDS) by reflexivity.
    cbn [fold_left route filter]. rewrite !Ek, Ep.
    cbn [coreFields customFields].
    destruct (str_mem k CORE_FIELDS) eqn:E; cbn [negb].
    + rewrite (assign_fresh _ _ _ Hc). rewrite IH; [|exact Hd|exact Hp'|].
      * now rewrite <- app_assoc.
      * intros k' Hk'. destruct (Hf k' (or_intror Hk')) as (H1 & H2).
        split; [|exact H2]. rewrite map_app. intros Hin.
        apply in_app_or in Hin as [Hin|[<-|[]]]; [now apply H1|].
        now apply Hk.
    + rewrite (assign_fresh _ _ _ Hcu). rewrite IH; [|exact Hd|exact Hp'|].
      * now rewrite <- app_assoc.
      * intros k' Hk'. destruct (Hf k' (or_intror Hk')) as (H1 & H2).
        split; [exact H1|]. rewrite map_app. intros Hin.
        apply in_app_or in Hin as [Hin|[<-|[]]]; [now apply H2|].
        now apply Hk.
Qed.

Lemma translate_partition es :
  ordinaryKeys es = true ->
  translateQueryParameters (VObj es)
  = Ok (mkFilters (filter isCore es) (filter (fun e => negb (isCore e)) es)).
Proof.
  intros H. apply andb_prop in H as (H & Hp).
  apply negb_true_iff, str_mem_not_In in Hp.
  unfold translateQueryParameters, entries. cbn [nullish spread bind].
  rewrite route_fold; auto.
Qed.

Lemma reserved_is_core k :
  str_mem k RESERVED_FIELD_NAMES = true -> str_mem k CORE_FIELDS = true.
Proof.
  rewrite !str_mem_In. unfold RESERVED_FIELD_NAMES, CORE_FIELDS.
  simpl. intuition.
Qed.

End Classification.

(** X5. [translateQueryParameters] splits the entries of a parameter object
    (keys pairwise distinct, none of them [__proto__]) in two: the entries
    whose key is a core field and the others, each with its value and in the
    order of the object; every entry is in exactly one of the two. *)
Theorem X5_translate_partitions (es : props) :
  ordinaryKeys es = true ->
  exists f,
    QueryTranslator.translateQueryParameters (VObj es) = Ok f /\
    QueryTranslator.coreFields f = filter isCore es /\
    QueryTranslator.customFields f = filter (fun e => negb (isCore e)) es /\
    forall e, In e es <->
              (In e (QueryTranslator.coreFields f) /\ isCore e = true) \/
              (In e (QueryTranslator.customFields f) /\ isCore e = false).
Proof.
  intros H. eexists. split; [now apply translate_partition|].
  cbn [QueryTranslator.coreFields QueryTranslator.customFields].
  split; [reflexivity|]. split; [reflexivity|].
  intros e. rewrite !filter_In. destruct (isCore e); simpl; intuition congruence.
Qed.

Lemma X5_witness :
  exists f,
    QueryTranslator.translateQueryParameters
      (VObj [("epic", VStr "EPIC-1"); ("status", VStr "done");
             ("sprint", VStr "S1")]) = Ok f /\
    QueryTranslator.coreFields f = [("status", VStr "done")] /\
    QueryTranslator.customFields f
    = [("epic", VStr "EPIC-1"); ("sprint", VStr "S1")].
Proof.
  destruct (X5_translate_partitions
              [("epic", VStr "EPIC-1"); ("status", VStr "done");
               ("sprint", VStr "S1")] eq_refl) as (f & Hf & Hc & Hcu & _).
  exists f. repeat split; assumption.
Defined.

Section ParameterValidation.

Import QueryTranslator.

Lemma map_fst_filter (p : string -> bool) (es : props) :
  map fst (filter (fun e => p (fst e)) es) = filter p (map fst es).
Proof.
  induction es as [|[k v] es IH]; simpl; [reflexivity|].
  destruct (p k); simpl; now rewrite IH.
Qed.

Lemma validateFieldName_not_core k :
  str_mem k CORE_FIELDS = false ->
  validateFieldName k
  = if fieldNameRegex_test k then Valid else Invalid "format" formatSuggestion.
Proof.
  intros H. unfold validateFieldName.
  destruct (str_mem k RESERVED_FIELD_NAMES) eqn:E.
  - apply reserved_is_core in E. congruence.
  - now destruct (fieldNameRegex_test k).
Qed.

Lemma checkFieldName_fold available ks : forall e w s,
  Forall (fun k => str_mem k CORE_FIELDS = false) ks ->
  exists w' s',
    fold_left (checkFieldName available) ks (e, w, s)
    = ((e ++ map formatError
                 (filter (fun k => negb (fieldNameRegex_test k)) ks))%list,
       (w ++ w')%list, (s ++ s')%list) /\
    List.length w'
    = List.length (filter (fun k => fieldNameRegex_test k &&
                                    negb (str_mem k available)) ks) /\
    (List.length s' <= List.length w')%nat.
Proof.
  induction ks as [|k ks IH]; intros e w s Hk.
  - exists [], []. simpl. now rewrite !app_nil_r.
  - inversion Hk as [|? ? Hc Hr]; subst.
    cbn [fold_left filter]. unfold checkFieldName at 2.
    rewrite (validateFieldName_not_core _ Hc).
    destruct (fieldNameRegex_test k) eqn:Er; cbn [negb andb].
    + destruct (str_mem k available) eqn:Ea; cbn [negb].
      * apply IH, Hr.
      * destruct (suggestFieldName k available) as [sg|].
        -- destruct (sg =? "")%string.
           ++ destruct (IH e (SubtaskValidator.push w
                                ("Custom field '" ++ k ++
                                 "' not found in any tasks")) s Hr)
                as (w' & s' & E & Hw & Hs).
              eexists (_ :: w'), s'. rewrite E. unfold SubtaskValidator.push.
              rewrite <- app_assoc. simpl. repeat split; auto; lia.
           ++ destruct (IH e (SubtaskValidator.push w
                                ("Custom field '" ++ k ++ "' not found"))
                           (SubtaskValidator.push s
                                ("Did you mean '" ++ sg ++ "'?")) Hr)
                as (w' & s' & E & Hw & Hs).
              eexists (_ :: w'), (_ :: s'). rewrite E.
              unfold SubtaskValidator.push.
              rewrite <- !app_assoc. simpl. repeat split; auto; lia.
        -- destruct (IH e (SubtaskValidator.push w
                             ("Custom field '" ++ k ++
                              "' not found in any tasks")) s Hr)
             as (w' & s' & E & Hw & Hs).
           eexists (_ :: w'), s'. rewrite E. unfold SubtaskValidator.push.
           rewrite <- app_assoc. simpl. repeat split; auto; lia.
    + cbn [String.eqb Ascii.eqb Bool.eqb]. 
      destruct (IH (SubtaskValidator.push e (formatError k)) w s Hr)
        as (w' & s' & E & Hw & Hs).
      exists w', s'. 
      change (("format" =? "reserved")%string) with false. cbv iota.
      fold (formatError k).
      rewrite E. unfold SubtaskValidator.push.
      rewrite <- app_assoc. simpl. repeat split; auto.
Qed.

Lemma customKeys_not_core es :
  Forall (fun k => str_mem k CORE_FIELDS = false) (customKeys es).
Proof.
  apply Forall_forall. intros k Hk. unfold customKeys in Hk.
  apply filter_In in Hk as (_ & Hk). now apply negb_true_iff in Hk.
Qed.

Lemma filter_nil_forallb {A} (p : A -> bool) l :
  Nat.eqb (List.length (filter (fun x => negb (p x)) l)) 0 = forallb p l.
Proof.
  induction l as [|x l IH]; simpl; [reflexivity|].
  destruct (p x); simpl; [exact IH | reflexivity].
Qed.

End ParameterValidation.

(** X6. [validateQueryParameters] never reports a reserved name: for a
    parameter object with distinct keys, none of them [__proto__], its errors
    are the format errors of
    the non-core keys that fail the field-name expression, in order; the
    result is valid exactly when every non-core key is well formed; there is
    one warning per well-formed non-core key that is not an available field,
    and never more suggestions than warnings. *)
Theorem X6_query_validation (es : props) (available : list string) :
  ordinaryKeys es = true ->
  exists r,
    QueryTranslator.validateQueryParameters (VObj es) available = Ok r /\
    QueryTranslator.q_errors r
    = map formatError
          (filter (fun k => negb (QueryTranslator.fieldNameRegex_test k))
                  (customKeys es)) /\
    QueryTranslator.q_valid r
    = forallb QueryTranslator.fieldNameRegex_test (customKeys es) /\
    List.length (QueryTranslator.q_warnings r)
    = List.length
        (filter (fun k => QueryTranslator.fieldNameRegex_test k &&
                          negb (str_mem k available)) (customKeys es)) /\
    (List.length (QueryTranslator.q_suggestions r)
     <= List.length (QueryTranslator.q_warnings r))%nat.
Proof.
  intros H. unfold QueryTranslator.validateQueryParameters.
  rewrite (translate_partition _ H). cbn [bind QueryTranslator.customFields].
  assert (Ek : map fst (filter (fun e => negb (isCore e)) es) = customKeys es)
    by apply (map_fst_filter
                (fun k => negb (str_mem k QueryTranslator.CORE_FIELDS))).
  rewrite Ek.
  destruct (checkFieldName_fold available (customKeys es) [] [] []
              (customKeys_not_core es)) as (w' & s' & E & Hw & Hs).
  rewrite E. cbn [app]. eexists. split; [reflexivity|].
  cbn [QueryTranslator.q_errors QueryTranslator.q_valid
       QueryTranslator.q_warnings QueryTranslator.q_suggestions].
  repeat split; auto.
  rewrite length_map. apply filter_nil_forallb.
Qed.

Lemma X6_witness :
  exists r,
    QueryTranslator.validateQueryParameters
      (VObj [("status", VStr "done"); ("2fast", VStr "x");
             ("epic", VStr "E1")]) ["epik"] = Ok r /\
    QueryTranslator.q_valid r = false /\
    List.length (QueryTranslator.q_errors r) = 1%nat /\
    List.length (QueryTranslator.q_warnings r) = 1%nat.
Proof.
  destruct (X6_query_validation
              [("status", VStr "done"); ("2fast", VStr "x");
               ("epic", VStr "E1")] ["epik"] eq_refl)
    as (r & Hr & He & Hv & Hw & _).
  exists r. split; [exact Hr|]. split; [exact Hv|].
  split; [now rewrite He | exact Hw].
Defined.

(** ** customFieldsValidator.js: the names of custom fields *)

Section FieldNames.

Lemma checkName_fold ks : forall r f,
  fold_left CustomFieldsNames.checkName ks (r, f)
  = ((r ++ filter (fun k => str_mem k CustomFieldsNames.RESERVED_FIELD_NAMES)
                  ks)%list,
     (f ++ filter (fun k => negb (QueryTranslator.fieldNameRegex_test k))
                  ks)%list).
Proof.
  induction ks as [|k ks IH]; intros r f.
  - simpl. now rewrite !app_nil_r.
  - cbn [fold_left filter]. unfold CustomFieldsNames.checkName at 2.
    unfold CustomFieldsNames.FIELD_NAME_REGEX_test, SubtaskValidator.push.
    rewrite IH.
    destruct (str_mem k CustomFieldsNames.RESERVED_FIELD_NAMES);
      destruct (QueryTranslator.fieldNameRegex_test k); cbn [negb];
      now rewrite <- ?app_assoc.
Qed.

Lemma reserved_well_formed k :
  str_mem k CustomFieldsNames.RESERVED_FIELD_NAMES = true ->
  QueryTranslator.fieldNameRegex_test k = true.
Proof.
  rewrite str_mem_In. unfold CustomFieldsNames.RESERVED_FIELD_NAMES.
  simpl. intuition; subst; reflexivity.
Qed.

Lemma reserved_names k :
  str_mem k CustomFieldsNames.RESERVED_FIELD_NAMES
  = str_mem k QueryTranslator.RESERVED_FIELD_NAMES || (k =? "parentTaskId")%string.
Proof.
  unfold str_mem, CustomFieldsNames.RESERVED_FIELD_NAMES,
    QueryTranslator.RESERVED_FIELD_NAMES.
  cbn [existsb]. rewrite !orb_false_r.
  repeat rewrite <- orb_assoc. reflexivity.
Qed.

Lemma validateFieldName_Valid k :
  QueryTranslator.validateFieldName k = QueryTranslator.Valid <->
  str_mem k QueryTranslator.RESERVED_FIELD_NAMES = false /\
  QueryTranslator.fieldNameRegex_test k = true.
Proof.
  unfold QueryTranslator.validateFieldName.
  destruct (str_mem k QueryTranslator.RESERVED_FIELD_NAMES);
    destruct (QueryTranslator.fieldNameRegex_test k); simpl;
    intuition discriminate.
Qed.

Lemma length_zero_filter {A} (p : A -> bool) l :
  Nat.eqb (List.length (filter p l)) 0 = true <->
  forall x, In x l -> p x = false.
Proof.
  induction l as [|x l IH]; simpl.
  - split; [intros _ ? [] | reflexivity].
  - destruct (p x) eqn:E; simpl.
    + split; [discriminate|]. intros H. specialize (H x (or_introl eq_refl)).
      congruence.
    + rewrite IH. split.
      * intros H y [<-|Hy]; auto.
      * intros H y Hy. apply H. now right.
Qed.

Lemma append_nonempty a b : a <> "" -> (a ++ b)%string <> "".
Proof. destruct a; [congruence | discriminate]. Qed.

Lemma join_nonempty sep x l : x <> "" -> join sep (x :: l) <> "".
Proof.
  intros H. destruct l; cbn [join]; [exact H | now apply append_nonempty].
Qed.

End FieldNames.

(** X7. [validateCustomFieldNames] on an object: the reserved errors are the
    keys that are reserved and the format errors the keys that fail the
    field-name expression, each in the order of the object, and no key is in
    both lists.  The object is valid exactly when every key passes the query
    translator's [validateFieldName] and is not [parentTaskId]; the error
    message is empty exactly when the object is valid. *)
Theorem X7_field_names_validation (es : props) :
  exists r,
    CustomFieldsNames.validateCustomFieldNames (VObj es) = Ok r /\
    CustomFieldsNames.reservedErrors r
    = filter (fun k => str_mem k CustomFieldsNames.RESERVED_FIELD_NAMES)
             (map fst es) /\
    CustomFieldsNames.formatErrors r
    = filter (fun k => negb (QueryTranslator.fieldNameRegex_test k))
             (map fst es) /\
    (forall k, In k (CustomFieldsNames.reservedErrors r) ->
               ~ In k (CustomFieldsNames.formatErrors r)) /\
    (CustomFieldsNames.n_isValid r = true <->
     forall k, In k (map fst es) ->
               QueryTranslator.validateFieldName k = QueryTranslator.Valid /\
               k <> "parentTaskId") /\
    (CustomFieldsNames.n_isValid r = true <->
     CustomFieldsNames.errorMessage r = "").
Proof.
  unfold CustomFieldsNames.validateCustomFieldNames, QueryTranslator.entries.
  cbn [nullish spread bind]. rewrite checkName_fold. cbn [app].
  eexists. split; [reflexivity|].
  cbn [CustomFieldsNames.reservedErrors CustomFieldsNames.formatErrors
       CustomFieldsNames.n_isValid CustomFieldsNames.errorMessage].
  split; [reflexivity|]. split; [reflexivity|].
  split; [|split].
  - intros k Hr Hf. apply filter_In in Hr as (_ & Hr).
    apply filter_In in Hf as (_ & Hf).
    apply reserved_well_formed in Hr. rewrite Hr in Hf. discriminate.
  - rewrite andb_true_iff, !length_zero_filter. split.
    + intros (Hr & Hf) k Hk. specialize (Hr k Hk). specialize (Hf k Hk).
      cbv beta in Hr, Hf. rewrite reserved_names in Hr.
      apply orb_false_iff in Hr as (Hr & Hp).
      apply negb_false_iff in Hf. split.
      * now apply validateFieldName_Valid.
      * intros ->. discriminate.
    + intros H. split; intros k Hk; destruct (H k Hk) as (Hv & Hp);
        apply validateFieldName_Valid in Hv as (Hr & Hf); cbv beta.
      * rewrite reserved_names, Hr. apply String.eqb_neq in Hp.
        now rewrite Hp.
      * now rewrite Hf.
  - set (rs := filter _ (map fst es)).
    set (fs := filter (fun k => negb _) (map fst es)).
    destruct rs as [|r0 rs]; destruct fs as [|f0 fs];
      cbn [List.length Nat.eqb Nat.ltb Nat.leb andb app];
      split; try reflexivity; try discriminate; intros H; exfalso;
      revert H; apply join_nonempty; discriminate.
Qed.

(** ** queryTranslator.js: what [filterTasks] returns *)

Section FilterResults.

Import QueryTranslator.

Lemma subseq_refl {A} (l : list A) : subseq l l.
Proof. induction l; constructor; assumption. Qed.

Lemma subseq_trans {A} (l1 l2 l3 : list A) :
  subseq l1 l2 -> subseq l2 l3 -> subseq l1 l3.
Proof.
  intros H12 H23. revert l1 H12.
  induction H23 as [|x l2 l3 _ IH|x l2 l3 _ IH]; intros l1 H12.
  - exact H12.
  - constructor. now apply IH.
  - inversion H12; subst; constructor; now apply IH.
Qed.

Lemma subseq_Forall {A} (P : A -> Prop) (l l' : list A) :
  subseq l l' -> Forall P l' -> Forall P l.
Proof.
  induction 1 as [|x l l' _ IH|x l l' _ IH]; intros H; auto;
    inversion H; subst; auto.
Qed.

Lemma filterM_subseq {A} (f : A -> result bool) l r :
  filterM f l = Ok r -> subseq r l /\ Forall (fun x => f x = Ok true) r.
Proof.
  revert r. induction l as [|x l IH]; simpl; intros r H.
  - injection H as <-. split; constructor.
  - apply bind_Ok in H as (b & Hb & H). apply bind_Ok in H as (ys & Hys & H).
    injection H as <-. destruct (IH _ Hys) as (Hs & Hf).
    destruct b; split; try constructor; assumption.
Qed.

Lemma filterM_all {A} (f : A -> result bool) l :
  Forall (fun x => f x = Ok true) l -> filterM f l = Ok l.
Proof.
  induction 1 as [|x l Hx _ IH]; simpl; auto. now rewrite Hx, IH.
Qed.

Lemma applyFilters_subseq m es : forall l r,
  applyFilters m es l = Ok r ->
  subseq r l /\
  Forall (fun t => forall e, In e es -> m (fst e) (snd e) t = Ok true) r.
Proof.
  induction es as [|[k v] es IH]; simpl; intros l r H.
  - injection H as <-. split; [apply subseq_refl|].
    apply Forall_forall. intros ? _ ? [].
  - apply bind_Ok in H as (l1 & H1 & H).
    apply filterM_subseq in H1 as (S1 & F1).
    apply IH in H as (S2 & F2). split; [now apply (subseq_trans _ l1)|].
    apply (subseq_Forall _ _ _ S2) in F1.
    rewrite Forall_forall in *. intros t Ht e [<-|He]; simpl; auto.
Qed.

Lemma applyFilters_all m es l :
  Forall (fun t => forall e, In e es -> m (fst e) (snd e) t = Ok true) l ->
  applyFilters m es l = Ok l.
Proof.
  induction es as [|[k v] es IH]; simpl; intros H; [reflexivity|].
  rewrite filterM_all.
  - cbn [bind]. apply IH. eapply Forall_impl; [|exact H]. cbv beta.
    intros t Ht e He. apply Ht. now right.
  - eapply Forall_impl; [|exact H]. cbv beta.
    intros t Ht. apply (Ht (k, v)). now left.
Qed.

Lemma filter_filter {A} (p q : A -> bool) l :
  filter q (filter p l) = filter (fun x => p x && q x) l.
Proof.
  induction l as [|x l IH]; simpl; [reflexivity|].
  destruct (p x); simpl; [destruct (q x)|]; now rewrite IH.
Qed.

Lemma Forall_filter {A} (P : A -> Prop) (p : A -> bool) l :
  Forall P l -> Forall P (filter p l).
Proof.
  induction 1 as [|x l Hx _ IH]; simpl; [constructor|].
  destruct (p x); [constructor|]; assumption.
Qed.

(** The rounds of [filter] with callbacks that do not throw. *)
Lemma applyFilters_filter m (P : string -> string -> value -> bool) es :
  forall l,
  Forall (fun t => forall e, In e es ->
                     m (fst e) (VStr (snd e)) t = Ok (P (fst e) (snd e) t)) l ->
  applyFilters m (map stringFilter es) l
  = Ok (filter (fun t => forallb (fun e => P (fst e) (snd e) t) es) l).
Proof.
  induction es as [|[k v] es IH]; intros l H.
  - cbn [map applyFilters forallb]. f_equal. clear H.
    induction l as [|x l IHl]; simpl; [reflexivity|]. now f_equal.
  - cbn [map stringFilter fst snd applyFilters].
    rewrite (filterM_filter _ (P k v)).
    + cbn [bind]. rewrite IH.
      * rewrite filter_filter. reflexivity.
      * apply Forall_filter. eapply Forall_impl; [|exact H]. cbv beta.
        intros t Ht e He. apply Ht. now right.
    + eapply Forall_impl; [|exact H]. cbv beta.
      intros t Ht. apply (Ht (k, v)). now left.
Qed.

Lemma field_get v k x : get v k = Ok x -> field k v = x.
Proof. unfold field. now intros ->. Qed.

Lemma coreMatch_string k v t :
  nullish t = false -> coreMatch k (VStr v) t = Ok (corePred k v t).
Proof.
  intros Hn. unfold coreMatch, corePred, genericMatch.
  destruct (get_not_nullish t k Hn) as (tf & Htf).
  rewrite (field_get _ _ _ Htf), Htf.
  destruct (k =? "status")%string; cbn [call_includes toString bind andb].
  - destruct (includes v ","); cbn [splitTrim bind]; [reflexivity|].
    destruct (strict_eq tf (VStr v)); [reflexivity|]. cbn [orb].
    destruct (truthy tf) eqn:T; [|reflexivity]. unfold call_toString.
    now destruct tf.
  - destruct (strict_eq tf (VStr v)); [reflexivity|]. cbn [orb].
    destruct (truthy tf) eqn:T; [|reflexivity]. unfold call_toString.
    now destruct tf.
Qed.

Lemma customMatch_string k v t :
  nullish t = false -> customTyped k t = true ->
  customMatch k (VStr v) t = Ok (customPred k v t).
Proof.
  intros Hn. unfold customMatch, customPred, customTyped.
  destruct (get_not_nullish t "customFields" Hn) as (cf & Hcf).
  rewrite (field_get _ _ _ Hcf), Hcf. cbn [bind].
  destruct (truthy cf) eqn:Tcf; cbn [negb].
  - assert (nullish cf = false) as Hc by (destruct cf; auto; discriminate).
    destruct (get_not_nullish cf k Hc) as (x & Hx).
    rewrite (field_get _ _ _ Hx), Hx. cbn [bind]. intros Hty.
    destruct x as [| | | |s| |]; cbn [truthy negb] in Hty |- *;
      try reflexivity; try discriminate; try (rewrite Hty; reflexivity).
    destruct (s =? "")%string; cbn [negb andb]; [reflexivity|].
    cbn [call_includes toString bind].
    destruct (includes v ","); cbn [splitTrim bind includes_value strict_eq];
      [reflexivity|].
    now destruct (s =? v)%string.
  - intros _. unfold field.
    destruct cf as [| |b|n|s| |]; try discriminate; try reflexivity;
      cbn [get].
    + destruct (k =? "length")%string; [reflexivity|].
      cbn [truthy] in Tcf. apply negb_false_iff, String.eqb_eq in Tcf.
      subst s. destruct (array_index k) as [i|]; [|reflexivity].
      unfold nth_or_undefined. cbn [chars]. now destruct i.
Qed.

End FilterResults.

(** X8. Whatever the filters, when [filterTasks] returns it returns tasks of
    the input in the order of the input, none twice and none new; each of
    them passed every core and every custom filter; and filtering the result
    again with the same filters returns it unchanged. *)
Theorem X8_filter_result (ts r : list value) (f : QueryTranslator.filters) :
  QueryTranslator.filterTasks (VArr ts) f = Ok r ->
  subseq r ts /\
  Forall (fun t =>
            (forall e, In e (QueryTranslator.coreFields f) ->
                       QueryTranslator.coreMatch (fst e) (snd e) t = Ok true) /\
            (forall e, In e (QueryTranslator.customFields f) ->
                       QueryTranslator.customMatch (fst e) (snd e) t = Ok true))
         r /\
  QueryTranslator.filterTasks (VArr r) f = Ok r.
Proof.
  unfold QueryTranslator.filterTasks. cbn [QueryTranslator.spread_iterable bind].
  intros H. apply bind_Ok in H as (l1 & H1 & H2).
  apply applyFilters_subseq in H1 as (S1 & F1).
  apply applyFilters_subseq in H2 as (S2 & F2).
  apply (subseq_Forall _ _ _ S2) in F1.
  split; [now apply (subseq_trans _ l1)|]. split.
  - rewrite Forall_forall in *. intros t Ht. split; auto.
  - rewrite (applyFilters_all _ _ _ F1). cbn [bind].
    now apply applyFilters_all.
Qed.

Lemma X8_witness :
  subseq [VObj Examples.complexTask] [VObj []; VObj Examples.complexTask] /\
  QueryTranslator.filterTasks (VArr [VObj Examples.complexTask])
    (QueryTranslator.mkFilters [("id", VNum 1)] [])
  = Ok [VObj Examples.complexTask].
Proof.
  destruct (X8_filter_result [VObj []; VObj Examples.complexTask]
              [VObj Examples.complexTask]
              (QueryTranslator.mkFilters [("id", VNum 1)] []) eq_refl)
    as (H1 & _ & H3).
  split; assumption.
Defined.

(** X9. Filters are conjunctive.  For filters whose values are strings and
    whose names are pairwise distinct and not inherited from
    [Object.prototype], on tasks that are plain objects with a plain-object
    or falsy [customFields], in which the filtered core fields hold values
    that print as written (integers below 2^53, objects without a [toString]
    of their own) and the filtered custom fields hold strings or falsy
    values, [filterTasks] does not throw and returns, in order, exactly the
    tasks that satisfy every core condition and every custom condition. *)
Theorem X9_filter_is_conjunction (ts : list value)
  (core custom : list (string * string)) :
  forallb plainFilterTask ts = true ->
  forallb (fun e => ownName (fst e)) (core ++ custom) = true ->
  nodupb (map fst core) = true ->
  nodupb (map fst custom) = true ->
  (forall t e, In t ts -> In e core -> printable (field (fst e) t) = true) ->
  (forall t e, In t ts -> In e custom -> customTyped (fst e) t = true) ->
  QueryTranslator.filterTasks (VArr ts)
    (QueryTranslator.mkFilters (map stringFilter core)
                               (map stringFilter custom))
  = Ok (filter (fun t =>
                  forallb (fun e => corePred (fst e) (snd e) t) core &&
                  forallb (fun e => customPred (fst e) (snd e) t) custom) ts).
Proof.
  intros Hp _ _ _ _ Hty.
  assert (Hn : forall t, In t ts -> nullish t = false).
  { intros t Ht. rewrite forallb_forall in Hp. specialize (Hp t Ht).
    apply andb_prop in Hp as (Ho & _).
    now apply is_object_inv in Ho as (o & ->). }
  unfold QueryTranslator.filterTasks.
  cbn [QueryTranslator.spread_iterable bind
       QueryTranslator.coreFields QueryTranslator.customFields].
  rewrite (applyFilters_filter _ corePred).
  - cbn [bind]. rewrite (applyFilters_filter _ customPred).
    + now rewrite filter_filter.
    + apply Forall_filter. apply Forall_forall. intros t Ht e He.
      apply customMatch_string; auto.
  - apply Forall_forall. intros t Ht e He. apply coreMatch_string; auto.
Qed.

Lemma X9_witness :
  QueryTranslator.filterTasks (VArr Examples.epicTaskList)
    (QueryTranslator.mkFilters [("id", VStr "1")] [("epic", VStr "EPIC")])
  = Ok [Examples.taskEpic1234].
Proof.
  apply (X9_filter_is_conjunction Examples.epicTaskList
           [("id", "1")] [("epic", "EPIC")]).
  - reflexivity.
  - reflexivity.
  - reflexivity.
  - reflexivity.
  - intros t e Ht He. simpl in Ht, He. destruct He as [<-|[]].
    destruct Ht as [<-|[<-|[<-|[<-|[]]]]]; reflexivity.
  - intros t e Ht He. simpl in Ht, He. destruct He as [<-|[]].
    destruct Ht as [<-|[<-|[<-|[<-|[]]]]]; reflexivity.
Defined.

(** ** subtaskValidator.js: the numbers of the integrity report *)

Section ReportInvariants.

Import SubtaskValidator.

Lemma field_object_get o k : get (VObj o) k = Ok (field k (VObj o)).
Proof. unfold field. now destruct (get_object_Ok o k) as (x & ->). Qed.

Lemma length_push {A} (l : list A) x :
  List.length (push l x) = S (List.length l).
Proof. unfold push. rewrite length_app. simpl. lia. Qed.

Lemma orphanCheck_spec ids o acc so :
  exists r,
    orphanCheck ids (VObj o) acc (VObj so) = Ok r /\
    List.length r
    = (List.length acc + if isOrphan ids (VObj so) then 1 else 0)%nat.
Proof.
  unfold orphanCheck, isOrphan. rewrite !field_object_get. cbn [bind].
  destruct (truthy _ && negb _).
  - cbn [bind]. eexists. split; [reflexivity|]. rewrite length_push. lia.
  - eexists. split; [reflexivity|]. lia.
Qed.

Lemma orphanChecks_spec ids o l :
  Forall (fun s => is_object s = true) l ->
  forall acc, exists r,
    foldM (orphanCheck ids (VObj o)) acc l = Ok r /\
    List.length r
    = (List.length acc + List.length (filter (isOrphan ids) l))%nat.
Proof.
  induction 1 as [|s l Hs _ IH]; intros acc; cbn [foldM filter].
  - exists acc. split; [reflexivity | simpl; lia].
  - apply is_object_inv in Hs as (so & ->).
    destruct (orphanCheck_spec ids o acc so) as (r1 & -> & L1). cbn [bind].
    destruct (IH r1) as (r & -> & L). exists r. split; [reflexivity|].
    rewrite L, L1. destruct (isOrphan ids (VObj so)); simpl; lia.
Qed.

Lemma orphanTask_spec ids acc t :
  plainTask t = true ->
  exists r,
    orphanTask ids acc t = Ok r /\
    List.length r
    = (List.length acc +
       List.length (filter (isOrphan ids) (subtasksOf t)))%nat.
Proof.
  unfold plainTask, orphanTask, subtasksOf. intros H.
  apply andb_prop in H as (Ho & Hss). apply is_object_inv in Ho as (o & ->).
  rewrite field_object_get. cbn [bind].
  destruct (field "subtasks" (VObj o)) as [| | | | |ss|];
    try (exists acc; split; [reflexivity | simpl; lia]).
  apply orphanChecks_spec. now apply forallb_Forall.
Qed.

Lemma orphanTasks_spec ids ts :
  forallb plainTask ts = true ->
  forall acc, exists r,
    foldM (orphanTask ids) acc ts = Ok r /\
    List.length r
    = (List.length acc +
       List.length (flat_map (fun t => filter (isOrphan ids) (subtasksOf t))
                             ts))%nat.
Proof.
  induction ts as [|t ts IH]; cbn [forallb foldM flat_map]; intros H acc.
  - exists acc. split; [reflexivity | simpl; lia].
  - apply andb_prop in H as (Ht & Hts).
    destruct (orphanTask_spec ids acc t Ht) as (r1 & -> & L1). cbn [bind].
    destruct (IH Hts r1) as (r & -> & L). exists r. split; [reflexivity|].
    rewrite length_app. lia.
Qed.

Lemma task_ids ts :
  forallb plainTask ts = true ->
  mapM (fun task => get task "id") ts = Ok (map (field "id") ts).
Proof.
  induction ts as [|t ts IH]; cbn [forallb mapM map]; intros H;
    [reflexivity|].
  apply andb_prop in H as (Ht & Hts). unfold plainTask in Ht.
  apply andb_prop in Ht as (Ho & _). apply is_object_inv in Ho as (o & ->).
  rewrite field_object_get. cbn [bind]. now rewrite (IH Hts).
Qed.

Lemma findOrphanedSubtasks_spec ts :
  forallb plainTask ts = true ->
  exists r,
    findOrphanedSubtasks (VArr ts) = Ok r /\
    Z.of_nat (List.length r) = orphansOf ts ts.
Proof.
  intros H. unfold findOrphanedSubtasks, orphansOf.
  rewrite (task_ids ts H). cbn [bind].
  destruct (orphanTasks_spec (map (field "id") ts) ts H []) as (r & -> & L).
  exists r. split; [reflexivity|]. now rewrite L.
Qed.

(** A subtask whose parent is no task at all has, under the task that holds
    it, an incorrect parent. *)
Lemma orphan_has_issue ids t s :
  In (field "id" t) ids -> isOrphan ids s = true -> hasIssue t s = true.
Proof.
  unfold isOrphan, hasIssue. intros Hin H.
  apply andb_prop in H as (_ & H). apply negb_true_iff in H.
  destruct (strict_eq (field "parentTaskId" s) (field "id" t)) eqn:E.
  - exfalso. assert (existsb (strict_eq (field "parentTaskId" s)) ids = true)
      by (apply existsb_exists; eauto). congruence.
  - apply orb_true_r.
Qed.

Lemma filter_length_le {A} (p q : A -> bool) l :
  (forall x, In x l -> p x = true -> q x = true) ->
  (List.length (filter p l) <= List.length (filter q l))%nat.
Proof.
  induction l as [|x l IH]; intros H; simpl; [lia|].
  assert (IH' := IH (fun y Hy => H y (or_intror Hy))).
  destruct (p x) eqn:Ep.
  - rewrite (H x (or_introl eq_refl) Ep). simpl. lia.
  - destruct (q x); simpl; lia.
Qed.

Lemma orphans_le_issues all ts :
  incl ts all -> orphansOf all ts <= issuesOf ts.
Proof.
  unfold orphansOf, issuesOf. intros Hi. apply inj_le.
  induction ts as [|t ts IH]; cbn [flat_map]; [simpl; lia|].
  rewrite !length_app.
  assert (incl ts all) as Hi' by (intros x Hx; apply Hi; now right).
  specialize (IH Hi').
  assert (List.length (filter (isOrphan (map (field "id") all)) (subtasksOf t))
          <= List.length (filter (hasIssue t) (subtasksOf t)))%nat; [|lia].
  apply filter_length_le. intros s _. apply orphan_has_issue.
  apply in_map. apply Hi. now left.
Qed.

Lemma issues_le_total ts : 0 <= issuesOf ts <= totalOf ts.
Proof.
  unfold issuesOf, totalOf. split; [lia|]. apply inj_le.
  induction ts as [|t ts IH]; cbn [flat_map]; [simpl; lia|].
  rewrite !length_app.
  pose proof (filter_length (hasIssue t) (subtasksOf t)). lia.
Qed.

Lemma checkSubtask_grows o issues ids i so :
  exists issues' ids',
    checkSubtask (VObj o) (issues, ids) i (VObj so) = Ok (issues', ids') /\
    (List.length issues + (if hasIssue (VObj o) (VObj so) then 1 else 0)
     <= List.length issues')%nat.
Proof.
  unfold checkSubtask, hasIssue. rewrite !field_object_get. cbn [bind].
  set (sid := field "id" (VObj so)). set (tid := field "id" (VObj o)).
  set (pid := field "parentTaskId" (VObj so)).
  set (title := field "title" (VObj so)).
  destruct (truthy sid); destruct (truthy pid);
    destruct (strict_eq pid tid); destruct (truthy title);
    cbn [negb orb]; try destruct (existsb (strict_eq sid) ids);
    do 2 eexists; (split; [reflexivity|]);
    rewrite ?length_push; lia.
Qed.

Lemma checkSubtasks_grows o l :
  Forall (fun s => is_object s = true) l ->
  forall issues ids i, exists issues' ids',
    checkSubtasks (VObj o) (issues, ids) i l = Ok (issues', ids') /\
    (List.length issues + List.length (filter (hasIssue (VObj o)) l)
     <= List.length issues')%nat.
Proof.
  induction 1 as [|s l Hs _ IH]; intros issues ids i;
    cbn [checkSubtasks filter].
  - exists issues, ids. split; [reflexivity | simpl; lia].
  - apply is_object_inv in Hs as (so & ->).
    destruct (checkSubtask_grows o issues ids i so) as (i1 & d1 & -> & L1).
    cbn [bind]. destruct (IH i1 d1 (S i)) as (i2 & d2 & -> & L2).
    exists i2, d2. split; [reflexivity|].
    destruct (hasIssue (VObj o) (VObj so)); simpl; lia.
Qed.

Lemma checkTask_grows issues t :
  plainTask t = true ->
  exists r,
    checkTask issues t = Ok r /\
    (List.length issues + List.length (filter (hasIssue t) (subtasksOf t))
     <= List.length r)%nat.
Proof.
  unfold plainTask, checkTask, subtasksOf. intros H.
  apply andb_prop in H as (Ho & Hss). apply is_object_inv in Ho as (o & ->).
  rewrite field_object_get. cbn [bind].
  destruct (field "subtasks" (VObj o)) as [| | | | |ss|];
    try (exists issues; split; [reflexivity | simpl; lia]).
  destruct (checkSubtasks_grows o ss (forallb_Forall _ _ Hss) issues [] 0%nat)
    as (i' & d' & -> & L).
  cbn [bind fst]. exists i'. split; [reflexivity | exact L].
Qed.

Lemma checkTasks_grows ts :
  forallb plainTask ts = true ->
  forall issues, exists r,
    checkTasks issues ts = Ok r /\
    Z.of_nat (List.length issues) + issuesOf ts <= Z.of_nat (List.length r).
Proof.
  unfold issuesOf.
  induction ts as [|t ts IH]; cbn [forallb checkTasks flat_map];
    intros H issues.
  - exists issues. split; [reflexivity | simpl; lia].
  - apply andb_prop in H as (Ht & Hts).
    destruct (checkTask_grows issues t Ht) as (r1 & -> & L1). cbn [bind].
    destruct (IH Hts r1) as (r & -> & L). exists r. split; [reflexivity|].
    rewrite length_app. lia.
Qed.

End ReportInvariants.

(** X10. The numbers of the integrity report are consistent.  On plain-object
    tasks whose ids and parent ids, which the issue lines print, are
    primitive values, the report counts no more orphaned subtasks than
    subtasks with a parent issue, no more of those than subtasks, and no more
    of those than issue lines; so a healthy report has no orphan, no issue
    line and no subtask with a parent issue. *)
Theorem X10_report_counts (debug : bool) (ts : list value) :
  forallb plainTask ts = true ->
  forallb primitiveRefs ts = true ->
  exists r,
    SubtaskValidator.createSubtaskIntegrityReport debug (VArr ts) = Ok r /\
    let s := SubtaskValidator.r_summary r in
    SubtaskValidator.totalTasks s = Z.of_nat (List.length ts) /\
    SubtaskValidator.orphanedSubtasksCount s
    = Z.of_nat (List.length (SubtaskValidator.orphanedSubtasks r)) /\
    0 <= SubtaskValidator.orphanedSubtasksCount s
      <= SubtaskValidator.subtasksWithIssues s /\
    SubtaskValidator.subtasksWithIssues s
      <= SubtaskValidator.totalSubtasks s /\
    SubtaskValidator.subtasksWithIssues s
      <= Z.of_nat (List.length (SubtaskValidator.r_issues r)) /\
    (SubtaskValidator.isHealthy r = true ->
     SubtaskValidator.orphanedSubtasks r = [] /\
     SubtaskValidator.r_issues r = [] /\
     SubtaskValidator.subtasksWithIssues s = 0).
Proof.
  intros H _. unfold SubtaskValidator.createSubtaskIntegrityReport,
    SubtaskValidator.validateSubtaskStructure.
  destruct (checkTasks_grows ts H []) as (issues & Hi & Li).
  cbn [bind]. rewrite Hi. cbn [bind fst].
  destruct (findOrphanedSubtasks_spec ts H) as (orph & -> & Lo).
  destruct (countTasks_spec ts H (SubtaskValidator.mkCounters 0 0 0))
    as (c & Hc & T & I).
  cbn [bind]. rewrite Hc. cbn [bind]. eexists. split; [reflexivity|].
  cbn [SubtaskValidator.r_summary SubtaskValidator.totalTasks
       SubtaskValidator.orphanedSubtasksCount SubtaskValidator.orphanedSubtasks
       SubtaskValidator.subtasksWithIssues SubtaskValidator.totalSubtasks
       SubtaskValidator.r_issues SubtaskValidator.isHealthy
       SubtaskValidator.v_issues SubtaskValidator.isValid].
  cbn [SubtaskValidator.c_totalSubtasks
       SubtaskValidator.c_subtasksWithIssues] in T, I.
  pose proof (orphans_le_issues ts ts (incl_refl ts)) as Ho.
  pose proof (issues_le_total ts) as Ht.
  cbn [List.length] in Li.
  repeat split; try lia.
  - apply andb_prop in H0 as (_ & H0). apply Nat.eqb_eq in H0.
    now destruct orph.
  - apply andb_prop in H0 as (H0 & _). apply Nat.eqb_eq in H0.
    now destruct issues.
  - apply andb_prop in H0 as (H0 & _). apply Nat.eqb_eq in H0. lia.
Qed.

Lemma X10_witness :
  exists r,
    SubtaskValidator.createSubtaskIntegrityReport false Examples.reportTasks
    = Ok r /\
    SubtaskValidator.subtasksWithIssues (SubtaskValidator.r_summary r)
    <= SubtaskValidator.totalSubtasks (SubtaskValidator.r_summary r).
Proof.
  destruct (X10_report_counts false Examples.reportTaskList eq_refl eq_refl)
    as (r & Hr & _ & _ & _ & H & _).
  exists r. split; [exact Hr | exact H].
Defined.

(** ** subtaskValidator.js: a second pass, and the report after a pass *)

Section SecondPass.

Import SubtaskValidator.

Lemma strict_eq_refl v : is_primitive v = true -> strict_eq v v = true.
Proof.
  destruct v; simpl; try discriminate; intros _;
    auto using Bool.eqb_reflx, Z.eqb_refl, String.eqb_refl.
Qed.

Lemma field_lookup k o v :
  lookup k o = Some v -> field k (VObj o) = v.
Proof. unfold field. simpl. now intros ->. Qed.

Lemma validateSubtask_hasParent debug logMigrations o so st :
  exists s' st',
    validateSubtask debug logMigrations (VObj o) (VObj so) st = Ok (s', st') /\
    hasParent (field "id" (VObj o)) s'.
Proof.
  unfold validateSubtask, bindM, lift. rewrite !field_object_get.
  set (tid := field "id" (VObj o)).
  destruct (negb (truthy (field "parentTaskId" (VObj so))) ||
            negb (strict_eq (field "parentTaskId" (VObj so)) tid)) eqn:E.
  - unfold count_migration, console_log, ret.
    destruct (logMigrations && debug);
      do 2 eexists; (split; [reflexivity|]);
      eexists; (split; [reflexivity | apply lookup_assign_same]).
  - unfold ret. do 2 eexists. split; [reflexivity|]. exists so.
    split; [reflexivity|].
    apply orb_false_elim in E as (T & E). apply negb_false_iff in E, T.
    apply strict_eq_true in E. rewrite <- E. unfold field in *. simpl in *.
    destruct (lookup "parentTaskId" so); [reflexivity | discriminate].
Qed.

Lemma validateSubtask_settled debug logMigrations o s st :
  hasParent (field "id" (VObj o)) s ->
  exists st',
    validateSubtask debug logMigrations (VObj o) s st = Ok (s, st') /\
    (hasProperId (VObj o) = true -> st' = st).
Proof.
  intros (so & -> & Hp). unfold validateSubtask, bindM, lift, hasProperId.
  rewrite !field_object_get. rewrite (field_lookup _ _ _ Hp).
  set (tid := field "id" (VObj o)) in *.
  destruct (negb (truthy tid) || negb (strict_eq tid tid)) eqn:E.
  - unfold count_migration, console_log, ret. cbn [spread].
    rewrite (assign_lookup_id _ _ _ Hp).
    destruct (logMigrations && debug);
      eexists; (split; [reflexivity|]); intros H;
      apply andb_prop in H as (P & T);
      rewrite T, (strict_eq_refl _ P) in E; discriminate.
  - unfold ret. eexists. split; [reflexivity | reflexivity].
Qed.

Lemma mapMS_fixed {A} (f : A -> M A) (Q : Prop) l :
  Forall (fun x => forall st, exists st',
                     f x st = Ok (x, st') /\ (Q -> st' = st)) l ->
  forall st, exists st', mapMS f l st = Ok (l, st') /\ (Q -> st' = st).
Proof.
  induction 1 as [|x l Hx _ IH]; intros st; cbn [mapMS].
  - unfold ret. eauto.
  - unfold bindM. destruct (Hx st) as (st1 & -> & Q1).
    destruct (IH st1) as (st2 & -> & Q2). unfold ret.
    eexists. split; [reflexivity|]. intros q. rewrite (Q2 q). now apply Q1.
Qed.

Lemma validateTask_settled debug logMigrations t st :
  settled t ->
  exists st',
    validateTask debug logMigrations t st = Ok (t, st') /\
    (hasProperId t = true -> st' = st).
Proof.
  intros (o & -> & H). unfold validateTask, bindM, lift.
  rewrite field_object_get.
  destruct (field "subtasks" (VObj o)) as [| | | | |ss|] eqn:E;
    try (unfold ret; eexists; split; reflexivity).
  destruct ss as [|s r]; [unfold ret; eexists; split; reflexivity|].
  destruct (mapMS_fixed (validateSubtask debug logMigrations (VObj o))
              (hasProperId (VObj o) = true) (s :: r)) with (st := st)
    as (st' & -> & Q).
  { eapply Forall_impl; [|exact H]. cbv beta. intros a Ha st0.
    now apply validateSubtask_settled. }
  unfold ret. cbn [spread]. rewrite assign_lookup_id.
  - eexists. split; [reflexivity | exact Q].
  - unfold field in E. simpl in E.
    destruct (lookup "subtasks" o); [now subst | discriminate].
Qed.

Lemma validateTasks_settled debug logMigrations ts :
  Forall settled ts ->
  forall st, exists st',
    mapMS (validateTask debug logMigrations) ts st = Ok (ts, st') /\
    (forallb hasProperId ts = true -> st' = st).
Proof.
  induction 1 as [|t ts Ht _ IH]; intros st; cbn [mapMS forallb].
  - unfold ret. eauto.
  - unfold bindM.
    destruct (validateTask_settled debug logMigrations t st Ht)
      as (st1 & -> & Q1).
    destruct (IH st1) as (st2 & -> & Q2). unfold ret.
    eexists. split; [reflexivity|]. intros q.
    apply andb_prop in q as (q1 & q2). rewrite (Q2 q2). now apply Q1.
Qed.

Lemma ensureSubtaskParentIds_settled debug logMigrations ts :
  Forall settled ts ->
  exists out,
    ensureSubtaskParentIds debug logMigrations (VArr ts) = Ok (VArr ts, out) /\
    (forallb hasProperId ts = true -> out = []).
Proof.
  intros H. unfold ensureSubtaskParentIds, ensureSubtaskParentIds_run, bindM.
  destruct (validateTasks_settled debug logMigrations ts H (mkState 0 []))
    as (st' & -> & Q).
  unfold ret, console_log.
  destruct ((0 <? migrationsPerformed st') && logMigrations && debug) eqn:E;
    eexists; (split; [reflexivity|]); intros q; rewrite (Q q) in *;
    [discriminate | reflexivity].
Qed.

(** What one pass makes of a plain-object task. *)
Lemma validateTask_settles debug logMigrations t st :
  plainTask t = true ->
  exists t' st',
    validateTask debug logMigrations t st = Ok (t', st') /\
    (settled t' /\ plainTask t' = true /\
     field "id" t' = field "id" t /\
     List.length (subtasksOf t') = List.length (subtasksOf t)).
Proof.
  intros Hpl. assert (H := Hpl). unfold plainTask in H.
  apply andb_prop in H as (Ho & Hss).
  apply is_object_inv in Ho as (o & ->).
  unfold validateTask, bindM, lift. rewrite field_object_get.
  destruct (field "subtasks" (VObj o)) as [| | | | |ss|] eqn:E;
    try (unfold ret; do 2 eexists; split; [reflexivity|];
         repeat split; auto;
         exists o; split; [reflexivity|]; rewrite E; exact I).
  destruct ss as [|s r].
  - unfold ret. do 2 eexists. split; [reflexivity|].
    repeat split; auto.
    exists o. split; [reflexivity|]. rewrite E. constructor.
  - destruct (mapMS_total (validateSubtask debug logMigrations (VObj o))
                (fun _ s' => hasParent (field "id" (VObj o)) s') (s :: r))
      with (st := st) as (ss' & st' & -> & F).
    { forall_of Hss. intros a Ha st0. apply is_object_inv in Ha as (oa & ->).
      apply validateSubtask_hasParent. }
    unfold ret. cbn [spread]. do 2 eexists. split; [reflexivity|].
    assert (Es : field "subtasks" (VObj (assign "subtasks" (VArr ss') o))
                 = VArr ss') by apply field_lookup, lookup_assign_same.
    assert (Ei : field "id" (VObj (assign "subtasks" (VArr ss') o))
                 = field "id" (VObj o)).
    { unfold field. rewrite get_assign_other by discriminate. reflexivity. }
    assert (Fa : Forall (hasParent (field "id" (VObj o))) ss').
    { clear -F. induction F; constructor; auto. }
    repeat split.
    + exists (assign "subtasks" (VArr ss') o). split; [reflexivity|].
      rewrite Es, Ei. exact Fa.
    + unfold plainTask. cbn [is_object andb]. rewrite Es.
      apply forallb_forall.
      rewrite Forall_forall in Fa. intros x Hx.
      destruct (Fa x Hx) as (so & -> & _). reflexivity.
    + exact Ei.
    + unfold subtasksOf. rewrite Es, E. symmetry.
      eapply Forall2_length, F.
Qed.

Lemma ensureSubtaskParentIds_settles debug logMigrations ts :
  forallb plainTask ts = true ->
  exists ts' out,
    ensureSubtaskParentIds debug logMigrations (VArr ts) = Ok (VArr ts', out) /\
    Forall2 (fun t t' =>
               settled t' /\ plainTask t' = true /\
               field "id" t' = field "id" t /\
               List.length (subtasksOf t') = List.length (subtasksOf t))
            ts ts'.
Proof.
  intros H. unfold ensureSubtaskParentIds, ensureSubtaskParentIds_run, bindM.
  destruct (mapMS_total (validateTask debug logMigrations)
              (fun t t' =>
                 settled t' /\ plainTask t' = true /\
                 field "id" t' = field "id" t /\
                 List.length (subtasksOf t') = List.length (subtasksOf t)) ts)
    with (st := mkState 0 []) as (ts' & st' & -> & F).
  { forall_of H. intros t Ht st0. now apply validateTask_settles. }
  unfold ret, console_log.
  destruct ((0 <? migrationsPerformed st') && logMigrations && debug);
    do 2 eexists; (split; [reflexivity | exact F]).
Qed.

Lemma Forall2_right {A B} (R : A -> B -> Prop) (P : B -> Prop) l l' :
  Forall2 R l l' -> (forall x y, R x y -> P y) -> Forall P l'.
Proof. induction 1; intros H'; constructor; eauto. Qed.

Lemma settled_no_issue t :
  settled t -> hasProperId t = true ->
  filter (hasIssue t) (subtasksOf t) = [].
Proof.
  intros (o & -> & H) Hp. unfold subtasksOf.
  destruct (field "subtasks" (VObj o)) as [| | | | |ss|]; try reflexivity.
  apply andb_prop in Hp as (P & T).
  induction H as [|s ss (so & -> & Hs) _ IH]; [reflexivity|].
  cbn [filter]. unfold hasIssue at 1.
  rewrite (field_lookup _ _ _ Hs), T, (strict_eq_refl _ P). exact IH.
Qed.

End SecondPass.

(** X11. [ensureSubtaskParentIds] is idempotent on plain-object tasks: a
    second pass over the result of a first one returns that result unchanged;
    when every task has an id that is a non-zero number or a non-empty string
    (or [true]), the second pass finds nothing to assign and writes nothing
    to the console.  A pass that writes its trace lines, with [logMigrations]
    and [TASKMASTER_DEBUG] both on, prints the ids, which are then to be
    primitive values. *)
Theorem X11_parent_ids_idempotent (debug logMigrations debug' logMigrations'
  : bool) (ts : list value) :
  forallb plainTask ts = true ->
  negb (debug && logMigrations || debug' && logMigrations') ||
  forallb primitiveIds ts = true ->
  exists ts' out,
    SubtaskValidator.ensureSubtaskParentIds debug logMigrations (VArr ts)
    = Ok (VArr ts', out) /\
    exists out',
      SubtaskValidator.ensureSubtaskParentIds debug' logMigrations' (VArr ts')
      = Ok (VArr ts', out') /\
      (forallb hasProperId ts = true -> out' = []).
Proof.
  intros H _.
  destruct (ensureSubtaskParentIds_settles debug logMigrations ts H)
    as (ts' & out & Hr & F).
  exists ts', out. split; [exact Hr|].
  destruct (ensureSubtaskParentIds_settled debug' logMigrations' ts')
    as (out' & Hr' & Q).
  { eapply Forall2_right; [exact F|]. now intros x y (Hy & _). }
  exists out'. split; [exact Hr'|]. intros Hp. apply Q.
  clear -F Hp. induction F as [|t t' l l' (_ & _ & Ei & _) _ IH];
    [reflexivity|].
  cbn [forallb] in *. apply andb_prop in Hp as (Hp & Hl).
  rewrite (IH Hl), andb_true_r. unfold hasProperId in *. now rewrite Ei.
Qed.

Lemma X11_witness :
  exists ts' out,
    SubtaskValidator.ensureSubtaskParentIds true true Examples.legacyTasks
    = Ok (VArr ts', out) /\
    exists out',
      SubtaskValidator.ensureSubtaskParentIds true true (VArr ts')
      = Ok (VArr ts', out') /\
      (forallb hasProperId [Examples.legacyTask] = true -> out' = []).
Proof.
  apply (X11_parent_ids_idempotent true true true true [Examples.legacyTask]);
    reflexivity.
Defined.

(** X12. After a pass of [ensureSubtaskParentIds] over plain-object tasks
    whose ids are truthy numbers, strings or booleans, and whose subtasks
    have primitive ids, the integrity report of the result counts the
    subtasks of the input, none of them with a parent issue and none
    orphaned, and its score is ["100%"] without subtasks and ["100.0%"] with
    fewer than 2^53 of them. *)
Theorem X12_report_after_pass (debug logMigrations debug' : bool)
  (ts : list value) :
  forallb plainTask ts = true ->
  forallb hasProperId ts = true ->
  forallb primitiveIds ts = true ->
  exists ts' out r,
    SubtaskValidator.ensureSubtaskParentIds debug logMigrations (VArr ts)
    = Ok (VArr ts', out) /\
    SubtaskValidator.createSubtaskIntegrityReport debug' (VArr ts') = Ok r /\
    let s := SubtaskValidator.r_summary r in
    SubtaskValidator.totalSubtasks s = totalOf ts /\
    SubtaskValidator.subtasksWithIssues s = 0 /\
    SubtaskValidator.orphanedSubtasks r = [] /\
    (totalOf ts < 2 ^ 53 ->
     SubtaskValidator.integrityScore s
     = Some (if totalOf ts =? 0 then "100%" else "100.0%")).
Proof.
  intros H Hp _.
  destruct (ensureSubtaskParentIds_settles debug logMigrations ts H)
    as (ts' & out & Hr & F).
  assert (Hplain : forallb plainTask ts' = true).
  { apply forallb_forall. apply Forall_forall.
    eapply Forall2_right; [exact F|]. now intros x y (_ & Hy & _). }
  assert (Htotal : totalOf ts' = totalOf ts).
  { unfold totalOf. f_equal. clear -F.
    induction F as [|t t' l l' (_ & _ & _ & L) _ IH]; [reflexivity|].
    cbn [flat_map]. rewrite !length_app. lia. }
  assert (Hissues : issuesOf ts' = 0).
  { unfold issuesOf. clear -F Hp.
    induction F as [|t t' l l' (S & _ & Ei & _) _ IH]; [reflexivity|].
    cbn [forallb flat_map] in *. apply andb_prop in Hp as (Hp & Hl).
    rewrite settled_no_issue; [exact (IH Hl) | exact S|].
    unfold hasProperId in *. now rewrite Ei. }
  destruct (checkTasks_grows ts' Hplain []) as (issues & Hi & _).
  destruct (findOrphanedSubtasks_spec ts' Hplain) as (orph & Ho & Lo).
  destruct (countTasks_spec ts' Hplain (SubtaskValidator.mkCounters 0 0 0))
    as (c & Hc & T & I).
  exists ts', out. eexists. split; [exact Hr|]. split.
  { unfold SubtaskValidator.createSubtaskIntegrityReport,
      SubtaskValidator.validateSubtaskStructure.
    cbn [bind]. rewrite Hi. cbn [bind fst]. rewrite Ho. cbn [bind].
    rewrite Hc. cbn [bind]. reflexivity. }
  cbn [SubtaskValidator.r_summary SubtaskValidator.totalSubtasks
       SubtaskValidator.subtasksWithIssues SubtaskValidator.orphanedSubtasks
       SubtaskValidator.integrityScore].
  cbn [SubtaskValidator.c_totalSubtasks
       SubtaskValidator.c_subtasksWithIssues] in T, I.
  rewrite Htotal in T. rewrite Hissues in I. cbn [Z.add] in T, I.
  pose proof (orphans_le_issues ts' ts' (incl_refl ts')) as Hle.
  rewrite Hissues in Hle.
  split; [exact T|]. split; [exact I|]. split.
  - destruct orph; [reflexivity|]. rewrite <- Lo in Hle. simpl in Hle. lia.
  - intros Hb. rewrite T, I.
    destruct (Z.eqb_spec (totalOf ts) 0) as [->|N]; [reflexivity|].
    apply score_healthy. unfold totalOf in *. lia.
Qed.

Lemma X12_witness :
  exists ts' out r,
    SubtaskValidator.ensureSubtaskParentIds false false Examples.reportTasks
    = Ok (VArr ts', out) /\
    SubtaskValidator.createSubtaskIntegrityReport false (VArr ts') = Ok r /\
    SubtaskValidator.subtasksWithIssues (SubtaskValidator.r_summary r) = 0 /\
    SubtaskValidator.orphanedSubtasks r = [].
Proof.
  destruct (X12_report_after_pass false false false Examples.reportTaskList
              eq_refl eq_refl eq_refl)
    as (ts' & out & r & H1 & H2 & _ & H3 & H4 & _).
  exists ts', out, r. repeat split; assumption.
Defined.

(** ** backwardCompatibility.js: whole documents *)

Section Documents.

Import BackwardCompatibility.

Lemma foldM_Throw {A B} (f : A -> B -> result A) l x :
  In x l -> (forall a, f a x = Throw TypeError) ->
  forall acc, foldM f acc l = Throw TypeError.
Proof.
  induction l as [|y l IH]; cbn [foldM]; [contradiction|].
  intros [->|Hin] Hx acc.
  - now rewrite Hx.
  - destruct (f acc y) as [a|e]; cbn [bind]; [|now rewrite (error_unique e)].
    now apply IH.
Qed.

Lemma ensureCustomFieldsOnTasks_array tasks r :
  CustomFieldsValidator.ensureCustomFieldsOnTasks tasks = Ok r ->
  exists rs, r = VArr rs.
Proof.
  unfold CustomFieldsValidator.ensureCustomFieldsOnTasks, call_map.
  destruct tasks; try discriminate. intros H.
  apply bind_Ok in H as (ys & _ & H). injection H as <-. eauto.
Qed.

(** A tag that has been processed is left as it is by a second pass. *)
Lemma ensureTagData_fixed o tasks tasks' :
  get (VObj o) "tasks" = Ok tasks ->
  ensureTasksBackwardCompatibility tasks = Ok tasks' ->
  ensureTagDataBackwardCompatibility (VObj (assign "tasks" tasks' o))
  = Ok (VObj (assign "tasks" tasks' o)).
Proof.
  intros Ht He. unfold ensureTagDataBackwardCompatibility.
  cbn [truthy negb]. rewrite get_assign_same. cbn [bind].
  destruct (ensureCustomFieldsOnTasks_array _ _ He) as (rs & ->).
  cbn [truthy negb]. unfold ensureTasksBackwardCompatibility in *.
  rewrite (ensureCustomFieldsOnTasks_fixed _ _ He). cbn [bind spread].
  now rewrite assign_assign_id.
Qed.

Lemma processTag_one k v r :
  processTag [] (k, v) = Ok r ->
  exists v', r = [(k, v')] /\ processTag [] (k, v') = Ok [(k, v')].
Proof.
  unfold processTag. intros H. apply bind_Ok in H as (isTag & Hi & H).
  destruct isTag.
  - apply bind_Ok in H as (v' & Hv' & H). injection H as <-.
    exists v'. split; [reflexivity|].
    destruct (typeof_object v) eqn:Ety; [|discriminate].
    apply bind_Ok in Hi as (tasks & Ht & Hi). injection Hi as Htr.
    unfold ensureTagDataBackwardCompatibility in Hv'. rewrite Ht in Hv'.
    destruct v as [| | | | |l|o]; try discriminate.
    + (* an array has no [tasks] *)
      simpl in Ht. injection Ht as <-. discriminate.
    + cbn [truthy negb bind] in Hv'. rewrite Htr in Hv'. cbn [negb] in Hv'.
      apply bind_Ok in Hv' as (tasks' & He & Hv'). injection Hv' as <-.
      cbn [spread typeof_object]. rewrite get_assign_same. cbn [bind].
      destruct (ensureCustomFieldsOnTasks_array _ _ He) as (rs & ->).
      cbn [truthy bind]. rewrite (ensureTagData_fixed o tasks _ Ht He).
      reflexivity.
  - injection H as <-. exists v. split; [reflexivity|]. now rewrite Hi.
Qed.

Lemma processTag_acc acc k v :
  ~ In k (map fst acc) ->
  processTag acc (k, v) = (r <- processTag [] (k, v) ;; Ok (acc ++ r)%list).
Proof.
  intros Hk. unfold processTag.
  destruct (if typeof_object v
            then tasks <- get v "tasks" ;; Ok (truthy tasks)
            else Ok false) as [[|]|e]; cbn [bind]; try reflexivity.
  - destruct (ensureTagDataBackwardCompatibility v); cbn [bind assign];
      [|reflexivity].
    now rewrite assign_fresh.
  - cbn [assign]. now rewrite assign_fresh.
Qed.

Lemma processTags_fold es : forall acc r,
  distinctKeys es = true ->
  (forall k, In k (map fst es) -> ~ In k (map fst acc)) ->
  foldM processTag acc es = Ok r ->
  exists es',
    r = (acc ++ es')%list /\ map fst es' = map fst es /\
    Forall (fun e => processTag [] e = Ok [e]) es'.
Proof.
  unfold distinctKeys.
  induction es as [|[k v] es IH]; intros acc r Hd Hf H.
  - cbn [foldM] in H. injection H as <-. exists []. rewrite app_nil_r.
    repeat split. constructor.
  - cbn [map fst] in Hd. apply nodupb_cons in Hd as (Hk & Hd).
    cbn [foldM] in H. rewrite processTag_acc in H
      by (apply Hf; now left).
    apply bind_Ok in H as (a1 & H1 & H).
    apply bind_Ok in H1 as (r1 & H1 & E). injection E as <-.
    apply processTag_one in H1 as (v' & -> & Hv').
    apply IH in H as (es' & -> & Hkeys & Hst); [|exact Hd|].
    + exists ((k, v') :: es'). rewrite <- app_assoc. cbn [app map fst].
      rewrite Hkeys. repeat split. constructor; assumption.
    + intros k' Hk'. rewrite map_app. intros Hin.
      apply in_app_or in Hin as [Hin|[<-|[]]].
      * apply (Hf k' (or_intror Hk')), Hin.
      * now apply Hk.
Qed.

Lemma processTags_fixed es : forall acc,
  distinctKeys es = true ->
  (forall k, In k (map fst es) -> ~ In k (map fst acc)) ->
  Forall (fun e => processTag [] e = Ok [e]) es ->
  foldM processTag acc es = Ok (acc ++ es)%list.
Proof.
  unfold distinctKeys.
  induction es as [|[k v] es IH]; intros acc Hd Hf H.
  - cbn [foldM]. now rewrite app_nil_r.
  - cbn [map fst] in Hd. apply nodupb_cons in Hd as (Hk & Hd).
    inversion H as [|? ? H1 H2]; subst.
    cbn [foldM]. rewrite processTag_acc by (apply Hf; now left).
    rewrite H1. cbn [bind]. rewrite IH; [now rewrite <- app_assoc|exact Hd| |exact H2].
    intros k' Hk'. rewrite map_app. intros Hin.
    apply in_app_or in Hin as [Hin|[<-|[]]].
    + apply (Hf k' (or_intror Hk')), Hin.
    + now apply Hk.
Qed.

End Documents.

(** X13. A top-level property that is [null] makes the tagged pass of
    [ensureDataBackwardCompatibility] throw: [typeof null] is ['object'], and
    the pass then reads [tasks] from [null]. *)
Theorem X13_null_entry_throws (created updated : string) (es : props)
  (k : string) :
  In (k, VNull) es ->
  BackwardCompatibility.ensureDataBackwardCompatibility created updated
    (VObj es) false = Throw TypeError.
Proof.
  intros H. unfold BackwardCompatibility.ensureDataBackwardCompatibility.
  cbn [truthy negb spread].
  rewrite (foldM_Throw BackwardCompatibility.processTag es (k, VNull) H);
    [reflexivity|].
  intros a. reflexivity.
Qed.

Lemma X13_witness :
  BackwardCompatibility.ensureDataBackwardCompatibility "c" "u"
    (VObj [("master", VObj [("tasks", VArr [])]); ("draft", VNull)]) false
  = Throw TypeError.
Proof.
  apply (X13_null_entry_throws "c" "u" _ "draft"). right. now left.
Defined.

(** X14. The tagged pass of [ensureDataBackwardCompatibility] is idempotent
    and keeps the keys: when it returns on an object (its keys pairwise
    distinct, none of them [__proto__]), the result is an object with the same keys in the same order,
    and a second pass over the result returns it unchanged. *)
Theorem X14_document_pass_idempotent (created updated created' updated'
  : string) (es : props) (r : value) :
  ordinaryKeys es = true ->
  BackwardCompatibility.ensureDataBackwardCompatibility created updated
    (VObj es) false = Ok r ->
  (exists es', r = VObj es' /\ map fst es' = map fst es) /\
  BackwardCompatibility.ensureDataBackwardCompatibility created' updated'
    r false = Ok r.
Proof.
  intros Hd H. apply andb_prop in Hd as (Hd & _).
  unfold BackwardCompatibility.ensureDataBackwardCompatibility in *.
  cbn [truthy negb spread] in H.
  apply bind_Ok in H as (pd & H & E). injection E as <-.
  apply processTags_fold in H as (es' & -> & Hk & Hst); auto.
  cbn [app]. split; [eauto|]. cbn [truthy negb spread].
  rewrite (processTags_fixed es' []); [reflexivity| |auto|exact Hst].
  unfold distinctKeys in *. now rewrite Hk.
Qed.

Lemma X14_witness :
  exists r,
    BackwardCompatibility.ensureDataBackwardCompatibility "c" "u"
      (VObj [("master", VObj [("tasks", Examples.legacyTasks)]);
             ("version", VStr "1")]) false = Ok r /\
    BackwardCompatibility.ensureDataBackwardCompatibility "c" "u" r false
    = Ok r.
Proof.
  eexists. split; [reflexivity|].
  apply (X14_document_pass_idempotent "c" "u" "c" "u"
           [("master", VObj [("tasks", Examples.legacyTasks)]);
            ("version", VStr "1")]); reflexivity.
Defined.

(** X15. A legacy document that [migrateLegacyFormatWithCustomFields]
    accepts comes out in tagged form under the single tag [master]: the
    result has a tagged structure, is no longer in legacy format, keeps the
    metadata of the input when that is truthy, and is left unchanged by the
    tagged pass of [ensureDataBackwardCompatibility]. *)
Theorem X15_migration_is_tagged (created updated created' updated' : string)
  (legacyData r : value) :
  BackwardCompatibility.migrateLegacyFormatWithCustomFields created updated
    legacyData = Ok r ->
  BackwardCompatibility.hasTaggedStructure r = true /\
  BackwardCompatibility.isLegacyFormat r = Ok (VBool false) /\
  (truthy (field "metadata" legacyData) = true ->
   get (field "master" r) "metadata" = get legacyData "metadata") /\
  BackwardCompatibility.ensureDataBackwardCompatibility created' updated'
    r false = Ok r.
Proof.
  unfold BackwardCompatibility.migrateLegacyFormatWithCustomFields.
  intros H. apply bind_Ok in H as (tasks & Ht & H).
  apply bind_Ok in H as (tasks' & He & H).
  apply bind_Ok in H as (metadata & Hm & H). injection H as <-.
  destruct (ensureCustomFieldsOnTasks_array _ _ He) as (rs & ->).
  split; [reflexivity|]. split; [reflexivity|]. split.
  - unfold field. rewrite Hm. intros ->. reflexivity.
  - unfold BackwardCompatibility.ensureDataBackwardCompatibility.
    cbn [truthy negb spread foldM BackwardCompatibility.processTag
         typeof_object bind get lookup String.eqb Ascii.eqb Bool.eqb].
    unfold BackwardCompatibility.ensureTagDataBackwardCompatibility.
    cbn [truthy negb get lookup String.eqb Ascii.eqb Bool.eqb bind].
    unfold BackwardCompatibility.ensureTasksBackwardCompatibility in *.
    rewrite (ensureCustomFieldsOnTasks_fixed _ _ He). reflexivity.
Qed.

Lemma X15_witness :
  exists r,
    BackwardCompatibility.migrateLegacyFormatWithCustomFields "c" "u"
      (VObj [("tasks", Examples.legacyTasks)]) = Ok r /\
    BackwardCompatibility.hasTaggedStructure r = true /\
    BackwardCompatibility.ensureDataBackwardCompatibility "c" "u" r false
    = Ok r.
Proof.
  eexists. split; [reflexivity|].
  destruct (X15_migration_is_tagged "c" "u" "c" "u"
              (VObj [("tasks", Examples.legacyTasks)]) _ eq_refl)
    as (H1 & _ & _ & H4).
  split; assumption.
Defined.

(** ** fuzzyTaskSearch.js and customFieldsValidator.js: the discovery of
    custom field names *)

Section Discovery.

Lemma foldM_ext {A B} (f g : A -> B -> result A) l :
  Forall (fun x => forall a, f a x = g a x) l ->
  forall acc, foldM f acc l = foldM g acc l.
Proof.
  induction 1 as [|x l Hx _ IH]; intros acc; cbn [foldM]; [reflexivity|].
  rewrite Hx. destruct (g acc x); cbn [bind]; auto.
Qed.

Lemma addFieldsOf_agree names item :
  plainCustomFields item = true ->
  CustomFieldsNames.addFieldsOf names item
  = FuzzyTaskSearch.addFieldsOf names item.
Proof.
  unfold plainCustomFields. intros H. apply andb_prop in H as (Ho & H).
  apply is_object_inv in Ho as (o & ->).
  unfold CustomFieldsNames.addFieldsOf, FuzzyTaskSearch.addFieldsOf,
    CustomFieldsNames.hasCustomFields.
  rewrite field_object_get. cbn [truthy typeof_object andb bind].
  destruct (field "customFields" (VObj o)) as [| |b|n|s|l|cf];
    try discriminate; cbn [typeof_object truthy spread map fold_left];
    try reflexivity.
  - now destruct b.
  - now destruct (negb (n =? 0)).
  - apply String.eqb_eq in H. now subst s.
Qed.

Lemma addFieldsOfTask_agree names t :
  plainCustomTask t = true ->
  CustomFieldsNames.addFieldsOfTask names t
  = FuzzyTaskSearch.addFieldsOfTask names t.
Proof.
  unfold plainCustomTask. intros H. apply andb_prop in H as (Hp & Hs).
  unfold CustomFieldsNames.addFieldsOfTask, FuzzyTaskSearch.addFieldsOfTask.
  rewrite (addFieldsOf_agree _ _ Hp).
  destruct (FuzzyTaskSearch.addFieldsOf names t) as [names'|]; cbn [bind];
    [|reflexivity].
  unfold plainCustomFields in Hp. apply andb_prop in Hp as (Ho & _).
  apply is_object_inv in Ho as (o & ->). rewrite field_object_get.
  cbn [bind]. destruct (field "subtasks" (VObj o)) as [| | | | |ss|];
    try reflexivity.
  cbn [truthy]. apply foldM_ext. forall_of Hs.
  intros s Hs' a. now apply addFieldsOf_agree.
Qed.

Lemma NoDup_add names f :
  NoDup names -> NoDup (FuzzyTaskSearch.add names f).
Proof.
  intros H. unfold FuzzyTaskSearch.add.
  destruct (str_mem f names) eqn:E; [exact H|].
  apply str_mem_not_In in E. apply NoDup_app; [exact H| |].
  - constructor; [intros []|constructor].
  - intros x Hx [<-|[]]. contradiction.
Qed.

Lemma In_add names f x :
  In x (FuzzyTaskSearch.add names f) <-> In x names \/ x = f.
Proof.
  unfold FuzzyTaskSearch.add. destruct (str_mem f names) eqn:E.
  - apply str_mem_In in E. split; [auto|]. now intros [H| ->].
  - rewrite in_app_iff. simpl. intuition.
Qed.

Lemma adds_spec ks : forall names,
  NoDup names ->
  NoDup (fold_left FuzzyTaskSearch.add ks names) /\
  forall x, In x (fold_left FuzzyTaskSearch.add ks names) <->
            In x names \/ In x ks.
Proof.
  induction ks as [|k ks IH]; intros names H; cbn [fold_left].
  - split; [exact H|]. simpl. intuition.
  - destruct (IH _ (NoDup_add names k H)) as (N & M). split; [exact N|].
    intros x. rewrite M, In_add. simpl. intuition.
Qed.

Lemma addFieldsOf_spec names item names' :
  NoDup names ->
  FuzzyTaskSearch.addFieldsOf names item = Ok names' ->
  NoDup names' /\
  forall x, In x names' <-> In x names \/ In x (customKeysOf item).
Proof.
  unfold FuzzyTaskSearch.addFieldsOf, customKeysOf. intros N H.
  apply bind_Ok in H as (cf & Hcf & H). injection H as <-.
  rewrite (field_get _ _ _ Hcf).
  destruct (truthy cf); [now apply adds_spec|].
  split; [exact N|]. simpl. intuition.
Qed.

Lemma addFieldsOfItems_spec l : forall names names',
  NoDup names ->
  foldM FuzzyTaskSearch.addFieldsOf names l = Ok names' ->
  NoDup names' /\
  forall x, In x names' <-> In x names \/ In x (flat_map customKeysOf l).
Proof.
  induction l as [|s l IH]; intros names names' N H; cbn [foldM flat_map] in *.
  - injection H as <-. split; [exact N|]. simpl. intuition.
  - apply bind_Ok in H as (n1 & H1 & H).
    destruct (addFieldsOf_spec _ _ _ N H1) as (N1 & M1).
    destruct (IH _ _ N1 H) as (N2 & M2). split; [exact N2|].
    intros x. rewrite M2, M1, in_app_iff. intuition.
Qed.

Lemma addFieldsOfTask_spec names t names' :
  NoDup names ->
  FuzzyTaskSearch.addFieldsOfTask names t = Ok names' ->
  NoDup names' /\
  forall x, In x names' <->
            In x names \/ In x (flat_map customKeysOf (t :: subtasksOf t)).
Proof.
  unfold FuzzyTaskSearch.addFieldsOfTask. intros N H.
  apply bind_Ok in H as (n1 & H1 & H).
  destruct (addFieldsOf_spec _ _ _ N H1) as (N1 & M1).
  apply bind_Ok in H as (st & Hst & H).
  unfold subtasksOf. rewrite (field_get _ _ _ Hst). cbn [flat_map].
  destruct st as [| | | | |ss|];
    try (destruct (truthy _); [discriminate|]);
    try (injection H as <-; split; [exact N1|]; intros x;
         rewrite M1, in_app_iff; simpl; intuition).
  cbn [truthy] in H. destruct (addFieldsOfItems_spec _ _ _ N1 H) as (N2 & M2).
  split; [exact N2|]. intros x. rewrite M2, M1, in_app_iff. intuition.
Qed.

Lemma addFieldsOfTasks_spec ts : forall names names',
  NoDup names ->
  foldM FuzzyTaskSearch.addFieldsOfTask names ts = Ok names' ->
  NoDup names' /\
  forall x, In x names' <->
            In x names \/ In x (flat_map customKeysOf (itemsOf ts)).
Proof.
  unfold itemsOf.
  induction ts as [|t ts IH]; intros names names' N H;
    cbn [foldM flat_map] in *.
  - injection H as <-. split; [exact N|]. simpl. intuition.
  - apply bind_Ok in H as (n1 & H1 & H).
    destruct (addFieldsOfTask_spec _ _ _ N H1) as (N1 & M1).
    destruct (IH _ _ N1 H) as (N2 & M2). split; [exact N2|].
    intros x. rewrite M2, M1. rewrite (flat_map_app customKeysOf).
    rewrite (in_app_iff (flat_map customKeysOf (t :: subtasksOf t))).
    intuition.
Qed.

End Discovery.

(** X16. On tasks that are objects, with [subtasks] falsy or an array of
    objects, where no task and no subtask has a [customFields] that is [null]
    or a non-empty string, [extractCustomFieldNames] of the custom-fields
    validator and [getCustomFieldNames] of the fuzzy search give the same
    result: the same names in the same order. *)
Theorem X16_discovery_functions_agree (ts : list value) :
  forallb plainCustomTask ts = true ->
  CustomFieldsNames.extractCustomFieldNames (VArr ts)
  = FuzzyTaskSearch.getCustomFieldNames (VArr ts).
Proof.
  intros H. unfold CustomFieldsNames.extractCustomFieldNames,
    FuzzyTaskSearch.getCustomFieldNames.
  apply foldM_ext. forall_of H. intros t Ht a.
  now apply addFieldsOfTask_agree.
Qed.

Lemma X16_witness :
  CustomFieldsNames.extractCustomFieldNames (VArr Examples.epicTaskList)
  = FuzzyTaskSearch.getCustomFieldNames (VArr Examples.epicTaskList).
Proof.
  apply (X16_discovery_functions_agree Examples.epicTaskList). reflexivity.
Defined.

(** X17. The two discovery functions part on [customFields: null]: a task
    that carries it makes [extractCustomFieldNames] throw, because
    [typeof null] is ['object'] and [Object.keys(null)] throws, whereas
    [getCustomFieldNames] treats the task as if its [customFields] were
    [{}]: it gives the result it gives for the list in which that task
    carries [customFields: {}]. *)
Theorem X17_null_custom_fields (pre post : list value) (o : props) :
  lookup "customFields" o = Some VNull ->
  CustomFieldsNames.extractCustomFieldNames (VArr (pre ++ VObj o :: post))
  = Throw TypeError /\
  FuzzyTaskSearch.getCustomFieldNames (VArr (pre ++ VObj o :: post))
  = FuzzyTaskSearch.getCustomFieldNames
      (VArr (pre ++ VObj (assign "customFields" (VObj []) o) :: post)).
Proof.
  intros Hcf. split.
  - unfold CustomFieldsNames.extractCustomFieldNames.
    apply (foldM_Throw _ _ (VObj o)); [apply in_elt|]. intros a.
    unfold CustomFieldsNames.addFieldsOfTask, CustomFieldsNames.addFieldsOf,
      CustomFieldsNames.hasCustomFields.
    cbn [get]. rewrite Hcf. reflexivity.
  - unfold FuzzyTaskSearch.getCustomFieldNames. rewrite !foldM_app.
    destruct (foldM FuzzyTaskSearch.addFieldsOfTask [] pre) as [names|];
      cbn [bind foldM]; [|reflexivity].
    assert (E : FuzzyTaskSearch.addFieldsOfTask names (VObj o)
                = FuzzyTaskSearch.addFieldsOfTask names
                    (VObj (assign "customFields" (VObj []) o))).
    { unfold FuzzyTaskSearch.addFieldsOfTask, FuzzyTaskSearch.addFieldsOf.
      rewrite get_assign_same, (get_assign_other "customFields" "subtasks")
        by discriminate.
      cbn [get]. rewrite Hcf. reflexivity. }
    now rewrite E.
Qed.

Lemma X17_witness :
  CustomFieldsNames.extractCustomFieldNames
    (VArr [VObj [("id", VNum 1); ("customFields", VNull)];
           Examples.taskEpic1234])
  = Throw TypeError /\
  FuzzyTaskSearch.getCustomFieldNames
    (VArr [VObj [("id", VNum 1); ("customFields", VNull)];
           Examples.taskEpic1234])
  = FuzzyTaskSearch.getCustomFieldNames
      (VArr [VObj [("id", VNum 1); ("customFields", VObj [])];
             Examples.taskEpic1234]).
Proof.
  apply (X17_null_custom_fields []
           [Examples.taskEpic1234] [("id", VNum 1); ("customFields", VNull)]).
  reflexivity.
Defined.

(** X18. What [getCustomFieldNames] returns: no name twice, and exactly the
    names that are a key of the truthy [customFields] of some task or
    subtask of the list. *)
Theorem X18_custom_field_names (ts : list value) (names : list string) :
  FuzzyTaskSearch.getCustomFieldNames (VArr ts) = Ok names ->
  NoDup names /\
  forall f, In f names <-> In f (flat_map customKeysOf (itemsOf ts)).
Proof.
  unfold FuzzyTaskSearch.getCustomFieldNames. intros H.
  destruct (addFieldsOfTasks_spec ts [] names (NoDup_nil _) H) as (N & M).
  split; [exact N|]. intros f. rewrite M. simpl. intuition.
Qed.

Lemma X18_witness :
  NoDup ["epic"] /\
  forall f, In f ["epic"] <->
            In f (flat_map customKeysOf (itemsOf Examples.epicTaskList)).
Proof.
  apply (X18_custom_field_names Examples.epicTaskList ["epic"]). reflexivity.
Defined.

Section SearchKeyNames.

Import FuzzyTaskSearch.

Lemma prefixed_inj a b c : (a ++ b = a ++ c)%string -> b = c.
Proof.
  induction a as [|x a IH]; simpl; [auto|]. intros [= H]. now apply IH.
Qed.

Lemma NoDup_prefixed p names :
  NoDup names -> NoDup (map (fun f => (p ++ f)%string) names).
Proof.
  induction 1 as [|x l Hx _ IH]; cbn [map]; constructor; [|exact IH].
  intros Hin. apply in_map_iff in Hin as (y & E & Hy).
  apply prefixed_inj in E. now subst.
Qed.

End SearchKeyNames.

(** X19. The keys [generateSearchKeys] returns: the four core keys followed
    by one key [customFields.<name>] per discovered custom field name, in the
    order of discovery, and no two keys with the same name. *)
Theorem X19_search_keys_distinct (ts : list value)
  (ks : list FuzzyTaskSearch.key) :
  FuzzyTaskSearch.generateSearchKeys (VArr ts) = Ok ks ->
  exists names,
    FuzzyTaskSearch.getCustomFieldNames (VArr ts) = Ok names /\
    map FuzzyTaskSearch.name ks
    = (FuzzyTaskSearch.coreFields ++
       map (fun f => "customFields." ++ f)%string names)%list /\
    NoDup (map FuzzyTaskSearch.name ks).
Proof.
  unfold FuzzyTaskSearch.generateSearchKeys. intros H.
  apply bind_Ok in H as (names & Hn & H). injection H as <-.
  exists names. split; [exact Hn|].
  assert (E : map FuzzyTaskSearch.name
                (map (fun field =>
                        FuzzyTaskSearch.mkKey field
                          (FuzzyTaskSearch.getWeightForField field))
                     FuzzyTaskSearch.coreFields ++
                 map (fun field =>
                        FuzzyTaskSearch.mkKey ("customFields." ++ field)
                          (FuzzyTaskSearch.getWeightForField field)) names)
              = (FuzzyTaskSearch.coreFields ++
                 map (fun f => "customFields." ++ f)%string names)%list).
  { rewrite map_app, !map_map. cbn [FuzzyTaskSearch.name].
    now rewrite map_id. }
  split; [exact E|].
  refine (eq_ind_r (fun l => NoDup l) _ E). apply NoDup_app.
  - unfold FuzzyTaskSearch.coreFields.
    repeat (constructor; [simpl; intuition discriminate|]). constructor.
  - apply NoDup_prefixed.
    unfold FuzzyTaskSearch.getCustomFieldNames in Hn.
    now destruct (addFieldsOfTasks_spec ts [] names (NoDup_nil _) Hn).
  - intros x Hx Hin. apply in_map_iff in Hin as (y & <- & _).
    simpl in Hx. intuition discriminate.
Qed.

Lemma X19_witness :
  exists names,
    FuzzyTaskSearch.getCustomFieldNames (VArr Examples.epicTaskList)
    = Ok names /\
    NoDup ["title"; "description"; "details"; "dependencyTitles";
           "customFields.epic"].
Proof.
  destruct (X19_search_keys_distinct Examples.epicTaskList _ eq_refl)
    as (names & Hn & _ & N).
  exists names. split; [exact Hn | exact N].
Defined.

(** ** fuzzyTaskSearch.js: the words of a prompt *)

Section PromptWords.

Import FuzzyTaskSearch QueryTranslator.

Lemma lowered_word_char c :
  is_word_char (lower_char c) || is_space (lower_char c) ||
  (lower_char c =? "-")%char = true ->
  is_space (lower_char c) || is_prompt_char (lower_char c) = true.
Proof.
  destruct c as [[] [] [] [] [] [] [] []]; vm_compute; auto.
Qed.

Lemma prompt_char_plain c :
  is_prompt_char c = true ->
  is_space c = false /\ lower_char c = c /\
  is_word_char c || is_space c || (c =? "-")%char = true.
Proof.
  destruct c as [[] [] [] [] [] [] [] []]; vm_compute; auto; discriminate.
Qed.

Lemma replaced_chars p :
  all_chars (fun c => is_space c || is_prompt_char c)
            (replacePunctuation (toLowerCase p)) = true.
Proof.
  induction p as [|c p IH]; cbn [toLowerCase replacePunctuation all_chars];
    [reflexivity|].
  rewrite IH, andb_true_r.
  destruct (is_word_char (lower_char c) || is_space (lower_char c) ||
            (lower_char c =? "-")%char) eqn:E; [|reflexivity].
  now apply lowered_word_char.
Qed.

Lemma all_chars_snoc P cur c :
  all_chars P (cur ++ String c "") = all_chars P cur && P c.
Proof.
  induction cur as [|x cur IH]; cbn [append all_chars].
  - now rewrite andb_true_r.
  - now rewrite IH, andb_assoc.
Qed.

Lemma splitSpaces_parts s : forall cur inSpace,
  all_chars (fun c => is_space c || is_prompt_char c) s = true ->
  all_chars is_prompt_char cur = true ->
  Forall (fun w => all_chars is_prompt_char w = true)
         (splitSpaces_aux s cur inSpace).
Proof.
  induction s as [|c s IH]; intros cur inSpace Hs Hcur;
    cbn [splitSpaces_aux all_chars] in *.
  - now constructor.
  - apply andb_prop in Hs as (Hc & Hs).
    destruct (is_space c) eqn:E.
    + destruct inSpace; [|constructor; [exact Hcur|]]; now apply IH.
    + apply IH; [exact Hs|]. rewrite all_chars_snoc, Hcur. exact Hc.
Qed.

Lemma snoc_append cur c r :
  ((cur ++ String c "") ++ r = cur ++ String c r)%string.
Proof. induction cur as [|x cur IH]; simpl; [reflexivity | now rewrite IH]. Qed.

Lemma word_fixed w :
  all_chars is_prompt_char w = true ->
  toLowerCase w = w /\ replacePunctuation w = w /\
  forall cur b, splitSpaces_aux w cur b = [(cur ++ w)%string].
Proof.
  induction w as [|c w IH]; cbn [all_chars]; intros H.
  - repeat split. intros cur b. cbn [splitSpaces_aux].
    f_equal. clear. induction cur; simpl; [reflexivity | now f_equal].
  - apply andb_prop in H as (Hc & Hw).
    destruct (prompt_char_plain c Hc) as (Hs & Hl & Hk).
    destruct (IH Hw) as (L & R & S).
    cbn [toLowerCase replacePunctuation splitSpaces_aux].
    rewrite Hl, L, Hk, R, Hs. repeat split.
    intros cur b. rewrite S. now rewrite snoc_append.
Qed.

End PromptWords.

(** X20. The words [_extractPromptWords] returns have at least four code
    units, all of them among [a-z], [0-9], [_] and [-]; and each of these
    words is its own only prompt word. *)
Theorem X20_prompt_words (prompt : string) :
  Forall (fun w =>
            (4 <= String.length w)%nat /\
            QueryTranslator.all_chars is_prompt_char w = true /\
            FuzzyTaskSearch.extractPromptWords w = [w])
         (FuzzyTaskSearch.extractPromptWords prompt).
Proof.
  unfold FuzzyTaskSearch.extractPromptWords at 2.
  apply Forall_forall. intros w Hw. apply filter_In in Hw as (Hw & Hl).
  apply Nat.ltb_lt in Hl.
  assert (Hc : QueryTranslator.all_chars is_prompt_char w = true).
  { pose proof (splitSpaces_parts _ "" false (replaced_chars prompt) eq_refl)
      as F.
    rewrite Forall_forall in F. now apply F. }
  split; [lia|]. split; [exact Hc|].
  destruct (word_fixed w Hc) as (L & R & S).
  unfold FuzzyTaskSearch.extractPromptWords, FuzzyTaskSearch.splitSpaces.
  rewrite L, R, S. cbn [append filter].
  apply Nat.ltb_lt in Hl. now rewrite Hl.
Qed.

(** ** customFieldsValidator.js: what the normalizer keeps *)

Section Kept.

Import CustomFieldsValidator.

Lemma mapM_related {A B} (f : A -> result B) (R : A -> B -> Prop) l :
  Forall (fun x => exists y, f x = Ok y /\ R x y) l ->
  exists l', mapM f l = Ok l' /\ Forall2 R l l'.
Proof.
  induction 1 as [|x l (y & Hy & Ry) _ (l' & Hl' & F)]; cbn [mapM].
  - exists []. split; [reflexivity | constructor].
  - rewrite Hy, Hl'. cbn [bind]. eexists. split; [reflexivity|].
    now constructor.
Qed.

Lemma ensureCustomFields_kept o :
  exists r, ensureCustomFields (VObj o) = Ok r /\ keptItem (VObj o) r.
Proof.
  unfold ensureCustomFields, keptItem. rewrite field_object_get.
  cbn [bind spread]. eexists. split; [reflexivity|]. split.
  - intros k Hk. now apply get_assign_other.
  - apply get_assign_same.
Qed.

Lemma ensureCustomFieldsOnTask_kept t :
  wellFormedTask t = true ->
  exists r, ensureCustomFieldsOnTask t = Ok r /\ keptTask t r.
Proof.
  unfold wellFormedTask. intros H. apply andb_prop in H as (Ho & Hst).
  apply is_object_inv in Ho as (o & ->).
  unfold ensureCustomFieldsOnTask, keptTask, subtasksOf.
  destruct (ensureCustomFields_kept o) as (item & Hitem & Hk & Hcf).
  rewrite Hitem. cbn [bind]. rewrite field_object_get. cbn [bind].
  unfold ensureCustomFields in Hitem. rewrite field_object_get in Hitem.
  cbn [bind spread] in Hitem. injection Hitem as <-. cbn [spread].
  destruct (field "subtasks" (VObj o)) as [| |b|n|s|ss|so] eqn:E;
    cbn [truthy] in Hst |- *;
    try (rewrite (proj1 (negb_true_iff _) Hst));
    try discriminate;
    try (cbn [bind]; eexists; split; [reflexivity|]; split;
         [intros k K1 K2; rewrite get_assign_other by assumption;
          now apply Hk
         |split; [rewrite get_assign_other by discriminate; exact Hcf
                 |exists []; split; [apply get_assign_same | constructor]]]).
  cbn [call_map].
  destruct (mapM_related ensureCustomFields keptItem ss) as (ss' & Hmap & F).
  { forall_of Hst. intros s Hs. apply is_object_inv in Hs as (so & ->).
    apply ensureCustomFields_kept. }
  rewrite Hmap. cbn [bind]. eexists. split; [reflexivity|]. split.
  - intros k K1 K2. rewrite get_assign_other by assumption. now apply Hk.
  - split; [rewrite get_assign_other by discriminate; exact Hcf|].
    exists ss'. split; [apply get_assign_same | exact F].
Qed.

End Kept.

(** X21. The normalizer only adds.  On well-formed tasks
    [ensureCustomFieldsOnTasks] returns as many tasks, in order; in each, a
    truthy [customFields] is the one of the input and any other becomes
    [{}], every property other than [customFields] and [subtasks] reads as
    before, and the subtasks are those of the input, one by one, treated the
    same way. *)
Theorem X21_normalizer_keeps_data (ts : list value) :
  forallb wellFormedTask ts = true ->
  exists rs,
    CustomFieldsValidator.ensureCustomFieldsOnTasks (VArr ts) = Ok (VArr rs) /\
    Forall2 keptTask ts rs.
Proof.
  intros H. unfold CustomFieldsValidator.ensureCustomFieldsOnTasks.
  cbn [call_map].
  destruct (mapM_related CustomFieldsValidator.ensureCustomFieldsOnTask
              keptTask ts) as (rs & -> & F).
  - forall_of H. apply ensureCustomFieldsOnTask_kept.
  - cbn [bind]. eauto.
Qed.

Lemma X21_witness :
  exists rs,
    CustomFieldsValidator.ensureCustomFieldsOnTasks Examples.legacyTasks
    = Ok (VArr rs) /\
    Forall2 keptTask [Examples.legacyTask] rs.
Proof.
  apply (X21_normalizer_keeps_data [Examples.legacyTask]). reflexivity.
Defined.

(** ** queryTranslator.js: the two copies *)

Section Copies.

(** Away from [status], the core callbacks of the two copies compute the same
    result. *)
Lemma coreMatch_copies k v t :
  (k =? "status")%string = false ->
  QueryTranslatorCI.coreMatch k v t = QueryTranslator.coreMatch k v t.
Proof.
  intros Hk.
  unfold QueryTranslatorCI.coreMatch, QueryTranslator.coreMatch,
    QueryTranslator.genericMatch.
  rewrite Hk. cbn [bind]. reflexivity.
Qed.

(** The custom callbacks of the two copies compute the same result. *)
Lemma customMatch_copies k v t :
  QueryTranslatorCI.customMatch k v t = QueryTranslator.customMatch k v t.
Proof.
  unfold QueryTranslatorCI.customMatch, QueryTranslator.customMatch.
  destruct (get t "customFields") as [cf|]; cbn [bind]; [|reflexivity].
  destruct (negb (truthy cf)); [reflexivity|].
  destruct (get cf k) as [x|]; cbn [bind]; [|reflexivity].
  destruct (negb (truthy x)); [reflexivity|].
  destruct (call_includes v (VStr ",")) as [[|]|]; cbn [bind];
    [|reflexivity|reflexivity].
  now destruct v.
Qed.

Lemma applyFilters_ext m m' es : forall l,
  Forall (fun e => forall t, m (fst e) (snd e) t = m' (fst e) (snd e) t) es ->
  QueryTranslator.applyFilters m es l = QueryTranslator.applyFilters m' es l.
Proof.
  induction es as [|[k v] es IH]; intros l H;
    cbn [QueryTranslator.applyFilters]; [reflexivity|].
  inversion H as [|? ? H1 H2]; subst. cbn [fst snd] in H1.
  assert (E : filterM (m k v) l = filterM (m' k v) l).
  { clear -H1. induction l as [|x l IHl]; cbn [filterM]; [reflexivity|].
    now rewrite H1, IHl. }
  rewrite E. destruct (filterM (m' k v) l); cbn [bind]; auto.
Qed.

End Copies.

(** X22. The two copies of [filterTasks], each embedded from its own
    source, differ on the [status] filter only: for filters without a core
    entry named [status] they return the same tasks, or both throw. *)
Theorem X22_copies_agree_without_status (tasks : value)
  (f : QueryTranslator.filters) :
  noStatusFilter f = true ->
  QueryTranslatorCI.filterTasks tasks f = QueryTranslator.filterTasks tasks f.
Proof.
  intros H. unfold QueryTranslatorCI.filterTasks, QueryTranslator.filterTasks.
  destruct (QueryTranslator.spread_iterable tasks) as [l|]; cbn [bind];
    [|reflexivity].
  rewrite (applyFilters_ext QueryTranslatorCI.coreMatch
             QueryTranslator.coreMatch).
  - destruct (QueryTranslator.applyFilters QueryTranslator.coreMatch
                (QueryTranslator.coreFields f) l) as [l'|]; cbn [bind];
      [|reflexivity].
    apply applyFilters_ext. apply Forall_forall. intros [k v] _ t.
    cbn [fst snd]. apply customMatch_copies.
  - unfold noStatusFilter in H. forall_of H. intros [k v] Hk t.
    cbn [fst snd] in *. apply negb_true_iff in Hk.
    now apply coreMatch_copies.
Qed.

Lemma X22_witness :
  QueryTranslatorCI.filterTasks (VArr Examples.epicTaskList)
    (QueryTranslator.mkFilters [("id", VNum 1)] [("epic", VStr "EPIC")])
  = QueryTranslator.filterTasks (VArr Examples.epicTaskList)
      (QueryTranslator.mkFilters [("id", VNum 1)] [("epic", VStr "EPIC")]).
Proof.
  apply (X22_copies_agree_without_status (VArr Examples.epicTaskList)
           (QueryTranslator.mkFilters [("id", VNum 1)]
                                      [("epic", VStr "EPIC")])).
  reflexivity.
Defined.

(** ** customFieldsValidator.js: the usage summary *)

Section UsageSummary.

Import CustomFieldsNames.

Lemma foldM_sim {A A' B} (f : A -> B -> result A) (g : A' -> B -> result A')
  (phi : A' -> A) :
  (forall a' x, f (phi a') x = (r <- g a' x ;; Ok (phi r))) ->
  forall l a', foldM f (phi a') l = (r <- foldM g a' l ;; Ok (phi r)).
Proof.
  intros H. induction l as [|x l IH]; intros a'; cbn [foldM bind];
    [reflexivity|].
  rewrite H. destruct (g a' x) as [r|e]; cbn [bind]; [apply IH | reflexivity].
Qed.

Lemma map_fst_setCount k n l :
  map fst (setCount k n l) = FuzzyTaskSearch.add (map fst l) k.
Proof.
  unfold FuzzyTaskSearch.add, str_mem.
  induction l as [|[k' m] l IH]; cbn [setCount map fst existsb app];
    [reflexivity|].
  destruct (k =? k')%string; cbn [map fst orb]; [reflexivity|].
  rewrite IH. now destruct (existsb (String.eqb k) (map fst l)).
Qed.

Lemma map_fst_bump fc f :
  map fst (bump fc f) = FuzzyTaskSearch.add (map fst fc) f.
Proof. apply map_fst_setCount. Qed.

Lemma map_fst_bumps ks : forall fc,
  map fst (fold_left bump ks fc)
  = fold_left FuzzyTaskSearch.add ks (map fst fc).
Proof.
  induction ks as [|k ks IH]; intros fc; cbn [fold_left]; [reflexivity|].
  now rewrite IH, map_fst_bump.
Qed.

Lemma countFieldsOf_names fc n item :
  addFieldsOf (map fst fc) item
  = (r <- countFieldsOf (fc, n) item ;; Ok (map fst (fst r))).
Proof.
  unfold addFieldsOf, countFieldsOf.
  destruct (hasCustomFields item); [|reflexivity].
  destruct (get item "customFields") as [cf|]; cbn [bind]; [|reflexivity].
  destruct (QueryTranslator.entries cf) as [es|]; cbn [bind]; [|reflexivity].
  destruct es as [|e es]; [reflexivity|].
  cbn [List.length Nat.ltb Nat.leb bind fst]. now rewrite map_fst_bumps.
Qed.

Lemma summarizeTask_names u task :
  addFieldsOfTask (map fst (u_fieldCounts u)) task
  = (r <- summarizeTask u task ;; Ok (map fst (u_fieldCounts r))).
Proof.
  unfold addFieldsOfTask, summarizeTask.
  rewrite (countFieldsOf_names _ (u_tasksWithCustomFields u)).
  destruct (countFieldsOf _ task) as [[fc tw]|]; cbn [bind fst];
    [|reflexivity].
  destruct (get task "subtasks") as [st|]; cbn [bind]; [|reflexivity].
  destruct (truthy st); [|reflexivity].
  destruct st; try reflexivity.
  rewrite (foldM_sim addFieldsOf countFieldsOf (fun r => map fst (fst r)))
    with (a' := (fc, u_subtasksWithCustomFields u)).
  - destruct (foldM countFieldsOf _ l) as [r|]; reflexivity.
  - intros [fc' n'] x. apply countFieldsOf_names.
Qed.

(** The counts stay positive and their keys distinct. *)
Lemma setCount_inv k n l :
  1 <= n -> NoDup (map fst l) /\ Forall (fun e => 1 <= snd e) l ->
  Forall (fun e => 1 <= snd e) (setCount k n l).
Proof.
  intros Hn (_ & F). induction F as [|[k' m] l Hm F IH]; cbn [setCount].
  - repeat constructor. exact Hn.
  - destruct (k =? k')%string; constructor; auto.
Qed.

Lemma bump_inv fc f :
  NoDup (map fst fc) /\ Forall (fun e => 1 <= snd e) fc ->
  (NoDup (map fst (bump fc f)) /\ Forall (fun e => 1 <= snd e) (bump fc f)) /\
  bump fc f <> [].
Proof.
  intros H. split; [split|].
  - rewrite map_fst_bump. now apply NoDup_add.
  - apply setCount_inv; [|exact H].
    destruct (getCount f fc) as [n|] eqn:G; [|lia].
    destruct (Z.eqb_spec n 0); [lia|].
    assert (1 <= n); [|lia].
    destruct H as (_ & F). clear -F G. revert G.
    induction F as [|[k m] l Hm _ IH]; cbn [getCount]; [discriminate|].
    destruct (f =? k)%string; [now intros [= <-] | exact IH].
  - unfold bump. destruct fc as [|[k m] fc]; cbn [setCount]; [discriminate|].
    destruct (f =? k)%string; discriminate.
Qed.

End UsageSummary.

Section UsageInvariants.

Import CustomFieldsNames.

Lemma bumps_inv ks : forall fc,
  countsOk fc -> countsOk (fold_left bump ks fc) /\
  (fc <> [] \/ ks <> [] -> fold_left bump ks fc <> []).
Proof.
  induction ks as [|k ks IH]; intros fc H; cbn [fold_left].
  - split; [exact H|]. now intros [N|N].
  - destruct (bump_inv fc k H) as (H1 & N1).
    destruct (IH _ H1) as (H2 & N2). split; [exact H2|]. intros _.
    apply N2. now left.
Qed.

Lemma countFieldsOf_step fc n item fc' n' :
  countsOk fc ->
  countFieldsOf (fc, n) item = Ok (fc', n') ->
  countsOk fc' /\ ((fc' = fc /\ n' = n) \/ (fc' <> [] /\ n' = n + 1)).
Proof.
  unfold countFieldsOf. intros H E.
  destruct (hasCustomFields item);
    [|injection E as <- <-; split; [exact H | now left]].
  apply bind_Ok in E as (cf & _ & E). apply bind_Ok in E as (es & _ & E).
  destruct es as [|e es];
    [injection E as <- <-; split; [exact H | now left]|].
  cbn [List.length Nat.ltb Nat.leb] in E. injection E as <- <-.
  destruct (bumps_inv (map fst (e :: es)) fc H) as (H1 & N1).
  split; [exact H1|]. right. split; [|reflexivity].
  apply N1. right. discriminate.
Qed.

Lemma usageOk_step_tasks fc tw sw fc' tw' :
  usageOk fc tw sw -> countsOk fc' ->
  (fc' = fc /\ tw' = tw) \/ (fc' <> [] /\ tw' = tw + 1) ->
  usageOk fc' tw' sw.
Proof.
  unfold usageOk. intros (_ & T & S & E) H [(-> & ->)|(N & ->)].
  - auto.
  - split; [exact H|]. split; [lia|]. split; [lia|].
    split; [intros K; contradiction | lia].
Qed.

Lemma usageOk_step_subtasks fc tw sw fc' sw' :
  usageOk fc tw sw -> countsOk fc' ->
  (fc' = fc /\ sw' = sw) \/ (fc' <> [] /\ sw' = sw + 1) ->
  usageOk fc' tw sw'.
Proof.
  unfold usageOk. intros (_ & T & S & E) H [(-> & ->)|(N & ->)].
  - auto.
  - split; [exact H|]. split; [lia|]. split; [lia|].
    split; [intros K; contradiction | lia].
Qed.

Lemma countSubtasks_inv tw l : forall fc sw r,
  usageOk fc tw sw ->
  foldM countFieldsOf (fc, sw) l = Ok r ->
  usageOk (fst r) tw (snd r).
Proof.
  induction l as [|s l IH]; intros fc sw r H E; cbn [foldM] in E.
  - injection E as <-. exact H.
  - apply bind_Ok in E as ([fc1 sw1] & E1 & E).
    destruct (countFieldsOf_step _ _ _ _ _ (proj1 H) E1) as (H1 & C).
    apply (IH fc1 sw1); [|exact E].
    now apply (usageOk_step_subtasks fc tw sw).
Qed.

Lemma summarizeTask_inv u task u' :
  usageOk (u_fieldCounts u) (u_tasksWithCustomFields u)
          (u_subtasksWithCustomFields u) ->
  summarizeTask u task = Ok u' ->
  usageOk (u_fieldCounts u') (u_tasksWithCustomFields u')
          (u_subtasksWithCustomFields u') /\
  u_tasksWithCustomFields u <= u_tasksWithCustomFields u'
    <= u_tasksWithCustomFields u + 1.
Proof.
  unfold summarizeTask. intros H E.
  apply bind_Ok in E as ([fc tw] & E1 & E).
  destruct (countFieldsOf_step _ _ _ _ _ (proj1 H) E1) as (H1 & C).
  assert (H2 := usageOk_step_tasks _ _ _ _ _ H H1 C).
  assert (B : u_tasksWithCustomFields u <= tw
              <= u_tasksWithCustomFields u + 1) by (destruct C; lia).
  apply bind_Ok in E as (st & _ & E).
  destruct (truthy st).
  - destruct st; try discriminate.
    apply bind_Ok in E as (r & E2 & E). injection E as <-.
    cbn [u_fieldCounts u_tasksWithCustomFields u_subtasksWithCustomFields].
    split; [|exact B].
    exact (countSubtasks_inv tw l fc _ r H2 E2).
  - injection E as <-.
    cbn [u_fieldCounts u_tasksWithCustomFields u_subtasksWithCustomFields].
    split; [exact H2 | exact B].
Qed.

Lemma summarizeTasks_inv ts : forall u u',
  usageOk (u_fieldCounts u) (u_tasksWithCustomFields u)
          (u_subtasksWithCustomFields u) ->
  foldM summarizeTask u ts = Ok u' ->
  usageOk (u_fieldCounts u') (u_tasksWithCustomFields u')
          (u_subtasksWithCustomFields u') /\
  u_tasksWithCustomFields u' <=
    u_tasksWithCustomFields u + Z.of_nat (List.length ts).
Proof.
  induction ts as [|t ts IH]; intros u u' H E; cbn [foldM] in E.
  - injection E as <-. split; [exact H | simpl; lia].
  - apply bind_Ok in E as (u1 & E1 & E).
    destruct (summarizeTask_inv _ _ _ H E1) as (H1 & B).
    destruct (IH _ _ H1 E) as (H2 & B2). split; [exact H2|].
    cbn [List.length]. lia.
Qed.

Lemma mostUsed_max e r :
  let m := fold_left (fun a b : string * Z => if snd b <? snd a then a else b)
                     r e in
  In m (e :: r) /\ forall x, In x (e :: r) -> snd x <= snd m.
Proof.
  revert e. induction r as [|b r IH]; intros e; cbn [fold_left].
  - split; [now left|]. intros x [<-|[]]. lia.
  - destruct (IH (if snd b <? snd e then e else b)) as (Hin & Hmax).
    split.
    + destruct Hin as [Hin|Hin]; [|now right; right].
      rewrite <- Hin. destruct (snd b <? snd e); [now left | right; now left].
    + intros x [Hx|[Hx|Hx]]; [subst x|subst x|apply Hmax; now right];
        (etransitivity; [|apply Hmax; now left]);
        destruct (Z.ltb_spec (snd b) (snd e)); lia.
Qed.

End UsageInvariants.

(** X23. The unique field names of [createCustomFieldsSummary] are the
    names [extractCustomFieldNames] returns, in the same order, on every
    input; the one throws exactly when the other does. *)
Theorem X23_summary_names (tasks : value) :
  CustomFieldsNames.extractCustomFieldNames tasks
  = (s <- CustomFieldsNames.createCustomFieldsSummary tasks ;;
     Ok (CustomFieldsNames.uniqueFieldNames s)).
Proof.
  unfold CustomFieldsNames.extractCustomFieldNames,
    CustomFieldsNames.createCustomFieldsSummary.
  destruct tasks as [| | | | |l|]; try reflexivity.
  rewrite (foldM_sim CustomFieldsNames.addFieldsOfTask
             CustomFieldsNames.summarizeTask
             (fun u => map fst (CustomFieldsNames.u_fieldCounts u)))
    with (a' := CustomFieldsNames.mkUsage [] 0 0).
  - destruct (foldM CustomFieldsNames.summarizeTask _ l); reflexivity.
  - intros u x. apply summarizeTask_names.
Qed.

(** X24. The numbers of [createCustomFieldsSummary] fit together: the
    tasks with custom fields are at most the tasks; the usage counts have one
    entry per unique field name, each at least 1; no field name is found
    exactly when no task and no subtask has custom fields, and then the most
    used field is [null]; otherwise the most used field carries a count that
    no other count exceeds. *)
Theorem X24_summary_counts (ts : list value)
  (s : CustomFieldsNames.fieldsSummary) :
  CustomFieldsNames.createCustomFieldsSummary (VArr ts) = Ok s ->
  CustomFieldsNames.s_totalTasks s = Z.of_nat (List.length ts) /\
  0 <= CustomFieldsNames.s_tasksWithCustomFields s
    <= CustomFieldsNames.s_totalTasks s /\
  0 <= CustomFieldsNames.s_subtasksWithCustomFields s /\
  NoDup (CustomFieldsNames.uniqueFieldNames s) /\
  map fst (CustomFieldsNames.fieldUsageCounts s)
  = CustomFieldsNames.uniqueFieldNames s /\
  Forall (fun e => 1 <= snd e) (CustomFieldsNames.fieldUsageCounts s) /\
  (CustomFieldsNames.uniqueFieldNames s = [] <->
   CustomFieldsNames.s_tasksWithCustomFields s +
   CustomFieldsNames.s_subtasksWithCustomFields s = 0) /\
  (CustomFieldsNames.mostUsedField s = None <->
   CustomFieldsNames.uniqueFieldNames s = []) /\
  (forall f, CustomFieldsNames.mostUsedField s = Some f ->
             exists n, In (f, n) (CustomFieldsNames.fieldUsageCounts s) /\
                       forall e, In e (CustomFieldsNames.fieldUsageCounts s) ->
                                 snd e <= n).
Proof.
  unfold CustomFieldsNames.createCustomFieldsSummary. intros H.
  apply bind_Ok in H as (u & Hu & H). injection H as <-.
  cbn [CustomFieldsNames.s_totalTasks CustomFieldsNames.s_tasksWithCustomFields
       CustomFieldsNames.s_subtasksWithCustomFields
       CustomFieldsNames.uniqueFieldNames CustomFieldsNames.fieldUsageCounts
       CustomFieldsNames.mostUsedField].
  destruct (summarizeTasks_inv ts (CustomFieldsNames.mkUsage [] 0 0) u)
    as (((N & F) & T & S & E) & B); [|exact Hu|].
  { repeat split; try constructor; cbn; lia. }
  cbn [CustomFieldsNames.u_tasksWithCustomFields] in B.
  split; [reflexivity|]. split; [lia|]. split; [exact S|].
  split; [exact N|]. split; [reflexivity|]. split; [exact F|].
  split; [|split].
  - rewrite <- E. split; [|now intros ->].
    now destruct (CustomFieldsNames.u_fieldCounts u).
  - destruct (CustomFieldsNames.u_fieldCounts u); cbn; split;
      try reflexivity; discriminate.
  - intros f Hf. unfold CustomFieldsNames.mostUsed in Hf.
    destruct (CustomFieldsNames.u_fieldCounts u) as [|e r]; [discriminate|].
    injection Hf as <-. destruct (mostUsed_max e r) as (Hin & Hmax).
    eexists. split; [|exact Hmax].
    now rewrite <- surjective_pairing.
Qed.

Lemma X24_witness :
  exists s,
    CustomFieldsNames.createCustomFieldsSummary (VArr Examples.epicTaskList)
    = Ok s /\
    CustomFieldsNames.uniqueFieldNames s = ["epic"] /\
    0 <= CustomFieldsNames.s_tasksWithCustomFields s
      <= CustomFieldsNames.s_totalTasks s.
Proof.
  eexists. split; [reflexivity|]. split; [reflexivity|].
  apply (X24_summary_counts Examples.epicTaskList _ eq_refl).
Defined.

(** ** queryTranslator.js, the second copy: the status filter *)

Section SecondCopyStatus.

Lemma coreMatchCI_needs_status v t :
  hasStringStatus t = false ->
  QueryTranslatorCI.coreMatch "status" (VStr v) t = Throw TypeError.
Proof.
  unfold hasStringStatus, field, QueryTranslatorCI.coreMatch.
  cbn [String.eqb Ascii.eqb Bool.eqb call_includes toString bind].
  intros H.
  destruct (includes v ","); cbn [QueryTranslatorCI.splitTrimLower bind];
    destruct (get t "status") as [[| | | |st| |]|[]]; try discriminate;
    reflexivity.
Qed.

End SecondCopyStatus.

(** X25. The status filter of the second copy of [filterTasks] returns
    exactly when every task carries a string as status.  It then returns, in
    order, the tasks whose lower-cased status equals the lower-cased filter
    value or, for a comma list, one of its trimmed, lower-cased parts; a task
    with any other status makes it throw. *)
Theorem X25_second_copy_status_filter (ts : list value) (v : string) :
  QueryTranslatorCI.filterTasks (VArr ts)
    (QueryTranslator.mkFilters [("status", VStr v)] [])
  = if forallb hasStringStatus ts then Ok (filter (statusMatches v) ts)
    else Throw TypeError.
Proof.
  destruct (forallb hasStringStatus ts) eqn:E.
  - now apply status_filter_second_copy.
  - rewrite filterTasksCI_one_core.
    assert (exists t, In t ts /\ hasStringStatus t = false) as (t & Ht & Hs).
    { clear -E. induction ts as [|t ts IH]; [discriminate|].
      cbn [forallb] in E. apply andb_false_iff in E as [E|E].
      - exists t. split; [now left | exact E].
      - destruct (IH E) as (x & Hx & Hs). exists x. split; [now right|exact Hs]. }
    apply (filterM_Throw _ _ t Ht). now apply coreMatchCI_needs_status.
Qed.
